(** * Token Automation Manager: action queue and action executor

    A shallow embedding of [scripts/action-queue.js] (module [Queue]) and of
    the action executor (module [Executor]), with the properties of the
    turn-based conditional execution engine stated over them; and of the
    systems the engine works with: target selection and the attack roll of
    [scripts/attack-system.js] (module [Attack]), the movement system
    (module [Movement]) and the initiative roller (module [Initiative]).

    Conventions of the embedding.
    - A JavaScript value that may be [undefined] or [null] is an [option];
      the code never tells the two apart ([||], [??], [!== false], [!value]).
    - Strings are [string]; the empty string is the only falsy string.
    - [order] is an integer ([Z]); hit points are IEEE doubles ([float]),
      and so are armour class, distances and the totals of rolls; the
      coordinates of a place are integers.
    - Document flags are a finite map from the token's id to the stored
      envelope; [foundry.utils.randomID()] is a counter into a sequence of
      ids, so that every call is visible in the state.
    - [async]/[await] is sequential composition: a call of [executeQueue]
      that arrives while a run is suspended is a call in a state whose
      [executing] guard is set. *)

From Stdlib Require Import ZArith Floats Ascii String Bool Lia.
From Stdlib Require Import DecimalString.
From stdpp Require Import gmap strings list sorting.

Local Open Scope string_scope.
Local Open Scope Z_scope.

(** ** JavaScript helpers *)

(** Truthiness of a string value: [undefined], [null] and [""] are falsy. *)
Definition truthy (o : option string) : option string :=
  match o with
  | Some s => if String.eqb s "" then None else Some s
  | None => None
  end.

(** [x || d] for a string [x]. *)
Definition or_default (o : option string) (d : string) : string :=
  match truthy o with Some s => s | None => d end.

(** * scripts/action-queue.js *)
Module Queue.

(** [ActionType] *)
Module ActionType.
Definition MOVEMENT := "movement".
Definition ATTACK := "attack".
Definition SPELL := "spell".
Definition ITEM := "item".
Definition BONUS_ACTION := "bonusAction".
Definition REACTION := "reaction".
Definition END_TURN := "endTurn".
End ActionType.

(** [ConditionType] *)
Module ConditionType.
Definition ALWAYS := "always".
Definition TARGET_IN_RANGE := "targetInRange".
Definition RESOURCE_AVAILABLE := "resourceAvailable".
Definition HP_THRESHOLD := "hpThreshold".
Definition ATTACK_HIT := "attackHit".
Definition ATTACK_MISS := "attackMiss".
Definition SAVE_SUCCESS := "saveSuccess".
Definition SAVE_FAILURE := "saveFailure".
Definition HAS_ADVANTAGE := "hasAdvantage".
Definition HAS_DISADVANTAGE := "hasDisadvantage".
End ConditionType.

(** The [conditions] object of an action: [{type, value}]. *)
Record Conditions := mkConditions {
  cond_type : string;
  cond_value : option string
}.

(** The [data] object of an action: the fields of [MovementActionData] and
    [AttackActionData]; [{}] has none of them. *)
Record Payload := mkPayload {
  itemUuid : option string;
  waypoints : list (Z * Z);
  targetType : option string;
  targetId : option string;
  maxDistance : option Z;
  targetPriority : list string;
  advantageOverride : option bool;
  consumeResource : option bool;
  avoidOpportunityAttacks : option bool
}.

Definition emptyPayload : Payload :=
  mkPayload None [] None None None [] None None None.

(** A plain action object, as stored in a flag or read from JSON: any field
    may be missing. *)
Record RawAction := mkRaw {
  raw_id : option string;
  raw_type : option string;
  raw_order : option Z;
  raw_enabled : option bool;
  raw_name : option string;
  raw_description : option string;
  raw_conditions : option Conditions;
  raw_data : option Payload;
  raw_onSuccess : option string;
  raw_onFailure : option string
}.

(** An [ActionQueueItem] instance. *)
Record ActionQueueItem := mkItem {
  a_id : string;
  a_type : string;
  a_order : Z;
  a_enabled : bool;
  a_name : string;
  a_description : string;
  a_conditions : Conditions;
  a_data : Payload;
  a_onSuccess : option string;
  a_onFailure : option string
}.

(** The fields the constructor of [ActionQueueItem] sets from [data], for
    the id [i] it has settled on. *)
Definition construct (i : string) (d : RawAction) : ActionQueueItem :=
  {| a_id := i;
     a_type := or_default (raw_type d) ActionType.MOVEMENT;
     a_order := default 0 (raw_order d);
     a_enabled := match raw_enabled d with Some false => false | _ => true end;
     a_name := or_default (raw_name d) "Untitled Action";
     a_description := or_default (raw_description d) "";
     a_conditions := default (mkConditions ConditionType.ALWAYS None)
                             (raw_conditions d);
     a_data := default emptyPayload (raw_data d);
     a_onSuccess := truthy (raw_onSuccess d);
     a_onFailure := truthy (raw_onFailure d) |}.

Definition set_id (i : string) (a : ActionQueueItem) : ActionQueueItem :=
  mkItem i (a_type a) (a_order a) (a_enabled a) (a_name a) (a_description a)
         (a_conditions a) (a_data a) (a_onSuccess a) (a_onFailure a).

Definition set_order (o : Z) (a : ActionQueueItem) : ActionQueueItem :=
  mkItem (a_id a) (a_type a) o (a_enabled a) (a_name a) (a_description a)
         (a_conditions a) (a_data a) (a_onSuccess a) (a_onFailure a).

Definition set_name (n : string) (a : ActionQueueItem) : ActionQueueItem :=
  mkItem (a_id a) (a_type a) (a_order a) (a_enabled a) n (a_description a)
         (a_conditions a) (a_data a) (a_onSuccess a) (a_onFailure a).

(** [ActionQueueItem.toObject] *)
Definition toObject (a : ActionQueueItem) : RawAction :=
  {| raw_id := Some (a_id a);
     raw_type := Some (a_type a);
     raw_order := Some (a_order a);
     raw_enabled := Some (a_enabled a);
     raw_name := Some (a_name a);
     raw_description := Some (a_description a);
     raw_conditions := Some (a_conditions a);
     raw_data := Some (a_data a);
     raw_onSuccess := a_onSuccess a;
     raw_onFailure := a_onFailure a |}.

(** Everything of an action but its [id] and [order]. *)
Record Content := mkContent {
  c_type : string;
  c_enabled : bool;
  c_name : string;
  c_description : string;
  c_conditions : Conditions;
  c_data : Payload;
  c_onSuccess : option string;
  c_onFailure : option string
}.

Definition content (a : ActionQueueItem) : Content :=
  mkContent (a_type a) (a_enabled a) (a_name a) (a_description a)
            (a_conditions a) (a_data a) (a_onSuccess a) (a_onFailure a).

(** The order the queue is run in: by the [order] field, ascending. *)
Definition orderLe (a b : ActionQueueItem) : Prop := a_order a <= a_order b.

(** What the constructor makes of a plain object, the id apart. *)
Definition contentOf (d : RawAction) : Content := content (construct "" d).

(** The stored envelope [{version, enabled, actions}]. *)
Record Envelope := mkEnvelope {
  env_version : string;
  env_enabled : bool;
  env_actions : list RawAction
}.

(** A token: the key of its document, its name, its actor and whether the
    current user owns it. *)
Record Token := mkToken {
  tok_id : string;
  tok_name : string;
  tok_actor : option string;
  tok_isOwner : bool
}.

(** The state the queue manager works on: the [actionQueue] flag of every
    token document and the number of ids drawn from [randomID] so far. *)
Record QSt := mkQSt {
  flags : gmap string Envelope;
  drawn : nat
}.

Definition QM (A : Type) : Type := QSt -> A * QSt.

Definition qret {A} (x : A) : QM A := fun s => (x, s).
Definition qbind {A B} (m : QM A) (k : A -> QM B) : QM B :=
  fun s => let '(x, s') := m s in k x s'.

Declare Scope qm_scope.
Delimit Scope qm_scope with qm.
Notation "x <- m ;; k" := (qbind m (fun x => k))
  (at level 100, m at next level, right associativity) : qm_scope.
Local Open Scope qm_scope.

Fixpoint mapQ {A B} (f : A -> QM B) (l : list A) : QM (list B) :=
  match l with
  | [] => qret []
  | x :: l' => y <- f x ;; ys <- mapQ f l' ;; qret (y :: ys)
  end.

(** [token.document.getFlag(MODULE_ID, FLAG_KEY)] *)
Definition getFlag (t : Token) : QM (option Envelope) :=
  fun s => (flags s !! tok_id t, s).

(** [token.document.setFlag(MODULE_ID, FLAG_KEY, queueData)] *)
Definition setFlag (t : Token) (e : Envelope) : QM unit :=
  fun s => (tt, mkQSt (<[tok_id t := e]> (flags s)) (drawn s)).

(** The export document and what [importQueue] reads of a parsed one:
    [actions] is [None] when the field is missing or not an array. *)
Record ExportDoc := mkDoc {
  doc_version : string;
  doc_tokenName : string;
  doc_actions : list RawAction
}.

Record ImportData := mkImport {
  imp_actions : option (list RawAction)
}.

(** Updates given to [updateAction]: the fields to overwrite. *)
Record Updates := mkUpdates {
  upd_id : option string;
  upd_type : option string;
  upd_order : option Z;
  upd_enabled : option bool;
  upd_name : option string;
  upd_description : option string;
  upd_conditions : option Conditions;
  upd_data : option Payload;
  upd_onSuccess : option (option string);
  upd_onFailure : option (option string)
}.

Definition assign (a : ActionQueueItem) (u : Updates) : ActionQueueItem :=
  mkItem (default (a_id a) (upd_id u))
         (default (a_type a) (upd_type u))
         (default (a_order a) (upd_order u))
         (default (a_enabled a) (upd_enabled u))
         (default (a_name a) (upd_name u))
         (default (a_description a) (upd_description u))
         (default (a_conditions a) (upd_conditions u))
         (default (a_data a) (upd_data u))
         (default (a_onSuccess a) (upd_onSuccess u))
         (default (a_onFailure a) (upd_onFailure u)).

Section Manager.

(** The sequence of ids [foundry.utils.randomID()] returns. *)
Variable randomID : nat -> string.

(** [JSON.stringify] on an export document and [JSON.parse] ([None]: a
    syntax error), over some type of texts. *)
Variable JsonText : Type.
Variable stringify : ExportDoc -> JsonText.
Variable parse : JsonText -> option ImportData.

Definition freshID : QM string :=
  fun s => (randomID (drawn s), mkQSt (flags s) (S (drawn s))).

(** [new ActionQueueItem(data)] (and [ActionQueueItem.fromObject]). *)
Definition fromObject (d : RawAction) : QM ActionQueueItem :=
  i <- match truthy (raw_id d) with
       | Some x => qret x
       | None => freshID
       end ;;
  qret (construct i d).

(** [getQueue(token)] *)
Definition getQueue (t : Token) : QM (list ActionQueueItem) :=
  queueData <- getFlag t ;;
  match queueData with
  | None => qret []
  | Some e => mapQ fromObject (env_actions e)
  end.

(** [setQueue(token, actions)] *)
Definition setQueue (t : Token) (actions : list ActionQueueItem) : QM bool :=
  _ <- setFlag t {| env_version := "1.0.0";
                    env_enabled := true;
                    env_actions := map toObject actions |} ;;
  qret true.

(** [addAction(token, action)] *)
Definition addAction (t : Token) (action : ActionQueueItem) : QM bool :=
  queue <- getQueue t ;;
  setQueue t (queue ++ [set_order (Z.of_nat (length queue)) action]).

(** [arr.forEach((a, idx) => a.order = base + idx)] *)
Fixpoint renumber (base : Z) (l : list ActionQueueItem) : list ActionQueueItem :=
  match l with
  | [] => []
  | a :: l' => set_order base a :: renumber (base + 1) l'
  end.

(** [removeAction(token, actionId)] *)
Definition removeAction (t : Token) (actionId : string) : QM bool :=
  queue <- getQueue t ;;
  let filtered := filter (fun a => a_id a ≠ actionId) queue in
  setQueue t (renumber 0 filtered).

(** [queue.findIndex(a => a.id === i)]: the position [queue.find] returns
    the element of. *)
Fixpoint findIndex (i : string) (l : list ActionQueueItem) : option nat :=
  match l with
  | [] => None
  | a :: l' => if String.eqb (a_id a) i then Some O
               else S <$> findIndex i l'
  end.

(** [actions.find(a => a.id === i)] *)
Definition find (i : string) (l : list ActionQueueItem) : option ActionQueueItem :=
  k ← findIndex i l; l !! k.

(** [updateAction(token, actionId, updates)]: [Object.assign] on the
    element found, in place. *)
Definition updateAction (t : Token) (actionId : string) (u : Updates) : QM bool :=
  queue <- getQueue t ;;
  match findIndex actionId queue with
  | None => qret false
  | Some k => setQueue t (alter (fun a => assign a u) k queue)
  end.

(** The loop of [reorderActions]: the elements found are objects of
    [queue], updated in place and pushed by reference; [refs] are the
    positions pushed so far. *)
Fixpoint reorderLoop (ids : list string) (idx : Z)
         (queue : list ActionQueueItem) (refs : list nat)
  : list ActionQueueItem * list nat :=
  match ids with
  | [] => (queue, refs)
  | i :: ids' =>
      match findIndex i queue with
      | Some k => reorderLoop ids' (idx + 1) (alter (set_order idx) k queue)
                              (refs ++ [k])
      | None => reorderLoop ids' (idx + 1) queue refs
      end
  end.

(** [reorderActions(token, actionIds)] *)
Definition reorderActions (t : Token) (actionIds : list string) : QM bool :=
  queue <- getQueue t ;;
  let '(queue', refs) := reorderLoop actionIds 0 queue [] in
  setQueue t (omap (fun k => queue' !! k) refs).

(** [clearQueue(token)] *)
Definition clearQueue (t : Token) : QM bool := setQueue t [].

(** [isQueueEnabled(token)] *)
Definition isQueueEnabled (t : Token) : QM bool :=
  queueData <- getFlag t ;;
  qret match queueData with
       | Some e => env_enabled e
       | None => false
       end.

(** [setQueueEnabled(token, enabled)] *)
Definition setQueueEnabled (t : Token) (enabled : bool) : QM bool :=
  queueData <- getFlag t ;;
  let e := default (mkEnvelope "1.0.0" false []) queueData in
  _ <- setFlag t (mkEnvelope (env_version e) enabled (env_actions e)) ;;
  qret true.

(** [queue.sort((a, b) => a.order - b.order)]: the sort is stable, an
    insertion from the right that stops in front of the first element
    whose order is not smaller. *)
Fixpoint insertByOrder (a : ActionQueueItem) (l : list ActionQueueItem)
  : list ActionQueueItem :=
  match l with
  | [] => [a]
  | b :: l' => if (a_order a <=? a_order b)%Z then a :: b :: l'
               else b :: insertByOrder a l'
  end.

Definition sortByOrder (l : list ActionQueueItem) : list ActionQueueItem :=
  foldr insertByOrder [] l.

(** [getSortedActions(token)] *)
Definition getSortedActions (t : Token) : QM (list ActionQueueItem) :=
  queue <- getQueue t ;;
  qret (sortByOrder queue).

(** [getEnabledActions(token)] *)
Definition getEnabledActions (t : Token) : QM (list ActionQueueItem) :=
  sorted <- getSortedActions t ;;
  qret (filter (fun a => a_enabled a = true) sorted).

(** [duplicateAction(token, actionId)] *)
Definition duplicateAction (t : Token) (actionId : string) : QM bool :=
  queue <- getQueue t ;;
  match find actionId queue with
  | None => qret false
  | Some action =>
      duplicate <- fromObject (toObject action) ;;
      i <- freshID ;;
      let duplicate := set_order (Z.of_nat (length queue))
                         (set_name (a_name action ++ " (Copy)")
                            (set_id i duplicate)) in
      setQueue t (queue ++ [duplicate])
  end.

(** [exportQueue(token)] *)
Definition exportQueue (t : Token) : QM JsonText :=
  queue <- getQueue t ;;
  qret (stringify {| doc_version := "1.0.0";
                     doc_tokenName := tok_name t;
                     doc_actions := map toObject queue |}).

(** [arr.forEach((a, idx) => { a.id = randomID(); a.order = base + idx })] *)
Fixpoint reassign (base : Z) (l : list ActionQueueItem) : QM (list ActionQueueItem) :=
  match l with
  | [] => qret []
  | a :: l' =>
      i <- freshID ;;
      rest <- reassign (base + 1) l' ;;
      qret (set_order base (set_id i a) :: rest)
  end.

(** [importQueue(token, jsonString, append)]: a syntax error and the
    [Invalid queue data] error are caught and give [false]. *)
Definition importQueue (t : Token) (jsonString : JsonText) (append : bool) : QM bool :=
  match parse jsonString with
  | None => qret false
  | Some data =>
      match imp_actions data with
      | None => qret false
      | Some actions =>
          imported <- mapQ fromObject actions ;;
          if append then
            queue <- getQueue t ;;
            let startOrder := Z.of_nat (length queue) in
            imported' <- reassign startOrder imported ;;
            setQueue t (queue ++ imported')
          else
            queue <- reassign 0 imported ;;
            setQueue t queue
      end
  end.

(** The queue mutations that store through [setQueue]. *)
Inductive Mutation :=
| MAdd (action : ActionQueueItem)
| MRemove (actionId : string)
| MUpdate (actionId : string) (u : Updates)
| MReorder (actionIds : list string)
| MDuplicate (actionId : string)
| MClear
| MImport (jsonString : JsonText) (append : bool).

Definition runMutation (m : Mutation) (t : Token) : QM bool :=
  match m with
  | MAdd a => addAction t a
  | MRemove i => removeAction t i
  | MUpdate i u => updateAction t i u
  | MReorder ids => reorderActions t ids
  | MDuplicate i => duplicateAction t i
  | MClear => clearQueue t
  | MImport j b => importQueue t j b
  end.

(** The mutations with no early [return false] in front of [setQueue]. *)
Definition unconditional (m : Mutation) : bool :=
  match m with
  | MAdd _ | MRemove _ | MReorder _ | MClear => true
  | MUpdate _ _ | MDuplicate _ | MImport _ _ => false
  end.

End Manager.

End Queue.

(** * Importing arrays that hold [null] *)
Module Payloads.
Import Queue.
Local Open Scope qm_scope.

(** What [importQueue] reads of a parsed document when the elements of
    its [actions] array are looked at one by one: an element is [null]
    ([None]) or has the fields of a plain action object; an element that
    is a number, a string, a boolean or an array has none of the fields
    the constructor reads, like [{}]. *)
Record JsonData := mkJson {
  json_actions : option (list (option RawAction))
}.

(** A document whose array holds objects only. *)
Definition objects (data : ImportData) : JsonData :=
  mkJson (fmap (M := list) Some <$> imp_actions data).

(** Whether the constructor draws an id for the object. *)
Definition needsId (d : RawAction) : bool :=
  match truthy (raw_id d) with
  | Some _ => false
  | None => true
  end.

Section Manager.

Variable randomID : nat -> string.
Variable JsonText : Type.
Variable parse : JsonText -> option JsonData.

(** [data.actions.map(a => ActionQueueItem.fromObject(a))]: the
    constructor throws on [null], where it reads [data.id] ([None]: the
    [map] has thrown). The elements in front of the [null] have been
    constructed by then, and the ids drawn for them stay drawn. *)
Fixpoint fromObjects (l : list (option RawAction))
  : QM (option (list ActionQueueItem)) :=
  match l with
  | [] => qret (Some [])
  | None :: _ => qret None
  | Some d :: rest =>
      a <- fromObject randomID d ;;
      r <- fromObjects rest ;;
      qret (cons a <$> r)
  end.

(** [importQueue(token, jsonString, append)]: a syntax error, the
    [Invalid queue data] error and the error of the constructor are
    caught and give [false]. *)
Definition importQueue (t : Token) (jsonString : JsonText) (append : bool) : QM bool :=
  match parse jsonString with
  | None => qret false
  | Some data =>
      match json_actions data with
      | None => qret false
      | Some actions =>
          constructed <- fromObjects actions ;;
          match constructed with
          | None => qret false
          | Some imported =>
              if append then
                queue <- getQueue randomID t ;;
                let startOrder := Z.of_nat (length queue) in
                imported' <- reassign randomID startOrder imported ;;
                setQueue t (queue ++ imported')
              else
                queue <- reassign randomID 0 imported ;;
                setQueue t queue
          end
      end
  end.

End Manager.

End Payloads.

(** * The action executor *)
Module Executor.
Import Queue.

(** ** Strings the conditions parse *)

Definition is_digit (c : ascii) : bool :=
  let n := nat_of_ascii c in (48 <=? n)%nat && (n <=? 57)%nat.

(** ASCII white space ([\s] and what [parseInt] skips). *)
Definition is_space (c : ascii) : bool :=
  let n := nat_of_ascii c in
  (n =? 32)%nat || ((9 <=? n)%nat && (n <=? 13)%nat).

Fixpoint skipSpaces (s : string) : string :=
  match s with
  | String c r => if is_space c then skipSpaces r else s
  | EmptyString => s
  end.

Fixpoint takeDigits (s : string) : string :=
  match s with
  | String c r => if is_digit c then String c (takeDigits r) else EmptyString
  | EmptyString => EmptyString
  end.

(** The decimal value of a string of digits. *)
Fixpoint digitsValue (acc : Z) (s : string) : Z :=
  match s with
  | String c r => digitsValue (10 * acc + (Z.of_nat (nat_of_ascii c) - 48)) r
  | EmptyString => acc
  end.

(** The double nearest to an integer. *)
Definition floatOfZ (z : Z) : float :=
  SF2Prim (binary_normalize prec emax z 0 false).

(** [/([<>]=?)\s*(\d+)/] tried at the start of [s]: the operator and the
    digits. Each part is greedy and giving characters back never helps: a
    given back [=] or white space is not a digit. *)
Definition matchAt (s : string) : option (string * string) :=
  match s with
  | String c r =>
      if Ascii.eqb c "<" || Ascii.eqb c ">" then
        let '(op, r1) :=
          match r with
          | String "=" r' => (String c "=", r')
          | _ => (String c EmptyString, r)
          end in
        let ds := takeDigits (skipSpaces r1) in
        if String.eqb ds "" then None else Some (op, ds)
      else None
  | EmptyString => None
  end.

(** [value.match(/([<>]=?)\s*(\d+)/)]: the first position that matches. *)
Fixpoint regexMatch (s : string) : option (string * string) :=
  match matchAt s with
  | Some m => Some m
  | None => match s with
            | String _ r => regexMatch r
            | EmptyString => None
            end
  end.

(** [s.split('-')] *)
Fixpoint splitDash (cur : string) (s : string) : list string :=
  match s with
  | String c r =>
      if Ascii.eqb c "-" then cur :: splitDash EmptyString r
      else splitDash (cur ++ String c EmptyString) r
  | EmptyString => [cur]
  end.

(** [parseInt(s)] on decimal input: white space, a sign, digits; [None] is
    [NaN]. *)
Definition parseInt (s : string) : option Z :=
  let s1 := skipSpaces s in
  let '(neg, s2) :=
    match s1 with
    | String "-" r => (true, r)
    | String "+" r => (false, r)
    | _ => (false, s1)
    end in
  let ds := takeDigits s2 in
  if String.eqb ds "" then None
  else Some (if neg : bool then - digitsValue 0 ds else digitsValue 0 ds).

(** The text of a number in a template literal. *)
Definition numberText (n : option Z) : string :=
  match n with
  | None => "NaN"
  | Some z => NilZero.string_of_int (Z.to_int z)
  end.

(** ** Outcomes, errors, the run context *)

(** What an executor returns: the fields the engine reads or writes. *)
Record Outcome := mkOutcome {
  success : bool;
  o_type : option string;
  hit : option bool;
  message : option string;
  error : option string
}.

Definition failed (msg : string) : Outcome :=
  mkOutcome false None None None (Some msg).

(** A thrown [Error]. *)
Inductive Exn :=
| TypeError (msg : string)
| Error (msg : string).

Definition exn_message (e : Exn) : string :=
  match e with TypeError m | Error m => m end.

Inductive Res (A : Type) :=
| Ok (x : A)
| Throw (e : Exn).
Arguments Ok {A} x.
Arguments Throw {A} e.

(** The results [Map] of a run, in insertion order. *)
Definition Ledger := list (string * Outcome).

(** [results.set(k, v)]: an existing key keeps its place. *)
Fixpoint ledgerSet (k : string) (v : Outcome) (l : Ledger) : Ledger :=
  match l with
  | [] => [(k, v)]
  | (k', v') :: l' =>
      if String.eqb k' k then (k, v) :: l' else (k', v') :: ledgerSet k v l'
  end.

Definition ledgerHas (k : string) (l : Ledger) : bool :=
  existsb (fun e => String.eqb (fst e) k) l.

(** [context: {actor, token, combat}] *)
Record Context := mkContext {
  ctx_actor : option string;
  ctx_token : Token;
  ctx_combat : option string
}.

(** [currentWorkflow]: [{token, actions, results, context}]. *)
Record Workflow := mkWorkflow {
  wf_token : Token;
  wf_actions : list ActionQueueItem;
  wf_results : Ledger;
  wf_context : Context
}.

(** The values a property of the workflow object can hold. *)
Inductive JSVal :=
| VToken (t : Token)
| VActions (l : list ActionQueueItem)
| VResults (r : Ledger)
| VContext (c : Context)
| VActor (ref : string).

(** [workflow[prop]]: the object literal of [executeQueue] has the four
    properties [token], [actions], [results] and [context]; any other read
    is [undefined]. *)
Definition wf_get (w : Workflow) (prop : string) : option JSVal :=
  if String.eqb prop "token" then Some (VToken (wf_token w))
  else if String.eqb prop "actions" then Some (VActions (wf_actions w))
  else if String.eqb prop "results" then Some (VResults (wf_results w))
  else if String.eqb prop "context" then Some (VContext (wf_context w))
  else None.

(** [actor.system]: hit points, spell slots and resources. *)
Record ActorSystem := mkActorSystem {
  hp_value : float;
  hp_max : float;
  spells : string -> option float;
  resources : string -> option float
}.

(** What the engine prints or shows. [LedgerSet] is not printed by the
    code: it marks the [results.set(action.id, result)] of the main loop. *)
Inductive Event :=
| LogExecuting (a : ActionQueueItem)
| LogSkipping (a : ActionQueueItem)
| LogAlreadyExecuting
| LogTurn (count : nat) (tokenName : string)
| LogStopping
| LedgerSet (a : ActionQueueItem) (r : Outcome)
| ConsoleError (e : Exn)
| NotifyInfo (tokenName : string) (count : nat)
| NotifyError.

(** The actions the main loop recorded an outcome for, in time order. *)
Definition ledgerWrites (evs : list Event) : list ActionQueueItem :=
  omap (fun e => match e with LedgerSet a _ => Some a | _ => None end) evs.

(** The actions [executeAction] was called on, in time order. *)
Definition dispatched (evs : list Event) : list ActionQueueItem :=
  omap (fun e => match e with LogExecuting a => Some a | _ => None end) evs.

(** The first entry of the ledger, in insertion order, whose outcome is
    tagged [attack]. *)
Definition firstAttack (l : Ledger) : option Outcome :=
  snd <$> List.find (fun e => bool_decide (o_type (snd e) = Some "attack")) l.

(** The action types [executeAction] has a case for. *)
Definition knownType (t : string) : bool :=
  String.eqb t ActionType.MOVEMENT || String.eqb t ActionType.ATTACK
  || String.eqb t ActionType.SPELL || String.eqb t ActionType.ITEM
  || String.eqb t ActionType.END_TURN.

(** The id an iteration branches to after the outcome [r], if any:
    [onSuccess] when [r.success], [onFailure] when not, and only a truthy
    one. *)
Definition branchTarget (action : ActionQueueItem) (r : Outcome) : option string :=
  if success r then truthy (a_onSuccess action) else truthy (a_onFailure action).

(** [combat.combatant] and [combatant.token?.object]. *)
Record Combatant := mkCombatant { cb_token : option Token }.
Record Combat := mkCombat { combatant : option Combatant }.

(** [getStatus()] *)
Record Status := mkStatus {
  st_executing : bool;
  st_currentToken : option string;
  st_actionsCompleted : nat
}.

Section Engine.

Variable randomID : nat -> string.

(** The game world the executors act on, and items. *)
Variable World : Type.
Variable Item : Type.

(** The host: the movement and attack systems registered on
    [game.tokenAutomation] (if any), item resolution and use, the actors'
    data, and the current user. An executor may return an outcome or
    throw, and changes the world. *)
Record Host := mkHost {
  movementSystem : option (Token -> Payload -> World -> Res Outcome * World);
  attackSystem : option (Token -> Payload -> World -> Res Outcome * World);
  fromUuid : string -> World -> Res (option Item) * World;
  midiActive : bool;
  completeItemUse : Item -> World -> Res unit * World;
  itemUse : Item -> World -> Res unit * World;
  itemName : Item -> string;
  actorSystem : World -> string -> option ActorSystem;
  gameCombat : option string;
  userIsGM : bool;
  hasQueueManager : bool
}.

Variable host : Host.

(** The executor ([executing], [currentWorkflow]) and all it acts on. *)
Record St := mkSt {
  executing : bool;
  currentWorkflow : option Workflow;
  qst : QSt;
  world : World;
  events : list Event
}.

Definition M (A : Type) : Type := St -> Res A * St.

Definition ret {A} (x : A) : M A := fun s => (Ok x, s).
Definition bind {A B} (m : M A) (k : A -> M B) : M B :=
  fun s => match m s with
           | (Ok x, s') => k x s'
           | (Throw e, s') => (Throw e, s')
           end.
Definition throw {A} (e : Exn) : M A := fun s => (Throw e, s).

(** [try { m } catch (error) { h error }] *)
Definition tryCatch {A} (m : M A) (h : Exn -> M A) : M A :=
  fun s => match m s with
           | (Ok x, s') => (Ok x, s')
           | (Throw e, s') => h e s'
           end.

Declare Scope em_scope.
Delimit Scope em_scope with em.
Notation "x <- m ;; k" := (bind m (fun x => k))
  (at level 100, m at next level, right associativity) : em_scope.
Local Open Scope em_scope.

Definition emit (e : Event) : M unit :=
  fun s => (Ok tt, mkSt (executing s) (currentWorkflow s) (qst s) (world s)
                        (events s ++ [e])).

Definition liftQ {A} (m : QM A) : M A :=
  fun s => let '(x, q) := m (qst s) in
           (Ok x, mkSt (executing s) (currentWorkflow s) q (world s) (events s)).

Definition liftW {A} (f : World -> Res A * World) : M A :=
  fun s => let '(r, w) := f (world s) in
           (r, mkSt (executing s) (currentWorkflow s) (qst s) w (events s)).

(** [this.currentWorkflow.<property>]: a [TypeError] when the workflow
    is [null]. *)
Definition workflow : M Workflow :=
  fun s => match currentWorkflow s with
           | Some w => (Ok w, s)
           | None => (Throw (TypeError "Cannot read properties of null"), s)
           end.

(** [this.currentWorkflow.results.set(id, result)] *)
Definition recordResult (i : string) (r : Outcome) : M unit :=
  fun s => match currentWorkflow s with
           | Some w =>
               (Ok tt, mkSt (executing s)
                            (Some (mkWorkflow (wf_token w) (wf_actions w)
                                     (ledgerSet i r (wf_results w))
                                     (wf_context w)))
                            (qst s) (world s) (events s))
           | None => (Throw (TypeError "Cannot read properties of null"), s)
           end.

(** [actor.system] for the value read as [actor]: a [TypeError] when it
    is [undefined]; an object that is no actor has no [system], and the
    next read ([.attributes], [.spells], [.resources]) is the
    [TypeError]. *)
Definition systemOf (actor : option JSVal) : M ActorSystem :=
  fun s => match actor with
           | Some (VActor ref) =>
               match actorSystem host (world s) ref with
               | Some sys => (Ok sys, s)
               | None => (Throw (TypeError "Cannot read properties of undefined"), s)
               end
           | _ => (Throw (TypeError "Cannot read properties of undefined"), s)
           end.

(** [checkTargetInRange(action)] *)
Definition checkTargetInRange (action : ActionQueueItem) : M bool := ret true.

(** [checkResourceAvailable(action)] *)
Definition checkResourceAvailable (action : ActionQueueItem) : M bool :=
  match truthy (cond_value (a_conditions action)) with
  | None => ret true
  | Some value =>
      w <- workflow ;;
      let actor := wf_get w "actor" in
      if String.prefix "spell-slot-" value then
        let level := parseInt (nth 2 (splitDash "" value) "") in
        sys <- systemOf actor ;;
        ret match spells sys ("spell" ++ numberText level) with
            | Some v => PrimFloat.ltb 0 v
            | None => false
            end
      else if String.prefix "resource-" value then
        let resourceName := nth 1 (splitDash "" value) "" in
        sys <- systemOf actor ;;
        ret match resources sys resourceName with
            | Some v => PrimFloat.ltb 0 v
            | None => false
            end
      else ret true
  end.

(** The [switch (operator)] of [checkHPThreshold]. *)
Definition compareHP (operator : string) (hpPercent thresholdNum : float) : bool :=
  if String.eqb operator "<" then PrimFloat.ltb hpPercent thresholdNum
  else if String.eqb operator "<=" then PrimFloat.leb hpPercent thresholdNum
  else if String.eqb operator ">" then PrimFloat.ltb thresholdNum hpPercent
  else if String.eqb operator ">=" then PrimFloat.leb thresholdNum hpPercent
  else true.

(** [checkHPThreshold(action)] *)
Definition checkHPThreshold (action : ActionQueueItem) : M bool :=
  match truthy (cond_value (a_conditions action)) with
  | None => ret true
  | Some value =>
      w <- workflow ;;
      let actor := wf_get w "actor" in
      sys <- systemOf actor ;;
      let hpPercent := (hp_value sys / hp_max sys * 100)%float in
      match regexMatch value with
      | None => ret true
      | Some (operator, threshold) =>
          let thresholdNum := floatOfZ (digitsValue 0 threshold) in
          ret (compareHP operator hpPercent thresholdNum)
      end
  end.

(** The loop of [checkPreviousAttackResult] over the entries of the
    ledger. *)
Fixpoint scanResults (condType : string) (l : Ledger) : bool :=
  match l with
  | [] => true
  | (_, result) :: l' =>
      if bool_decide (o_type result = Some "attack") then
        if String.eqb condType ConditionType.ATTACK_HIT
        then bool_decide (hit result = Some true)
        else if String.eqb condType ConditionType.ATTACK_MISS
        then bool_decide (hit result = Some false)
        else scanResults condType l'
      else scanResults condType l'
  end.

(** [checkPreviousAttackResult(action)] *)
Definition checkPreviousAttackResult (action : ActionQueueItem) : M bool :=
  w <- workflow ;;
  ret (scanResults (cond_type (a_conditions action)) (wf_results w)).

(** [shouldExecute(action)] *)
Definition shouldExecute (action : ActionQueueItem) : M bool :=
  let t := cond_type (a_conditions action) in
  if String.eqb t ConditionType.ALWAYS then ret true
  else if String.eqb t ConditionType.TARGET_IN_RANGE then checkTargetInRange action
  else if String.eqb t ConditionType.RESOURCE_AVAILABLE then checkResourceAvailable action
  else if String.eqb t ConditionType.HP_THRESHOLD then checkHPThreshold action
  else if String.eqb t ConditionType.ATTACK_HIT
          || String.eqb t ConditionType.ATTACK_MISS
       then checkPreviousAttackResult action
  else ret true.

(** [executeMovement(action)] *)
Definition executeMovement (action : ActionQueueItem) : M Outcome :=
  match movementSystem host with
  | None => ret (failed "Movement system not available")
  | Some sys =>
      w <- workflow ;;
      liftW (sys (wf_token w) (a_data action))
  end.

(** [executeAttack(action)] *)
Definition executeAttack (action : ActionQueueItem) : M Outcome :=
  match attackSystem host with
  | None => ret (failed "Attack system not available")
  | Some sys =>
      w <- workflow ;;
      liftW (sys (wf_token w) (a_data action))
  end.

(** [executeSpell(action)] *)
Definition executeSpell (action : ActionQueueItem) : M Outcome :=
  executeAttack action.

(** [executeItem(action)] *)
Definition executeItem (action : ActionQueueItem) : M Outcome :=
  match truthy (itemUuid (a_data action)) with
  | None => ret (failed "No item specified")
  | Some uuid =>
      item <- liftW (fromUuid host uuid) ;;
      match item with
      | None => ret (failed "Item not found")
      | Some item =>
          tryCatch
            (if midiActive host then
               _ <- liftW (completeItemUse host item) ;;
               ret (mkOutcome true None None
                      (Some ("Used " ++ itemName host item)) None)
             else
               _ <- liftW (itemUse host item) ;;
               ret (mkOutcome true None None
                      (Some ("Used " ++ itemName host item)) None))
            (fun e => ret (failed (exn_message e)))
      end
  end.

(** The [switch (action.type)] of [executeAction]. *)
Definition dispatch (action : ActionQueueItem) : M Outcome :=
  let t := a_type action in
  if String.eqb t ActionType.MOVEMENT then executeMovement action
  else if String.eqb t ActionType.ATTACK then executeAttack action
  else if String.eqb t ActionType.SPELL then executeSpell action
  else if String.eqb t ActionType.ITEM then executeItem action
  else if String.eqb t ActionType.END_TURN
  then ret (mkOutcome true None None (Some "Turn ended") None)
  else ret (failed "Unknown action type").

(** [executeAction(action)] *)
Definition executeAction (action : ActionQueueItem) : M Outcome :=
  _ <- emit (LogExecuting action) ;;
  tryCatch (dispatch action)
    (fun e => _ <- emit (ConsoleError e) ;; ret (failed (exn_message e))).

(** The branch of one iteration: [actions.find] on the list given to
    [executeQueue], and [executeAction] on what it finds; the outcome of
    that call is dropped. *)
Definition branchTo (actions : list ActionQueueItem) (target : string) : M unit :=
  match find target actions with
  | Some nextAction => _ <- executeAction nextAction ;; ret tt
  | None => ret tt
  end.

(** The body of the [for (const action of actions)] loop; the pause of
    500 ms at its end has no effect on the state. *)
Definition iteration (actions : list ActionQueueItem) (action : ActionQueueItem)
  : M unit :=
  ok <- shouldExecute action ;;
  if negb ok then emit (LogSkipping action)
  else
    result <- executeAction action ;;
    _ <- recordResult (a_id action) result ;;
    _ <- emit (LedgerSet action result) ;;
    match success result, truthy (a_onSuccess action), truthy (a_onFailure action) with
    | true, Some target, _ => branchTo actions target
    | false, _, Some target => branchTo actions target
    | _, _, _ => ret tt
    end.

(** [for (const action of actions) { ... }] over what is left of the
    list. *)
Fixpoint mainLoop (actions rest : list ActionQueueItem) : M unit :=
  match rest with
  | [] => ret tt
  | action :: rest' =>
      _ <- iteration actions action ;;
      mainLoop actions rest'
  end.

Definition startRun (token : Token) (actions : list ActionQueueItem) (s : St) : St :=
  mkSt true
       (Some (mkWorkflow token actions []
                (mkContext (tok_actor token) token (gameCombat host))))
       (qst s) (world s) (events s).

(** The [finally] block of [executeQueue]. *)
Definition endRun (s : St) : St :=
  mkSt false None (qst s) (world s) (events s).

(** The [try] block of [executeQueue]. *)
Definition runBody (token : Token) (actions : list ActionQueueItem) : M unit :=
  _ <- mainLoop actions actions ;;
  emit (NotifyInfo (tok_name token) (length actions)).

(** [executeQueue(token, actions)] *)
Definition executeQueue (token : Token) (actions : list ActionQueueItem) : M unit :=
  fun s =>
    if executing s then emit LogAlreadyExecuting s
    else
      let '(_, s') :=
        tryCatch (runBody token actions)
                 (fun e => _ <- emit (ConsoleError e) ;; emit NotifyError)
                 (startRun token actions s) in
      (Ok tt, endRun s').

(** [onCombatTurn(combat, updateData, options)]: [turn] is
    [updateData.turn], falsy when missing or [0]. *)
Definition onCombatTurn (combat : Combat) (turn : option Z) : M unit :=
  match turn with
  | None | Some 0 => ret tt
  | Some _ =>
      match combatant combat with
      | None => ret tt
      | Some c =>
          match cb_token c with
          | None => ret tt
          | Some token =>
              if negb (tok_isOwner token) && negb (userIsGM host) then ret tt
              else if negb (hasQueueManager host) then ret tt
              else
                enabled <- liftQ (isQueueEnabled token) ;;
                if negb enabled then ret tt
                else
                  actions <- liftQ (getEnabledActions randomID token) ;;
                  if (length actions =? 0)%nat then ret tt
                  else
                    _ <- emit (LogTurn (length actions) (tok_name token)) ;;
                    executeQueue token actions
          end
      end
  end.

(** [stopExecution()] *)
Definition stopExecution : M unit :=
  fun s =>
    if executing s then
      (Ok tt, mkSt false None (qst s) (world s) (events s ++ [LogStopping]))
    else (Ok tt, s).

(** [getStatus()] *)
Definition getStatus (s : St) : Status :=
  {| st_executing := executing s;
     st_currentToken := truthy (tok_name <$> (wf_token <$> currentWorkflow s));
     st_actionsCompleted :=
       match currentWorkflow s with
       | Some w => length (wf_results w)
       | None => O
       end |}.

End Engine.

Arguments mkSt {World} _ _ _ _ _.
Arguments executing {World} _.
Arguments currentWorkflow {World} _.
Arguments qst {World} _.
Arguments world {World} _.
Arguments events {World} _.
Arguments getStatus {World} _.
Arguments endRun {World} _.
Arguments stopExecution {World} _.
Arguments ret {World A} _ _.
Arguments bind {World A B} _ _ _.
Arguments throw {World A} _ _.
Arguments tryCatch {World A} _ _ _.
Arguments emit {World} _ _.
Arguments liftQ {World A} _ _.
Arguments liftW {World A} _ _.
Arguments workflow {World} _.
Arguments recordResult {World} _ _ _.
Arguments systemOf {World Item} _ _ _.
Arguments checkTargetInRange {World} _ _.
Arguments checkResourceAvailable {World Item} _ _ _.
Arguments checkHPThreshold {World Item} _ _ _.
Arguments checkPreviousAttackResult {World} _ _.
Arguments shouldExecute {World Item} _ _ _.
Arguments executeMovement {World Item} _ _ _.
Arguments executeAttack {World Item} _ _ _.
Arguments executeSpell {World Item} _ _ _.
Arguments executeItem {World Item} _ _ _.
Arguments dispatch {World Item} _ _ _.
Arguments executeAction {World Item} _ _ _.
Arguments branchTo {World Item} _ _ _ _.
Arguments iteration {World Item} _ _ _ _.
Arguments mainLoop {World Item} _ _ _ _.
Arguments startRun {World Item} _ _ _ _.
Arguments runBody {World Item} _ _ _ _.
Arguments executeQueue {World Item} _ _ _ _.
Arguments onCombatTurn _ {World Item} _ _ _ _.
Arguments movementSystem {World Item} _.
Arguments attackSystem {World Item} _.
Arguments fromUuid {World Item} _ _ _.
Arguments midiActive {World Item} _.
Arguments completeItemUse {World Item} _ _ _.
Arguments itemUse {World Item} _ _ _.
Arguments itemName {World Item} _ _.
Arguments actorSystem {World Item} _ _ _.
Arguments gameCombat {World Item} _.
Arguments userIsGM {World Item} _.
Arguments hasQueueManager {World Item} _.

(** The state [s] with [evs] added to what was printed. *)
Definition logged {World} (s : St World) (evs : list Event) : St World :=
  mkSt (executing s) (currentWorkflow s) (qst s) (world s) (events s ++ evs).

(** The ledger of the active run. *)
Definition ledgerOf {World} (s : St World) : Ledger :=
  match currentWorkflow s with
  | Some w => wf_results w
  | None => []
  end.

(** A computation that changes nothing. *)
Definition readonly {World A} (m : M World A) : Prop :=
  forall s r s', m s = (r, s') -> s' = s.

(** A computation that may change the world and nothing else. *)
Definition quiet {World A} (m : M World A) : Prop :=
  forall s r s', m s = (r, s') ->
    executing s' = executing s /\ currentWorkflow s' = currentWorkflow s /\
    qst s' = qst s /\ events s' = events s.

End Executor.

(** * Concrete tokens, queues and hosts *)
Module Fixtures.
Import Queue Executor.

(** A source of ids: [r0], [r1], ... *)
Definition testRandomID (n : nat) : string :=
  "r" ++ NilZero.string_of_uint (Nat.to_uint n).

(** A codec for tests: a text is a syntax error ([None]), a document
    without an [actions] array, or a document with one. *)
Definition TestText : Type := option (option (list RawAction)).
Definition testStringify (d : ExportDoc) : TestText := Some (Some (doc_actions d)).
Definition testParse (x : TestText) : option ImportData := mkImport <$> x.

Definition goblin : Token := mkToken "tok1" "Goblin" (Some "actor1") true.

Definition always : Conditions := mkConditions ConditionType.ALWAYS None.

(** Two end-of-turn markers: [A] branches to [B] on success, and [B] is
    disabled and has the greater order. *)
Definition actA : ActionQueueItem :=
  mkItem "A" ActionType.END_TURN 0 true "First" "" always emptyPayload
         (Some "B") None.
Definition actB : ActionQueueItem :=
  mkItem "B" ActionType.END_TURN 5 false "Second" "" always emptyPayload
         None None.
Definition actC : ActionQueueItem :=
  mkItem "C" ActionType.END_TURN 1 true "Third" "" always emptyPayload
         None None.

(** An attack that branches to [healB] on success, and [healB], which the
    main loop runs only after a miss. *)
Definition strike : ActionQueueItem :=
  mkItem "S" ActionType.ATTACK 0 true "Strike" "" always emptyPayload
         (Some "H") None.
Definition healB : ActionQueueItem :=
  mkItem "H" ActionType.END_TURN 1 true "Follow up" ""
         (mkConditions ConditionType.ATTACK_MISS None) emptyPayload None None.

(** The quick start guide's potion: only if hit points are low. *)
Definition potion : ActionQueueItem :=
  mkItem "P" ActionType.END_TURN 0 true "Drink Healing Potion" ""
         (mkConditions ConditionType.HP_THRESHOLD (Some "< 50")) emptyPayload
         None None.

Definition turnEnded : Outcome := mkOutcome true None None (Some "Turn ended") None.
Definition hitOutcome : Outcome :=
  mkOutcome true (Some "attack") (Some true) (Some "Hit") None.

(** A host over a trivial world: an attack system whose attacks always
    hit, a movement system that throws, no items; the actor has 40 of 100
    hit points. *)
Definition testHost : Host unit unit :=
  {| movementSystem := Some (fun _ _ w => (Throw (Error "blocked"), w));
     attackSystem := Some (fun _ _ w => (Ok hitOutcome, w));
     fromUuid := fun _ w => (Ok None, w);
     midiActive := false;
     completeItemUse := fun _ w => (Ok tt, w);
     itemUse := fun _ w => (Ok tt, w);
     itemName := fun _ => "item";
     actorSystem := fun _ _ =>
       Some (mkActorSystem 40%float 100%float (fun _ => None) (fun _ => None));
     gameCombat := Some "combat1";
     userIsGM := false;
     hasQueueManager := true |}.

Definition stored (l : list ActionQueueItem) : QSt :=
  mkQSt {[ "tok1" := mkEnvelope "1.0.0" true (map toObject l) ]} 0.

(** An idle executor over a stored queue. *)
Definition idle (l : list ActionQueueItem) : St unit :=
  mkSt false None (stored l) tt [].

(** An executor in the middle of a run of [goblin] that has recorded one
    outcome. *)
Definition busy : St unit :=
  mkSt true
       (Some (mkWorkflow goblin [actA; actC] [("A", turnEnded)]
                (mkContext (Some "actor1") goblin (Some "combat1"))))
       (stored [actA; actC]) tt [LogExecuting actA; LedgerSet actA turnEnded].

Definition goblinsTurn : Combat := mkCombat (Some (mkCombatant (Some goblin))).


(** A run of [strike; healB] after the strike has hit and before the main
    loop reaches [healB]. *)
Definition afterHit : St unit :=
  mkSt true
       (Some (mkWorkflow goblin [strike; healB] [("S", hitOutcome)]
                (mkContext (Some "actor1") goblin (Some "combat1"))))
       (stored [strike; healB]) tt [].

(** The start of a run of [l] for [goblin]. *)
Definition started (l : list ActionQueueItem) : St unit :=
  startRun testHost goblin l (idle l).

End Fixtures.

(** * Well-formed items *)
Module QueueShape.
Import Queue.

(** An item as the constructor leaves it when it is given an id: the id,
    the type and the name are not empty and a branch target is not the
    empty string. *)
Definition wellFormed (a : ActionQueueItem) : Prop :=
  a_id a <> "" /\ a_type a <> "" /\ a_name a <> "" /\
  a_onSuccess a <> Some "" /\ a_onFailure a <> Some "".

(** The orders of a list count up from [base], one by one. *)
Definition denseFrom (base : Z) (l : list ActionQueueItem) : Prop :=
  forall (k : nat) a, l !! k = Some a -> a_order a = base + Z.of_nat k.

(** The id and the content of an item: all of it but the order. *)
Definition identity (a : ActionQueueItem) : string * Content := (a_id a, content a).

End QueueShape.

(** * Runs: what is shown, and the conditions that read the actor *)
Module RunShape.
Import Queue Executor.

(** The notifications among the events: what [ui.notifications] showed. *)
Definition notifications (evs : list Event) : list Event :=
  List.filter (fun e => match e with
                        | NotifyInfo _ _ | NotifyError => true
                        | _ => false
                        end) evs.

(** The conditions that go on to [actor.system]: [hpThreshold] with a
    value, and [resourceAvailable] with a value that starts with
    [spell-slot-] or [resource-]. *)
Definition readsActor (a : ActionQueueItem) : bool :=
  match truthy (cond_value (a_conditions a)) with
  | None => false
  | Some value =>
      String.eqb (cond_type (a_conditions a)) ConditionType.HP_THRESHOLD
      || (String.eqb (cond_type (a_conditions a)) ConditionType.RESOURCE_AVAILABLE
          && (String.prefix "spell-slot-" value || String.prefix "resource-" value))
  end.

(** The actions the main loop went through, in time order: each was
    recorded, after its dispatch, or skipped with its notice. *)
Definition handled (evs : list Event) : list ActionQueueItem :=
  omap (fun e => match e with
                 | LedgerSet a _ | LogSkipping a => Some a
                 | _ => None
                 end) evs.

(** A computation that only adds events, none of them a notification. *)
Definition silent {World A} (m : M World A) : Prop :=
  forall s r s', m s = (r, s') ->
    exists evs, events s' = (events s ++ evs)%list /\ notifications evs = [].

(** [updateData.turn] is truthy: a missing turn and the index [0] are
    not. *)
Definition newTurn (turn : option Z) : bool :=
  match turn with
  | None | Some 0 => false
  | Some _ => true
  end.

End RunShape.

(** * The canvas: tokens as the attack and movement systems see them *)
Module Canvas.

(** [actor.system.attributes]: [hp.value] and [ac.value], numbers. *)
Record Actor := mkActor {
  hpValue : float;
  acValue : float
}.

(** A token object of [canvas.tokens.placeables]: its id and name, its
    place, [document.disposition], [document.hidden] and its actor, if it
    has one. A token object is told from another by its id. *)
Record Placeable := mkPlaceable {
  p_id : string;
  p_name : string;
  p_x : Z;
  p_y : Z;
  disposition : Z;
  hidden : bool;
  p_actor : option Actor
}.

(** [t === token] *)
Definition same (t token : Placeable) : bool := String.eqb (p_id t) (p_id token).

(** [x || d] for a number [x]: [undefined], [0], [-0] and [NaN] are
    falsy. *)
Definition num_or (x : option float) (d : float) : float :=
  match x with
  | Some v => if PrimFloat.eqb v 0 || PrimFloat.is_nan v then d else v
  | None => d
  end.

(** [t?.actor?.system.attributes.hp.value] and the same for [ac]. *)
Definition hpOf (t : option Placeable) : option float :=
  hpValue <$> (t ≫= p_actor).

Definition acOf (t : option Placeable) : option float :=
  acValue <$> (t ≫= p_actor).

(** [t.actor?.system.attributes.hp.value <= 0]: [undefined <= 0] is
    [false]. *)
Definition dead (t : Placeable) : bool :=
  match hpOf (Some t) with
  | Some hp => PrimFloat.leb hp 0
  | None => false
  end.

(** [canvas.tokens.get(id)] *)
Definition tokensGet (placeables : list Placeable) (i : string) : option Placeable :=
  List.find (fun t => String.eqb (p_id t) i) placeables.

End Canvas.

(** * scripts/attack-system.js *)
Module Attack.
Import Queue Executor Canvas.

Section AttackSystem.

(** [canvas.grid.measureDistance], [canvas.tokens.placeables] and
    [game.user.isGM]. *)
Variable measureDistance : Placeable -> Placeable -> float.
Variable placeables : list Placeable.
Variable isGM : bool.

(** [getValidTargets(token)] *)
Definition getValidTargets (token : Placeable) : list Placeable :=
  let hostile := disposition token * -1 in
  List.filter (fun t =>
    if same t token then false
    else if negb (disposition t =? hostile) then false
    else if dead t then false
    else if hidden t && negb isGM then false
    else true) placeables.

(** The loop of [getNearestTarget], from the state [nearest],
    [minDistance]. *)
Fixpoint nearestFrom (token : Placeable) (targets : list Placeable)
    (nearest : option Placeable) (minDistance : float) : option Placeable :=
  match targets with
  | [] => nearest
  | target :: rest =>
      let distance := measureDistance token target in
      if (distance <? minDistance)%float
      then nearestFrom token rest (Some target) distance
      else nearestFrom token rest nearest minDistance
  end.

(** [getNearestTarget(token, targets)] *)
Definition getNearestTarget (token : Placeable) (targets : list Placeable)
  : option Placeable :=
  nearestFrom token targets None infinity.

(** The loop of [getFurthestTarget]. *)
Fixpoint furthestFrom (token : Placeable) (targets : list Placeable)
    (furthest : option Placeable) (maxDistance : float) : option Placeable :=
  match targets with
  | [] => furthest
  | target :: rest =>
      let distance := measureDistance token target in
      if (maxDistance <? distance)%float
      then furthestFrom token rest (Some target) distance
      else furthestFrom token rest furthest maxDistance
  end.

(** [getFurthestTarget(token, targets)] *)
Definition getFurthestTarget (token : Placeable) (targets : list Placeable)
  : option Placeable :=
  furthestFrom token targets None 0%float.

(** [getLowestHPTarget(targets)] *)
Definition getLowestHPTarget (targets : list Placeable) : option Placeable :=
  fold_left (fun lowest target =>
    let hp := num_or (hpOf (Some target)) infinity in
    let lowestHP := num_or (hpOf lowest) infinity in
    if (hp <? lowestHP)%float then Some target else lowest) targets None.

(** [getHighestHPTarget(targets)] *)
Definition getHighestHPTarget (targets : list Placeable) : option Placeable :=
  fold_left (fun highest target =>
    let hp := num_or (hpOf (Some target)) 0%float in
    let highestHP := num_or (hpOf highest) 0%float in
    if (highestHP <? hp)%float then Some target else highest) targets None.

(** [getLowestACTarget(targets)] *)
Definition getLowestACTarget (targets : list Placeable) : option Placeable :=
  fold_left (fun lowest target =>
    let ac := num_or (acOf (Some target)) infinity in
    let lowestAC := num_or (acOf lowest) infinity in
    if (ac <? lowestAC)%float then Some target else lowest) targets None.

(** [getHighestACTarget(targets)] *)
Definition getHighestACTarget (targets : list Placeable) : option Placeable :=
  fold_left (fun highest target =>
    let ac := num_or (acOf (Some target)) 0%float in
    let highestAC := num_or (acOf highest) 0%float in
    if (highestAC <? ac)%float then Some target else highest) targets None.

(** [selectByPriority(token, targets, priority)] *)
Definition selectByPriority (token : Placeable) (targets : list Placeable)
    (priority : string) : option Placeable :=
  if String.eqb priority "nearest" then getNearestTarget token targets
  else if String.eqb priority "furthest" then getFurthestTarget token targets
  else if String.eqb priority "lowestHP" then getLowestHPTarget targets
  else if String.eqb priority "highestHP" then getHighestHPTarget targets
  else if String.eqb priority "lowestAC" then getLowestACTarget targets
  else if String.eqb priority "highestAC" then getHighestACTarget targets
  else None.

(** The loop of [selectTarget] over the priorities. *)
Fixpoint firstByPriority (token : Placeable) (validTargets : list Placeable)
    (targetPriority : list string) : option Placeable :=
  match targetPriority with
  | [] => None
  | priority :: rest =>
      match selectByPriority token validTargets priority with
      | Some target => Some target
      | None => firstByPriority token validTargets rest
      end
  end.

(** [selectTarget(token, targetPriority)] *)
Definition selectTarget (token : Placeable) (targetPriority : list string)
  : option Placeable :=
  let validTargets := getValidTargets token in
  if (length validTargets =? 0)%nat then None
  else match firstByPriority token validTargets targetPriority with
       | Some target => Some target
       | None => head validTargets
       end.

(** The target [executeAttack] settles on: the token of [targetId] when
    one is given, else the choice of [selectTarget] when there are
    priorities, else none. *)
Definition chooseTarget (token : Placeable) (attackData : Payload)
  : option Placeable :=
  match truthy (targetId attackData) with
  | Some i => tokensGet placeables i
  | None =>
      if (0 <? length (targetPriority attackData))%nat
      then selectTarget token (targetPriority attackData)
      else None
  end.

(** Items and their rolls: [item.hasAttack], [item.hasDamage],
    [item.name], [item.rollAttack()] and [item.rollDamage()] with the
    total of the roll, [item.use()], and the text of a number in a
    template literal. *)
Variable World : Type.
Variable Item : Type.
Variable hasAttack : Item -> bool.
Variable hasDamage : Item -> bool.
Variable nameOf : Item -> string.
Variable rollAttack : Item -> World -> Res float * World.
Variable rollDamage : Item -> World -> Res float * World.
Variable use : Item -> World -> Res unit * World.
Variable showNumber : float -> string.

(** [executeStandardAttack(item, target)]: the fields [success], [type],
    [hit], [message] and [error] of what it returns. *)
Definition executeStandardAttack (item : Item) (target : Placeable) (w : World)
  : Res Outcome * World :=
  if hasAttack item then
    match rollAttack item w with
    | (Throw e, w1) => (Ok (failed (exn_message e)), w1)
    | (Ok total, w1) =>
        let targetAC := num_or (acOf (Some target)) 10%float in
        let hit := (targetAC <=? total)%float in
        if hit && hasDamage item then
          match rollDamage item w1 with
          | (Throw e, w2) => (Ok (failed (exn_message e)), w2)
          | (Ok damage, w2) =>
              (Ok (mkOutcome true (Some "attack") (Some true)
                     (Some ("Hit " ++ p_name target ++ " for "
                              ++ showNumber damage ++ " damage")) None), w2)
          end
        else
          (Ok (mkOutcome true (Some "attack") (Some false)
                 (Some ("Missed " ++ p_name target)) None), w1)
    end
  else
    match use item w with
    | (Throw e, w1) => (Ok (failed (exn_message e)), w1)
    | (Ok _, w1) =>
        (Ok (mkOutcome true (Some "item") None
               (Some ("Used " ++ nameOf item)) None), w1)
    end.

End AttackSystem.

(** One step of a search for the best target: [target] replaces [best]
    when its key is better. The two loops and the four [reduce] calls
    above are folds of such a step. *)
Definition pick (better : float -> float -> bool) (key : option Placeable -> float)
    (best : option Placeable) (target : Placeable) : option Placeable :=
  if better (key (Some target)) (key best) then Some target else best.

(** The distance from [token], [d] for no target. *)
Definition distanceOr (measureDistance : Placeable -> Placeable -> float)
    (token : Placeable) (d : float) (t : option Placeable) : float :=
  match t with
  | Some t => measureDistance token t
  | None => d
  end.

End Attack.

(** * The movement system *)
Module Movement.
Import Queue Executor Canvas.

(** A waypoint [{x, y}]. *)
Definition Point : Type := (Z * Z)%type.

(** ** Recording a path *)

(** The fields of a [MovementSystem], [previewGraphics] being the path
    that is drawn, if one is; and with them [clickListeners], the number
    of listeners that [canvas.stage] has for [click] which are bound
    copies of the system's [_onCanvasClick]. *)
Record Recorder := mkRecorder {
  recordingPath : bool;
  recordedWaypoints : list Point;
  recordingToken : option Placeable;
  previewGraphics : option (list Point);
  clickListeners : nat
}.

(** [new MovementSystem()], which registers nothing. *)
Definition newMovementSystem : Recorder := mkRecorder false [] None None 0.

(** [startRecording(token)]: the listener that
    [canvas.stage.on('click', this._onCanvasClick.bind(this))] registers
    is a new bound copy of the method, one more at each call. *)
Definition startRecording (token : Placeable) (r : Recorder) : Recorder :=
  mkRecorder true [(p_x token, p_y token)] (Some token) (previewGraphics r)
             (S (clickListeners r)).

(** [clearPreview()] *)
Definition clearPreview (r : Recorder) : Recorder :=
  match previewGraphics r with
  | Some _ => mkRecorder (recordingPath r) (recordedWaypoints r) (recordingToken r) None
                         (clickListeners r)
  | None => r
  end.

(** [drawPreview()] *)
Definition drawPreview (r : Recorder) : Recorder :=
  let r1 := clearPreview r in
  if (length (recordedWaypoints r1) <? 2)%nat then r1
  else mkRecorder (recordingPath r1) (recordedWaypoints r1) (recordingToken r1)
                  (Some (recordedWaypoints r1)) (clickListeners r1).

(** [_onCanvasClick(event)], for the position [pos] of the click and
    [canvas.grid.getSnappedPosition]. *)
Definition onCanvasClick (getSnappedPosition : Point -> Point) (pos : Point)
    (r : Recorder) : Recorder :=
  if negb (recordingPath r) then r
  else
    let snapped := getSnappedPosition pos in
    drawPreview (mkRecorder (recordingPath r) (recordedWaypoints r ++ [snapped])%list
                            (recordingToken r) (previewGraphics r) (clickListeners r)).

(** A click on the stage: every listener that is registered is called
    with it, one after the other. *)
Definition canvasClick (getSnappedPosition : Point -> Point) (pos : Point)
    (r : Recorder) : Recorder :=
  Nat.iter (clickListeners r) (onCanvasClick getSnappedPosition pos) r.

(** [stopRecording()]: what it returns, [None] for [null].
    [canvas.stage.off('click', this._onCanvasClick)] is given the method
    itself, which is none of the bound copies that were registered: no
    listener is removed. *)
Definition stopRecording (r : Recorder) : option (list Point) * Recorder :=
  if negb (recordingPath r) then (None, r)
  else
    let waypoints := recordedWaypoints r in
    (Some waypoints,
     clearPreview (mkRecorder false [] None (previewGraphics r) (clickListeners r))).

(** [isRecording()] *)
Definition isRecording (r : Recorder) : bool := recordingPath r.

(** ** Moving *)

Section MovementSystem.

(** [canvas.tokens.placeables], [canvas.grid.measureDistance],
    [canvas.grid.size] and [canvas.dimensions.distance]; the walking
    speed [token.actor?.system.attributes.movement.walk]; and
    [token.document.update({x, y}, {animate: true})] on a world. *)
Variable placeables : list Placeable.
Variable measureDistance : Placeable -> Placeable -> float.
Variable gridSize : float.
Variable gridDistance : float.
Variable walk : Placeable -> option float.
Variable World : Type.
Variable update : Placeable -> Point -> World -> Res unit * World.

(** The world and the places [animateMovement] was called with, in time
    order. *)
Definition MSt : Type := (World * list Point)%type.

(** [animateMovement(token, destination)] *)
Definition animateMovement (token : Placeable) (destination : Point) (s : MSt)
  : Res unit * MSt :=
  let '(r, w) := update token destination s.1 in
  (r, (w, (s.2 ++ [destination])%list)).

(** The loop of [moveAlongPath] over the waypoints that are left. *)
Fixpoint moveEach (token : Placeable) (waypoints : list Point) (s : MSt)
  : Res unit * MSt :=
  match waypoints with
  | [] => (Ok tt, s)
  | waypoint :: rest =>
      match animateMovement token waypoint s with
      | (Ok _, s1) => moveEach token rest s1
      | (Throw e, s1) => (Throw e, s1)
      end
  end.

(** [moveAlongPath(token, waypoints)]: the loop starts at index [1]. *)
Definition moveAlongPath (token : Placeable) (waypoints : list Point) (s : MSt)
  : Res unit * MSt :=
  moveEach token (tail waypoints) s.

(** [moveToDestination(token, destination)] *)
Definition moveToDestination (token : Placeable) (destination : Point) (s : MSt)
  : Res unit * MSt :=
  animateMovement token destination s.

(** [calculateDistance(token, destination)] *)
Definition calculateDistance (token : Placeable) (destination : Point) : float :=
  let dx := (floatOfZ destination.1 - floatOfZ (p_x token))%float in
  let dy := (floatOfZ destination.2 - floatOfZ (p_y token))%float in
  (PrimFloat.sqrt (dx * dx + dy * dy) / gridSize * gridDistance)%float.

(** The loop of [findNearestEnemy], from the state [nearest],
    [minDistance]. *)
Fixpoint nearestEnemyFrom (token : Placeable) (tokens : list Placeable)
    (nearest : option Placeable) (minDistance : float) : option Placeable :=
  match tokens with
  | [] => nearest
  | t :: rest =>
      let hostile := disposition token * -1 in
      if same t token then nearestEnemyFrom token rest nearest minDistance
      else if negb (disposition t =? hostile)
      then nearestEnemyFrom token rest nearest minDistance
      else if dead t then nearestEnemyFrom token rest nearest minDistance
      else
        let distance := measureDistance token t in
        if (distance <? minDistance)%float
        then nearestEnemyFrom token rest (Some t) distance
        else nearestEnemyFrom token rest nearest minDistance
  end.

(** [findNearestEnemy(token)] *)
Definition findNearestEnemy (token : Placeable) : option Point :=
  match nearestEnemyFrom token placeables None infinity with
  | Some nearest => Some (p_x nearest, p_y nearest)
  | None => None
  end.

(** The destination [executeMovement] settles on. *)
Definition destinationOf (token : Placeable) (movementData : Payload)
  : option Point :=
  if bool_decide (targetType movementData = Some "waypoint")
     && (0 <? length (waypoints movementData))%nat
  then last (waypoints movementData)
  else if bool_decide (targetType movementData = Some "nearestEnemy")
  then findNearestEnemy token
  else match truthy (targetId movementData) with
       | Some i =>
           match tokensGet placeables i with
           | Some target => Some (p_x target, p_y target)
           | None => None
           end
       | None => None
       end.

(** [maxDistance || tokenSpeed] *)
Definition rangeOf (maxDistance : option Z) (tokenSpeed : float) : float :=
  match maxDistance with
  | Some 0 | None => tokenSpeed
  | Some z => floatOfZ z
  end.

(** [executeMovement(token, movementData)] *)
Definition executeMovement (token : Placeable) (movementData : Payload) (s : MSt)
  : Res Outcome * MSt :=
  match destinationOf token movementData with
  | None => (Ok (failed "No valid destination"), s)
  | Some destination =>
      let tooFar :=
        match maxDistance movementData with
        | Some 0 | None => false
        | Some _ =>
            let distance := calculateDistance token destination in
            let tokenSpeed := num_or (walk token) 30%float in
            (rangeOf (maxDistance movementData) tokenSpeed <? distance)%float
        end in
      if tooFar then (Ok (failed "Destination exceeds movement range"), s)
      else
        match (if (1 <? length (waypoints movementData))%nat
               then moveAlongPath token (waypoints movementData) s
               else moveToDestination token destination s) with
        | (Ok _, s1) =>
            (Ok (mkOutcome true (Some "movement") None
                   (Some ("Moved to " ++ numberText (Some destination.1) ++ ", "
                            ++ numberText (Some destination.2))) None), s1)
        | (Throw e, s1) => (Ok (failed (exn_message e)), s1)
        end
  end.

End MovementSystem.

End Movement.

(** * The initiative roller *)
Module Initiative.
Import Executor.

(** A combatant: its id and name, its initiative ([None] for [null]),
    the id of [token?.object] if it has one, and whether the user owns
    it. *)
Record Combatant := mkCombatant {
  c_id : string;
  c_name : string;
  initiative : option float;
  c_token : option string;
  c_isOwner : bool
}.

(** What the roller does that can be seen: the batch update it asks for,
    the sound, its notification and what it prints. *)
Inductive Event :=
| LogAlreadyRolling
| Update (updates : list (string * float))
| PlaySound
| NotifyRolled (count : nat)
| ConsoleError (e : Exn).

Section Roller.

(** Rolls: [combatant.getInitiativeRoll()], and [roll.evaluate()] with
    the [total] of the roll; [combat.updateEmbeddedDocuments]; the
    [enableSound] setting; the token manager, if there is one, with its
    [isAutoInitEnabled]; [game.user.isGM]. *)
Variable World : Type.
Variable Roll : Type.
Variable getInitiativeRoll : Combatant -> World -> Res (option Roll) * World.
Variable evaluate : Roll -> World -> Res float * World.
Variable updateEmbeddedDocuments : list (string * float) -> World -> Res unit * World.
Variable enableSound : bool.
Variable tokenManager : option (string -> bool).
Variable isGM : bool.

(** The roller ([rolling]) and what it acts on. *)
Record RSt := mkRSt {
  rolling : bool;
  rworld : World;
  revents : list Event
}.

(** [rollForCombatant(combatant)]: [None] is [null]. *)
Definition rollForCombatant (combatant : option Combatant) (w : World)
  : option float * World :=
  match combatant with
  | None => (None, w)
  | Some c =>
      match initiative c with
      | Some i => (Some i, w)
      | None =>
          match getInitiativeRoll c w with
          | (Throw _, w1) => (None, w1)
          | (Ok None, w1) => (None, w1)
          | (Ok (Some roll), w1) =>
              match evaluate roll w1 with
              | (Throw _, w2) => (None, w2)
              | (Ok total, w2) => (Some total, w2)
              end
          end
      end
  end.

(** The loop of [rollForMultipleCombatants] over the combatants that are
    left, with the updates collected so far. *)
Fixpoint rollEach (combatants : list Combatant) (updates : list (string * float))
    (w : World) : list (string * float) * World :=
  match combatants with
  | [] => (updates, w)
  | combatant :: rest =>
      match initiative combatant with
      | Some _ => rollEach rest updates w
      | None =>
          match rollForCombatant (Some combatant) w with
          | (Some i, w1) => rollEach rest (updates ++ [(c_id combatant, i)])%list w1
          | (None, w1) => rollEach rest updates w1
          end
      end
  end.

(** [rollForMultipleCombatants(combatants, combat)]; the pauses between
    rolls have no effect on the state. *)
Definition rollForMultipleCombatants (combatants : list Combatant) (s : RSt) : RSt :=
  if rolling s then mkRSt true (rworld s) (revents s ++ [LogAlreadyRolling])%list
  else
    let '(updates, w1) := rollEach combatants [] (rworld s) in
    if (0 <? length updates)%nat then
      match updateEmbeddedDocuments updates w1 with
      | (Ok _, w2) =>
          mkRSt false w2
                (revents s ++ [Update updates]
                   ++ (if enableSound then [PlaySound] else [])
                   ++ [NotifyRolled (length updates)])%list
      | (Throw e, w2) =>
          mkRSt false w2 (revents s ++ [Update updates; ConsoleError e])%list
      end
    else mkRSt false w1 (revents s).

(** [getAutoRollCombatants(combat)] for the combatants of [combat]. *)
Definition getAutoRollCombatants (combat : option (list Combatant))
  : list Combatant :=
  match combat with
  | None => []
  | Some combatants =>
      match tokenManager with
      | None => []
      | Some isAutoInitEnabled =>
          List.filter (fun combatant =>
            match initiative combatant with
            | Some _ => false
            | None =>
                match c_token combatant with
                | None => false
                | Some token =>
                    let hasAutoInit := isAutoInitEnabled token in
                    let hasPermission := c_isOwner combatant || isGM in
                    hasAutoInit && hasPermission
                end
            end) combatants
      end
  end.

End Roller.

Arguments mkRSt {World} _ _ _.
Arguments rolling {World} _.
Arguments rworld {World} _.
Arguments revents {World} _.

(** The updates asked for, in time order. *)
Definition batches (evs : list Event) : list (list (string * float)) :=
  omap (fun e => match e with Update u => Some u | _ => None end) evs.

End Initiative.

(** * More tokens and actions *)
Module MoreFixtures.
Import Queue Executor Fixtures Canvas.

(** A second token, which has no queue in [stored]. *)
Definition sprite : Token := mkToken "tok2" "Sprite" (Some "actor2") true.

(** A spell that wants a first-level slot. *)
Definition missile : ActionQueueItem :=
  mkItem "Z" ActionType.SPELL 1 true "Magic Missile" ""
         (mkConditions ConditionType.RESOURCE_AVAILABLE (Some "spell-slot-1"))
         emptyPayload None None.

(** A condition type without a case in [shouldExecute]. *)
Definition onSave : ActionQueueItem :=
  mkItem "V" ActionType.END_TURN 2 true "After the save" ""
         (mkConditions ConditionType.SAVE_SUCCESS (Some "dex")) emptyPayload
         None None.

(** A canvas: the hero and an ally, and on the other side a corpse, a
    hidden wolf, a crate, which has no actor, and an orc. *)
Definition hero : Placeable :=
  mkPlaceable "hero" "Hero" 0 0 1 false (Some (mkActor 20 15)).
Definition ally : Placeable :=
  mkPlaceable "ally" "Ally" 0 100 1 false (Some (mkActor 12 12)).
Definition corpse : Placeable :=
  mkPlaceable "corpse" "Corpse" 50 0 (-1) false (Some (mkActor 0 10)).
Definition wolf : Placeable :=
  mkPlaceable "wolf" "Wolf" 100 0 (-1) true (Some (mkActor 7 11)).
Definition crate : Placeable :=
  mkPlaceable "crate" "Crate" 200 0 (-1) false None.
Definition orc : Placeable :=
  mkPlaceable "orc" "Orc" 300 0 (-1) false (Some (mkActor 15 13)).

Definition testCanvas : list Placeable := [hero; corpse; wolf; crate; orc; ally].

(** Five feet for a square of a hundred pixels, along the axes. *)
Definition testDistance (a b : Placeable) : float :=
  (floatOfZ (Z.abs (p_x b - p_x a) + Z.abs (p_y b - p_y a)) / 100 * 5)%float.

(** A world that records nothing, and an update that fails on the
    place [(666, 0)]. *)
Definition testUpdate (token : Placeable) (p : Z * Z) (w : unit)
  : Res unit * unit :=
  if (p.1 =? 666) then (Throw (Error "blocked"), w) else (Ok tt, w).

(** Combatants: the orc has its initiative, the ghost has no token, the
    wolf's dice throw and the mute's roll cannot be made. *)
Definition fighters : list Initiative.Combatant :=
  [Initiative.mkCombatant "c1" "Hero" None (Some "hero") true;
   Initiative.mkCombatant "c2" "Orc" (Some 17%float) (Some "orc") false;
   Initiative.mkCombatant "c3" "Ghost" None None true;
   Initiative.mkCombatant "c4" "Wolf" None (Some "wolf") false;
   Initiative.mkCombatant "c5" "Mute" None (Some "ally") true].

Definition testRoll (c : Initiative.Combatant) (w : unit)
  : Res (option float) * unit :=
  if String.eqb (Initiative.c_id c) "c5" then (Ok None, w)
  else if String.eqb (Initiative.c_id c) "c4" then (Throw (Error "no dice"), w)
  else (Ok (Some 12%float), w).

End MoreFixtures.

(** * Properties of the queue manager *)
Module QueueFacts.
Import Queue.
Local Open Scope qm_scope.

Lemma Forall_sublist {A} (P : A -> Prop) (l1 l2 : list A) :
  l1 `sublist_of` l2 -> Forall P l2 -> Forall P l1.
Proof.
  intros Hs Hl. apply Forall_forall. intros x Hx.
  rewrite Forall_forall in Hl. apply Hl. by eapply elem_of_sublist.
Qed.

Lemma StronglySorted_sublist {A} (R : relation A) (l1 l2 : list A) :
  l1 `sublist_of` l2 -> StronglySorted R l2 -> StronglySorted R l1.
Proof.
  induction 1 as [|x l1 l2 Hs IH|x l1 l2 Hs IH]; intros Hl.
  - constructor.
  - apply StronglySorted_inv in Hl as [Hl Hx].
    constructor; [by apply IH | by eapply Forall_sublist].
  - apply StronglySorted_inv in Hl as [Hl _]. by apply IH.
Qed.

Lemma truthy_idem o : truthy (truthy o) = truthy o.
Proof.
  destruct o as [s|]; simpl; [|done].
  destruct (String.eqb s "") eqn:E; simpl; [done|]. by rewrite E.
Qed.

Lemma or_default_idem o d : or_default (Some (or_default o d)) d = or_default o d.
Proof.
  unfold or_default at 1. simpl.
  destruct (String.eqb (or_default o d) "") eqn:E; [|done].
  apply String.eqb_eq in E. unfold or_default in *.
  destruct (truthy o) eqn:T; [|done].
  destruct o as [x|]; simpl in T; [|done].
  destruct (String.eqb x "") eqn:E'; [done|].
  injection T as <-. subst x. done.
Qed.

(** Reading back what [toObject] wrote of a constructed item changes
    nothing but, possibly, the id. *)
Lemma construct_toObject i j d :
  construct j (toObject (construct i d)) = set_id j (construct i d).
Proof.
  unfold construct, toObject, set_id; simpl.
  rewrite !or_default_idem, !truthy_idem.
  by destruct (raw_enabled d) as [[]|].
Qed.

Lemma content_set_id i a : content (set_id i a) = content a.
Proof. done. Qed.

Lemma content_set_order o a : content (set_order o a) = content a.
Proof. done. Qed.

Lemma content_construct i j d : content (construct i d) = content (construct j d).
Proof. done. Qed.

Section Facts.

Variable randomID : nat -> string.
Variable JsonText : Type.
Variable stringify : ExportDoc -> JsonText.
Variable parse : JsonText -> option ImportData.

Abbreviation fromObject := (fromObject randomID).
Abbreviation getQueue := (getQueue randomID).
Abbreviation reassign := (reassign randomID).
Abbreviation importQueue := (importQueue randomID JsonText parse).
Abbreviation exportQueue := (exportQueue randomID JsonText stringify).
Abbreviation runMutation := (runMutation randomID JsonText parse).

(** The constructor only draws ids: the flags are untouched, and the
    item is [construct] at some id. *)
Lemma fromObject_spec d s a s' :
  fromObject d s = (a, s') ->
  (exists i, a = construct i d) /\ flags s' = flags s /\ (drawn s <= drawn s')%nat.
Proof.
  unfold Queue.fromObject, qbind, qret, freshID.
  destruct (truthy (raw_id d)); intros [= <- <-]; simpl;
    (split; [by eexists|]); split; (done || lia).
Qed.

Lemma mapQ_fromObject_spec l : forall s l' s',
  mapQ fromObject l s = (l', s') ->
  flags s' = flags s /\ (drawn s <= drawn s')%nat /\
  Forall2 (fun d a => exists i, a = construct i d) l l'.
Proof.
  induction l as [|d l IH]; intros s l' s'; simpl.
  - intros [= <- <-]. repeat split; [lia | constructor].
  - unfold qbind, qret.
    destruct (fromObject d s) as [a s1] eqn:E1.
    destruct (mapQ fromObject l s1) as [l1 s2] eqn:E2.
    intros [= <- <-].
    apply fromObject_spec in E1 as (Hi & F1 & D1).
    apply IH in E2 as (F2 & D2 & H2).
    repeat split; [congruence | lia |].
    by constructor.
Qed.

Lemma getQueue_spec t s q s' :
  getQueue t s = (q, s') ->
  flags s' = flags s /\ (drawn s <= drawn s')%nat /\
  Forall2 (fun d a => exists i, a = construct i d)
          (default [] (env_actions <$> flags s !! tok_id t)) q.
Proof.
  unfold Queue.getQueue, qbind, getFlag, qret.
  destruct (flags s !! tok_id t) as [e|]; simpl.
  - apply mapQ_fromObject_spec.
  - intros [= <- <-]. repeat split; [lia | constructor].
Qed.

(** The [forEach] of [importQueue] draws one id per element, in order,
    and numbers the elements from [base]. *)
Lemma reassign_spec l : forall base s l' s',
  reassign base l s = (l', s') ->
  flags s' = flags s /\
  drawn s' = (drawn s + length l)%nat /\
  length l' = length l /\
  forall (k : nat) a', l' !! k = Some a' ->
    exists a, l !! k = Some a /\
      a' = set_order (base + Z.of_nat k)
             (set_id (randomID (drawn s + k)) a).
Proof.
  induction l as [|a l IH]; intros base s l' s'; simpl.
  - intros [= <- <-]. repeat split; [lia | intros k a' H; done].
  - unfold qbind, qret, freshID.
    destruct (reassign (base + 1) l _) as [l1 s1] eqn:E.
    intros [= <- <-].
    apply IH in E as (F & D & L & H). simpl in *.
    repeat split; [done | lia | lia |].
    intros [|k] a' Hk; simpl in Hk.
    + injection Hk as <-. exists a. split; [done|].
      by rewrite Z.add_0_r, Nat.add_0_r.
    + destruct (H k a' Hk) as (a0 & Ha0 & ->).
      exists a0. split; [done|].
      f_equal; [lia | f_equal; f_equal; lia].
Qed.

Lemma setQueue_spec t q s :
  setQueue t q s =
    (true, mkQSt (<[tok_id t := mkEnvelope "1.0.0" true (map toObject q)]> (flags s))
                 (drawn s)).
Proof. done. Qed.

Lemma isQueueEnabled_setQueue t q s :
  (isQueueEnabled t (setQueue t q s).2).1 = true.
Proof.
  rewrite setQueue_spec. unfold isQueueEnabled, qbind, getFlag, qret; simpl.
  by rewrite lookup_insert_eq.
Qed.

(** ** Sorting by order *)

Lemma insertByOrder_Forall (P : ActionQueueItem -> Prop) a l :
  Forall P (insertByOrder a l) <-> P a /\ Forall P l.
Proof.
  induction l as [|b l IH]; simpl.
  - rewrite Forall_singleton, Forall_nil. tauto.
  - destruct (a_order a <=? a_order b)%Z.
    + by rewrite Forall_cons.
    + rewrite !Forall_cons, IH. tauto.
Qed.

Lemma insertByOrder_sorted a l :
  StronglySorted orderLe l -> StronglySorted orderLe (insertByOrder a l).
Proof.
  induction 1 as [|b l Hl IH Hb]; simpl.
  - repeat constructor.
  - destruct (a_order a <=? a_order b)%Z eqn:E.
    + apply Z.leb_le in E. constructor; [by constructor|].
      constructor; [done|].
      eapply Forall_impl; [exact Hb|]. unfold orderLe. intros; simpl in *. lia.
    + apply Z.leb_gt in E. constructor; [done|].
      apply insertByOrder_Forall. split; [unfold orderLe; lia | done].
Qed.

Lemma sortByOrder_sorted l : StronglySorted orderLe (sortByOrder l).
Proof.
  induction l as [|a l IH]; simpl; [constructor | by apply insertByOrder_sorted].
Qed.

Lemma sortByOrder_Forall (P : ActionQueueItem -> Prop) l :
  Forall P (sortByOrder l) <-> Forall P l.
Proof.
  induction l as [|a l IH]; simpl; [done|].
  by rewrite insertByOrder_Forall, Forall_cons, IH.
Qed.

Lemma insertByOrder_Permutation a l : insertByOrder a l ≡ₚ a :: l.
Proof.
  induction l as [|b l IH]; simpl; [done|].
  destruct (a_order a <=? a_order b)%Z; [done|].
  rewrite IH. apply Permutation_swap.
Qed.

Lemma sortByOrder_Permutation l : sortByOrder l ≡ₚ l.
Proof.
  induction l as [|a l IH]; simpl; [done|].
  by rewrite insertByOrder_Permutation, IH.
Qed.

(** The sort is stable: the actions of one order keep their places
    among themselves. *)
Lemma insertByOrder_stable o a l :
  StronglySorted orderLe l ->
  filter (fun x => a_order x = o) (insertByOrder a l)
    = filter (fun x => a_order x = o) (a :: l).
Proof.
  induction 1 as [|b l Hl IH Hb]; simpl; [done|].
  destruct (a_order a <=? a_order b)%Z eqn:E; [done|].
  apply Z.leb_gt in E.
  rewrite (filter_cons _ b (insertByOrder a l)), IH.
  rewrite !filter_cons.
  destruct (decide (a_order b = o)) as [Eb|Nb],
           (decide (a_order a = o)) as [Ea|Na]; try done.
  lia.
Qed.

Lemma sortByOrder_stable o l :
  filter (fun x => a_order x = o) (sortByOrder l)
    = filter (fun x => a_order x = o) l.
Proof.
  induction l as [|a l IH]; simpl; [done|].
  rewrite insertByOrder_stable by apply sortByOrder_sorted.
  by rewrite !filter_cons, IH.
Qed.

(** [getEnabledActions] reads the queue as [getQueue] does and returns
    its enabled actions, sorted by order. *)
Lemma getEnabledActions_spec t s :
  let acts := (getEnabledActions randomID t s).1 in
  (getEnabledActions randomID t s).2 = (getQueue t s).2 /\
  acts = filter (fun a => a_enabled a = true) (sortByOrder (getQueue t s).1) /\
  StronglySorted orderLe acts /\
  Forall (fun a => a_enabled a = true) acts /\
  acts ⊆ (getQueue t s).1.
Proof.
  unfold getEnabledActions, getSortedActions, qbind, qret.
  destruct (getQueue t s) as [q s1]. simpl.
  split; [done|]. split; [done|]. split; [|split].
  - eapply StronglySorted_sublist; [apply sublist_filter; apply _ | apply sortByOrder_sorted].
  - apply Forall_forall. by intros a [Ha _]%list_elem_of_filter.
  - intros a [_ Ha]%list_elem_of_filter.
    by rewrite sortByOrder_Permutation in Ha.
Qed.

Lemma isQueueEnabled_flags t s s' :
  flags s' = flags s -> (isQueueEnabled t s').1 = (isQueueEnabled t s).1.
Proof.
  intros E. unfold isQueueEnabled, qbind, getFlag, qret; simpl. by rewrite E.
Qed.

(** A mutation either reaches [setQueue] or returns [false] with the
    flags as they were. *)
Lemma runMutation_cases (m : Mutation JsonText) t s :
  (exists q s1, runMutation m t s = setQueue t q s1) \/
  (unconditional JsonText m = false /\
   exists s1, runMutation m t s = (false, s1) /\ flags s1 = flags s).
Proof.
  destruct m as [a|i|i u|ids|i| |j b]; simpl.
  - left. unfold addAction, qbind.
    destruct (getQueue t s) as [q s1]. by eexists _, _.
  - left. unfold removeAction, qbind.
    destruct (getQueue t s) as [q s1]. by eexists _, _.
  - unfold updateAction, qbind.
    destruct (getQueue t s) as [q s1] eqn:E.
    apply getQueue_spec in E as (F & _ & _).
    destruct (findIndex i q); [left; by eexists _, _ | right].
    split; [done|]. by exists s1.
  - left. unfold reorderActions, qbind.
    destruct (getQueue t s) as [q s1].
    destruct (reorderLoop _ _ _ _) as [q' refs]. by eexists _, _.
  - unfold duplicateAction, qbind.
    destruct (getQueue t s) as [q s1] eqn:E.
    apply getQueue_spec in E as (F & _ & _).
    destruct (find i q) as [a|]; [left | right].
    + destruct (Queue.fromObject randomID (toObject a) s1) as [d s2].
      unfold freshID. by eexists _, _.
    + split; [done|]. by exists s1.
  - left. by eexists _, _.
  - unfold Queue.importQueue.
    destruct (parse j) as [[[acts|]]|]; simpl;
      [ | right; split; [done|]; by exists s ..].
    left. unfold qbind.
    destruct (mapQ _ acts s) as [imp s1].
    destruct b.
    + destruct (getQueue t s1) as [q s2].
      destruct (reassign _ imp s2) as [imp' s3]. by eexists _, _.
    + destruct (reassign 0 imp s1) as [q s2]. by eexists _, _.
Qed.

(** C10: every queue mutation that stores through [setQueue] writes an
    envelope whose [enabled] is [true]: after a mutation the queue is
    enabled if the mutation reached [setQueue] (it returned [true]) and is
    as it was if not, and [addAction], [removeAction], [reorderActions] and
    [clearQueue] always reach [setQueue]. So on a queue that
    [setQueueEnabled(token, false)] has disabled, [isQueueEnabled] after
    the mutation is the mutation's own result. *)
Theorem setQueue_mutations_reenable (m : Mutation JsonText) (t : Token) (s : QSt) :
  let r := runMutation m t s in
  let s0 := (setQueueEnabled t false s).2 in
  let r0 := runMutation m t s0 in
  (isQueueEnabled t r.2).1 = r.1 || (isQueueEnabled t s).1 /\
  implb (unconditional JsonText m) r.1 = true /\
  (isQueueEnabled t s0).1 = false /\
  (isQueueEnabled t r0.2).1 = r0.1.
Proof.
  intros r s0 r0.
  assert (G : forall s', (isQueueEnabled t (runMutation m t s').2).1
                         = (runMutation m t s').1 || (isQueueEnabled t s').1 /\
                         implb (unconditional JsonText m) (runMutation m t s').1 = true).
  { intros s'.
    destruct (runMutation_cases m t s') as [(q & s1 & E) | (U & s1 & E & F)];
      rewrite E.
    - split; [apply isQueueEnabled_setQueue | by destruct (unconditional JsonText m)].
    - rewrite U. split; [|done].
      change (false, s1).2 with s1.
      by rewrite (isQueueEnabled_flags t s' s1 F). }
  assert (H0 : (isQueueEnabled t s0).1 = false).
  { unfold s0, setQueueEnabled, isQueueEnabled, qbind, getFlag, setFlag, qret.
    simpl. by rewrite lookup_insert_eq. }
  destruct (G s) as [G1 G2]. destruct (G s0) as [G3 _].
  split; [done|]. split; [done|]. split; [done|].
  unfold r0. rewrite G3, H0. by destruct (runMutation m t s0).1.
Qed.

(** C8: [importQueue] on a payload whose [actions] is an array. With
    [append = false] the stored queue is exactly the payload's actions,
    in payload order, the [k]-th with the id of a [randomID()] call made
    for it during the import (the calls [c], [c + 1], ...) and with
    [order = k]; nothing of it depends on what was stored before. With
    [append = true] the existing queue [old] is kept in front and the
    [k]-th imported action gets its own [randomID()] call and
    [order = old.length + k]. In both modes an id that [randomID] does
    not return is not the id of an imported action. *)
Theorem importQueue_fresh_ids_dense_orders t text acts s :
  parse text = Some (mkImport (Some acts)) ->
  (exists Q s' c,
     importQueue t text false s = (true, s') /\
     flags s' = <[tok_id t := mkEnvelope "1.0.0" true (map toObject Q)]> (flags s) /\
     (drawn s <= c)%nat /\
     length Q = length acts /\
     (forall (k : nat) a, Q !! k = Some a ->
        exists d, acts !! k = Some d /\
          a = set_order (Z.of_nat k) (construct (randomID (c + k)) d)) /\
     (forall used : list string,
        (forall n, (drawn s <= n)%nat -> randomID n ∉ used) ->
        Forall (fun a => a_id a ∉ used) Q)) /\
  (exists old New s' c,
     importQueue t text true s = (true, s') /\
     flags s' = <[tok_id t := mkEnvelope "1.0.0" true (map toObject (old ++ New))]>
                  (flags s) /\
     Forall2 (fun d a => exists i, a = construct i d)
             (default [] (env_actions <$> flags s !! tok_id t)) old /\
     (drawn s <= c)%nat /\
     length New = length acts /\
     (forall (k : nat) a, New !! k = Some a ->
        exists d, acts !! k = Some d /\
          a = set_order (Z.of_nat (length old) + Z.of_nat k)
                (construct (randomID (c + k)) d)) /\
     (forall used : list string,
        (forall n, (drawn s <= n)%nat -> randomID n ∉ used) ->
        Forall (fun a => a_id a ∉ used) New)).
Proof.
  intros Hp. split.
  - unfold Queue.importQueue. rewrite Hp. simpl. unfold qbind.
    destruct (mapQ _ acts s) as [imp s1] eqn:E1.
    destruct (reassign 0 imp s1) as [Q s2] eqn:E2.
    apply mapQ_fromObject_spec in E1 as (F1 & D1 & H1).
    apply reassign_spec in E2 as (F2 & D2 & L2 & H2).
    assert (HQ : forall (k : nat) a, Q !! k = Some a ->
              exists d, acts !! k = Some d /\
                a = set_order (Z.of_nat k) (construct (randomID (drawn s1 + k)) d)).
    { intros k a Hk. destruct (H2 k a Hk) as (a0 & Ha0 & ->).
      destruct (Forall2_lookup_r _ _ _ _ _ H1 Ha0) as (d & Hd & i & ->).
      by exists d. }
    exists Q, (mkQSt (<[tok_id t := mkEnvelope "1.0.0" true (map toObject Q)]> (flags s2))
                     (drawn s2)), (drawn s1).
    repeat split; try done.
    + simpl. by rewrite F2, F1.
    + rewrite L2. symmetry. by eapply Forall2_length.
    + intros used Hu. apply Forall_lookup. intros k a Hk.
      destruct (HQ k a Hk) as (d & _ & ->). simpl. apply Hu. lia.
  - unfold Queue.importQueue. rewrite Hp. simpl. unfold qbind.
    destruct (mapQ _ acts s) as [imp s1] eqn:E1.
    destruct (getQueue t s1) as [old s2] eqn:E0.
    destruct (reassign _ imp s2) as [New s3] eqn:E2.
    apply mapQ_fromObject_spec in E1 as (F1 & D1 & H1).
    apply getQueue_spec in E0 as (F0 & D0 & H0).
    apply reassign_spec in E2 as (F2 & D2 & L2 & H2).
    assert (HN : forall (k : nat) a, New !! k = Some a ->
              exists d, acts !! k = Some d /\
                a = set_order (Z.of_nat (length old) + Z.of_nat k)
                      (construct (randomID (drawn s2 + k)) d)).
    { intros k a Hk. destruct (H2 k a Hk) as (a0 & Ha0 & ->).
      destruct (Forall2_lookup_r _ _ _ _ _ H1 Ha0) as (d & Hd & i & ->).
      by exists d. }
    exists old, New,
      (mkQSt (<[tok_id t := mkEnvelope "1.0.0" true (map toObject (old ++ New))]>
                (flags s3)) (drawn s3)), (drawn s2).
    repeat split; try done.
    + simpl. by rewrite F2, F0, F1.
    + by rewrite <- F1.
    + lia.
    + rewrite L2. symmetry. by eapply Forall2_length.
    + intros used Hu. apply Forall_lookup. intros k a Hk.
      destruct (HN k a Hk) as (d & _ & ->). simpl. apply Hu. lia.
Qed.

Lemma contentOf_toObject_construct i d :
  contentOf (toObject (construct i d)) = content (construct i d).
Proof. unfold contentOf. by rewrite construct_toObject. Qed.

Lemma constructed_content ds : forall q,
  Forall2 (fun d a => exists i, a = construct i d) ds q ->
  map content q = map contentOf ds.
Proof.
  induction ds as [|d ds IH]; intros q H; inversion H; subst; [done|].
  destruct H2 as (i & ->). simpl. by rewrite (IH _ H4).
Qed.

Lemma constructed_normal ds : forall q,
  Forall2 (fun d a => exists i, a = construct i d) ds q ->
  map contentOf (map toObject q) = map content q.
Proof.
  induction ds as [|d ds IH]; intros q H; inversion H; subst; [done|].
  destruct H2 as (i & ->). simpl.
  by rewrite contentOf_toObject_construct, (IH _ H4).
Qed.

Lemma reassign_content l : forall base s,
  map content (reassign base l s).1 = map content l /\
  map contentOf (map toObject (reassign base l s).1)
    = map contentOf (map toObject l).
Proof.
  induction l as [|a l IH]; intros base s; simpl; [done|].
  unfold qbind, qret, freshID.
  specialize (IH (base + 1) (mkQSt (flags s) (S (drawn s)))).
  destruct (reassign (base + 1) l _) as [l1 s1]. simpl in *.
  destruct IH as [-> ->]. done.
Qed.

(** An import in replace mode, into any token and in any state: the
    stored queue is the payload's, item by item, whatever the token had
    before. *)
Lemma importQueue_replace_content t text acts s :
  parse text = Some (mkImport (Some acts)) ->
  (importQueue t text false s).1 = true /\
  map content (getQueue t (importQueue t text false s).2).1 = map contentOf acts /\
  forall t', tok_id t' <> tok_id t ->
    flags (importQueue t text false s).2 !! tok_id t' = flags s !! tok_id t'.
Proof.
  intros Hp. unfold Queue.importQueue. rewrite Hp. simpl. unfold qbind.
  destruct (mapQ _ acts s) as [imp s2] eqn:E1.
  pose proof (reassign_content imp 0 s2) as [R1 R2].
  destruct (reassign 0 imp s2) as [Q s3] eqn:E2.
  rewrite setQueue_spec. simpl. split; [done|].
  apply mapQ_fromObject_spec in E1 as (F1 & _ & H1).
  apply reassign_spec in E2 as (F2 & _).
  split.
  - unfold Queue.getQueue at 1, qbind, getFlag. simpl.
    rewrite lookup_insert_eq. simpl.
    destruct (mapQ _ (map toObject Q) _) as [q1 s5] eqn:E3. simpl.
    apply mapQ_fromObject_spec in E3 as (_ & _ & H3).
    simpl in R1, R2.
    rewrite (constructed_content _ _ H3), R2.
    rewrite (constructed_normal _ _ H1).
    by rewrite (constructed_content _ _ H1).
  - intros t' Ht. by rewrite lookup_insert_ne, F2, F1.
Qed.

(** C9: exporting a token's queue and importing the text in replace
    mode, into the same token or into any other token, in any state of
    the flags, succeeds and leaves that token a queue of the same length
    whose actions have, position by position, the type, enabled flag,
    name, description, conditions, data, onSuccess and onFailure of the
    exported ones, whatever queue the token had before; the flags of
    the other tokens stay as they were. [JSON.parse] is assumed to read
    back what [JSON.stringify] wrote. *)
Theorem export_import_roundtrip :
  (forall d, parse (stringify d) = Some (mkImport (Some (doc_actions d)))) ->
  forall t s,
    let e := exportQueue t s in
    let i := importQueue t e.1 false e.2 in
    (i.1 = true /\
     length (getQueue t i.2).1 = length (getQueue t s).1 /\
     map content (getQueue t i.2).1 = map content (getQueue t s).1) /\
    (forall t' s',
       let i' := importQueue t' e.1 false s' in
       i'.1 = true /\
       length (getQueue t' i'.2).1 = length (getQueue t s).1 /\
       map content (getQueue t' i'.2).1 = map content (getQueue t s).1 /\
       (forall t'', tok_id t'' <> tok_id t' ->
          flags i'.2 !! tok_id t'' = flags s' !! tok_id t'')).
Proof.
  intros Hcodec t s e i.
  assert (G : forall t' s',
            let i' := importQueue t' e.1 false s' in
            i'.1 = true /\
            map content (getQueue t' i'.2).1 = map content (getQueue t s).1 /\
            (forall t'', tok_id t'' <> tok_id t' ->
               flags i'.2 !! tok_id t'' = flags s' !! tok_id t'')).
  { intros t' s' i'. unfold i', e, Queue.exportQueue, qbind, qret.
    destruct (getQueue t s) as [q0 s1] eqn:E0. simpl.
    destruct (importQueue_replace_content t' _ _ s'
                (Hcodec (mkDoc "1.0.0" (tok_name t) (map toObject q0))))
      as (I1 & I2 & I3).
    simpl in I2. split; [done|]. split; [|done].
    rewrite I2. apply getQueue_spec in E0 as (_ & _ & H0).
    by rewrite (constructed_normal _ _ H0). }
  assert (L : forall t' s',
            length (getQueue t' (importQueue t' e.1 false s').2).1
              = length (getQueue t s).1).
  { intros t' s'. destruct (G t' s') as (_ & G2 & _).
    by rewrite <- (length_map content), G2, length_map. }
  split.
  - destruct (G t e.2) as (G1 & G2 & _). split; [done|]. split; [apply L | done].
  - intros t' s' i'. destruct (G t' s') as (G1 & G2 & G3).
    split; [done|]. split; [apply L|]. split; done.
Qed.

End Facts.

Import Fixtures MoreFixtures.

(** The enabled actions of a stored queue, by order; the stored sequence
    decides between equal orders. *)
Example getEnabledActions_example :
  map a_id (getEnabledActions testRandomID goblin
              (stored [actB; actC; set_order 1 actA; actA])).1
    = ["A"; "C"; "A"].
Proof. reflexivity. Qed.

(** An import in replace mode over a stored queue of one action. *)
Example importQueue_example :
  let s' := (importQueue testRandomID TestText testParse goblin
               (Some (Some [toObject actB; toObject actA])) false (stored [actC])).2 in
  (getQueue testRandomID goblin s').1
    = [set_order 0 (set_id "r0" actB); set_order 1 (set_id "r1" actA)].
Proof. reflexivity. Qed.

Lemma importQueue_fresh_ids_dense_orders_witness :
  testParse (Some (Some [toObject actA; toObject actB]))
    = Some (mkImport (Some [toObject actA; toObject actB])) /\
  exists (Q : list ActionQueueItem) s' (c : nat),
    importQueue testRandomID TestText testParse goblin
                (Some (Some [toObject actA; toObject actB])) false (stored [actC])
      = (true, s') /\
    length Q = 2%nat /\ (0 <= c)%nat.
Proof.
  split; [reflexivity|].
  destruct (importQueue_fresh_ids_dense_orders testRandomID TestText testParse
              goblin (Some (Some [toObject actA; toObject actB]))
              [toObject actA; toObject actB] (stored [actC]) eq_refl)
    as [(Q & s' & c & H & _ & Hc & L & _) _].
  exists Q, s', c. split; [exact H | split; [exact L | exact Hc]].
Defined.

Lemma export_import_roundtrip_witness :
  (forall d, testParse (testStringify d) = Some (mkImport (Some (doc_actions d)))) /\
  (getQueue testRandomID sprite (stored [])).1 = [] /\
  let e := exportQueue testRandomID TestText testStringify goblin (stored [actB; actA]) in
  let i := importQueue testRandomID TestText testParse sprite e.1 false (stored []) in
  i.1 = true /\
  map content (getQueue testRandomID sprite i.2).1 = map content [actB; actA].
Proof.
  split; [intros d; reflexivity|]. split; [reflexivity|].
  destruct (proj2 (export_import_roundtrip testRandomID TestText testStringify
                     testParse (fun d => eq_refl) goblin (stored [actB; actA]))
              sprite (stored [])) as (H1 & _ & H3 & _).
  split; [exact H1 | exact H3].
Defined.

End QueueFacts.

(** * Properties of the action executor *)
Module ExecutorFacts.
Import Queue Executor RunShape.
Local Open Scope list_scope.

Section Facts.

Variable randomID : nat -> string.
Context {World Item : Type}.
Variable host : Host World Item.

Implicit Types (s : St World) (a action : ActionQueueItem)
         (actions rest : list ActionQueueItem).

(** ** Computations that change nothing, or only the world *)

Lemma readonly_ret {A} (x : A) : readonly (World := World) (ret x).
Proof. by intros s r s' [= _ <-]. Qed.

Lemma readonly_bind {A B} (m : M World A) (k : A -> M World B) :
  readonly m -> (forall x, readonly (k x)) -> readonly (bind m k).
Proof.
  intros Hm Hk s r s'. unfold bind.
  destruct (m s) as [[x|e] s1] eqn:E; apply Hm in E; subst s1.
  - apply Hk.
  - by intros [= _ <-].
Qed.

Lemma readonly_workflow : readonly (World := World) workflow.
Proof.
  intros s r s'. unfold workflow.
  by destruct (currentWorkflow s); intros [= _ <-].
Qed.

Lemma readonly_systemOf v : readonly (systemOf host v).
Proof.
  intros s r s'. unfold systemOf.
  destruct v as [[]|]; try by intros [= _ <-].
  by destruct (actorSystem host (world s) ref); intros [= _ <-].
Qed.

Lemma readonly_shouldExecute action : readonly (shouldExecute host action).
Proof.
  unfold shouldExecute.
  repeat (match goal with |- readonly (if ?b then _ else _) => destruct b end);
    try apply readonly_ret.
  - unfold checkResourceAvailable.
    destruct (truthy _); [|apply readonly_ret].
    apply readonly_bind; [apply readonly_workflow|]. intros w.
    repeat (match goal with |- readonly (if ?b then _ else _) => destruct b end);
      try apply readonly_ret;
      (apply readonly_bind; [apply readonly_systemOf | intros; apply readonly_ret]).
  - unfold checkHPThreshold.
    destruct (truthy _); [|apply readonly_ret].
    apply readonly_bind; [apply readonly_workflow|]. intros w.
    apply readonly_bind; [apply readonly_systemOf|]. intros sys.
    destruct (regexMatch _) as [[]|]; apply readonly_ret.
  - unfold checkPreviousAttackResult.
    apply readonly_bind; [apply readonly_workflow | intros; apply readonly_ret].
Qed.

Lemma quiet_ret {A} (x : A) : quiet (World := World) (ret x).
Proof. by intros s r s' [= _ <-]. Qed.

Lemma quiet_readonly {A} (m : M World A) : readonly m -> quiet m.
Proof. intros H s r s' E. by rewrite (H _ _ _ E). Qed.

Lemma quiet_bind {A B} (m : M World A) (k : A -> M World B) :
  quiet m -> (forall x, quiet (k x)) -> quiet (bind m k).
Proof.
  intros Hm Hk s r s'. unfold bind.
  destruct (m s) as [[x|e] s1] eqn:E; apply Hm in E as (E1 & E2 & E3 & E4).
  - intros H. apply Hk in H as (H1 & H2 & H3 & H4).
    repeat split; congruence.
  - by intros [= _ <-].
Qed.

Lemma quiet_tryCatch {A} (m : M World A) (h : Exn -> M World A) :
  quiet m -> (forall e, quiet (h e)) -> quiet (tryCatch m h).
Proof.
  intros Hm Hh s r s'. unfold tryCatch.
  destruct (m s) as [[x|e] s1] eqn:E; apply Hm in E as (E1 & E2 & E3 & E4).
  - by intros [= _ <-].
  - intros H. apply Hh in H as (H1 & H2 & H3 & H4).
    repeat split; congruence.
Qed.

Lemma quiet_liftW {A} (f : World -> Res A * World) : quiet (liftW f).
Proof.
  intros s r s'. unfold liftW. destruct (f (world s)). by intros [= _ <-].
Qed.

Lemma quiet_dispatch action : quiet (dispatch host action).
Proof.
  unfold dispatch.
  repeat (match goal with |- quiet (if ?b then _ else _) => destruct b end);
    try apply quiet_ret.
  - unfold executeMovement. destruct (movementSystem host); [|apply quiet_ret].
    apply quiet_bind; [apply quiet_readonly, readonly_workflow|].
    intros w. apply quiet_liftW.
  - unfold executeAttack. destruct (attackSystem host); [|apply quiet_ret].
    apply quiet_bind; [apply quiet_readonly, readonly_workflow|].
    intros w. apply quiet_liftW.
  - unfold executeSpell, executeAttack.
    destruct (attackSystem host); [|apply quiet_ret].
    apply quiet_bind; [apply quiet_readonly, readonly_workflow|].
    intros w. apply quiet_liftW.
  - unfold executeItem. destruct (truthy _); [|apply quiet_ret].
    apply quiet_bind; [apply quiet_liftW|]. intros [item|]; [|apply quiet_ret].
    apply quiet_tryCatch; [|intros; apply quiet_ret].
    destruct (midiActive host);
      (apply quiet_bind; [apply quiet_liftW | intros; apply quiet_ret]).
Qed.

(** ** [executeAction] *)

Lemma executeAction_unfold action s :
  executeAction host action s =
    match dispatch host action (logged s [LogExecuting action]) with
    | (Ok o, s1) => (Ok o, s1)
    | (Throw e, s1) => (Ok (failed (exn_message e)), logged s1 [ConsoleError e])
    end.
Proof.
  unfold executeAction, bind, tryCatch, emit, logged, ret. simpl.
  by destruct (dispatch host action _) as [[o|e] s1].
Qed.

(** [executeAction] returns an outcome, leaves the guard, the run context
    and the flags alone, and prints its own line first and, at most, one
    error after it. *)
Lemma executeAction_total action s :
  exists o s' evs,
    executeAction host action s = (Ok o, s') /\
    executing s' = executing s /\ currentWorkflow s' = currentWorkflow s /\
    qst s' = qst s /\
    events s' = events s ++ LogExecuting action :: evs /\
    ledgerWrites evs = [] /\ dispatched evs = [].
Proof.
  rewrite executeAction_unfold.
  destruct (dispatch host action _) as [[o|e] s1] eqn:E;
    apply quiet_dispatch in E as (E1 & E2 & E3 & E4); simpl in *.
  - exists o, s1, []. repeat split; done.
  - exists (failed (exn_message e)), (logged s1 [ConsoleError e]), [ConsoleError e].
    repeat split; try done. simpl. by rewrite E4, <- app_assoc.
Qed.

(** C2: a call of [executeQueue] while the [executing] guard is set
    returns normally and changes nothing but the debug log, which gets
    the line [Already executing actions, skipping]: no action is
    dispatched, the world, the guard, the run context with its ledger and
    the flags are as before, and nothing records the request. *)
Theorem executeQueue_single_flight token actions s :
  executing s = true ->
  executeQueue host token actions s = (Ok tt, logged s [LogAlreadyExecuting]) /\
  let s' := (executeQueue host token actions s).2 in
  executing s' = true /\
  currentWorkflow s' = currentWorkflow s /\
  ledgerOf s' = ledgerOf s /\
  getStatus s' = getStatus s /\
  world s' = world s /\
  qst s' = qst s /\
  dispatched (events s') = dispatched (events s) /\
  ledgerWrites (events s') = ledgerWrites (events s).
Proof.
  intros H.
  assert (E : executeQueue host token actions s = (Ok tt, logged s [LogAlreadyExecuting])).
  { unfold executeQueue. cbv beta. by rewrite H. }
  rewrite E. unfold logged. simpl.
  repeat split; try done.
  - unfold dispatched. by rewrite omap_app, app_nil_r.
  - unfold ledgerWrites. by rewrite omap_app, app_nil_r.
Qed.

(** ** The loop body *)

Lemma ledgerWrites_app evs1 evs2 :
  ledgerWrites (evs1 ++ evs2) = ledgerWrites evs1 ++ ledgerWrites evs2.
Proof. apply omap_app. Qed.

Lemma dispatched_app evs1 evs2 :
  dispatched (evs1 ++ evs2) = dispatched evs1 ++ dispatched evs2.
Proof. apply omap_app. Qed.

Lemma ledgerWrites_exec a evs : ledgerWrites (LogExecuting a :: evs) = ledgerWrites evs.
Proof. done. Qed.

Lemma ledgerWrites_set a o evs : ledgerWrites (LedgerSet a o :: evs) = a :: ledgerWrites evs.
Proof. done. Qed.

Lemma dispatched_exec a evs : dispatched (LogExecuting a :: evs) = a :: dispatched evs.
Proof. done. Qed.

Lemma dispatched_set a o evs : dispatched (LedgerSet a o :: evs) = dispatched evs.
Proof. done. Qed.

Lemma recordResult_spec i r s w :
  currentWorkflow s = Some w ->
  recordResult i r s =
    (Ok tt, mkSt (executing s)
                 (Some (mkWorkflow (wf_token w) (wf_actions w)
                          (ledgerSet i r (wf_results w)) (wf_context w)))
                 (qst s) (world s) (events s)).
Proof. intros H. unfold recordResult. by rewrite H. Qed.

Lemma find_Some i actions b :
  Queue.find i actions = Some b -> b ∈ actions /\ a_id b = i.
Proof.
  unfold Queue.find. revert b.
  induction actions as [|a l IH]; intros b; simpl; [done|].
  destruct (String.eqb (a_id a) i) eqn:E; simpl.
  - intros [= <-]. split; [left | by apply String.eqb_eq].
  - destruct (findIndex i l) as [k|]; simpl; [|done].
    intros H. destruct (IH b H) as [H1 H2]. split; [by right | done].
Qed.

(** A branch is one more [executeAction], or nothing: it returns
    normally and leaves the run context, with its ledger, as it was. *)
Lemma branchTo_spec actions target s :
  exists s' evs,
    branchTo host actions target s = (Ok tt, s') /\
    executing s' = executing s /\ currentWorkflow s' = currentWorkflow s /\
    qst s' = qst s /\
    events s' = events s ++ evs /\
    ledgerWrites evs = [] /\
    dispatched evs = option_list (Queue.find target actions).
Proof.
  unfold branchTo.
  destruct (Queue.find target actions) as [b|] eqn:F.
  - destruct (executeAction_total b s) as (o & s' & evs & E & E1 & E2 & E3 & E4 & E5 & E6).
    exists s', (LogExecuting b :: evs). unfold bind. rewrite E.
    repeat split; try done. simpl. by rewrite E6.
  - exists s, []. repeat split; try done. by rewrite app_nil_r.
Qed.

(** An iteration whose condition holds: [executeAction], the ledger
    entry, then the branch. *)
Lemma iteration_run actions action s w o s1 :
  currentWorkflow s = Some w ->
  shouldExecute host action s = (Ok true, s) ->
  executeAction host action s = (Ok o, s1) ->
  let s2 := mkSt (executing s1)
                 (Some (mkWorkflow (wf_token w) (wf_actions w)
                          (ledgerSet (a_id action) o (wf_results w))
                          (wf_context w)))
                 (qst s1) (world s1) (events s1 ++ [LedgerSet action o]) in
  iteration host actions action s =
    match branchTarget action o with
    | Some target => branchTo host actions target s2
    | None => (Ok tt, s2)
    end.
Proof.
  intros Hw Hc He s2.
  destruct (executeAction_total action s) as (o' & s1' & evs & E & E1 & E2 & E3 & E4 & E5 & E6).
  rewrite He in E. injection E as <- <-.
  unfold iteration, bind at 1. rewrite Hc. simpl.
  unfold bind at 1. rewrite He.
  unfold bind at 1. rewrite (recordResult_spec _ _ _ w) by congruence.
  unfold bind at 1, emit at 1. simpl. fold s2.
  unfold branchTarget.
  destruct (success o), (truthy (a_onSuccess action)), (truthy (a_onFailure action));
    done.
Qed.

Lemma ledgerSet_keys i o (l : Ledger) k :
  k ∈ (ledgerSet i o l).*1 <-> k = i \/ k ∈ l.*1.
Proof.
  induction l as [|[k' v'] l IH]; simpl.
  - rewrite list_elem_of_singleton, elem_of_nil. tauto.
  - destruct (String.eqb k' i) eqn:E; simpl.
    + apply String.eqb_eq in E. subst k'. rewrite !elem_of_cons. tauto.
    + rewrite !elem_of_cons, IH. tauto.
Qed.

(** What one iteration of the main loop does during a run: it throws out
    of the condition or skips, with nothing dispatched and the ledger as
    it was; or it dispatches [action], records its outcome under
    [action.id] and then dispatches the branch target found in
    [actions], if any, recording nothing for it. *)
Lemma iteration_spec actions action s w res s' :
  currentWorkflow s = Some w ->
  iteration host actions action s = (res, s') ->
  exists w' evs,
    currentWorkflow s' = Some w' /\ executing s' = executing s /\
    qst s' = qst s /\ events s' = events s ++ evs /\
    ((ledgerWrites evs = [] /\ dispatched evs = [] /\
      wf_results w' = wf_results w /\
      (shouldExecute host action s).1 <> Ok true) \/
     (res = Ok tt /\ (shouldExecute host action s).1 = Ok true /\
      exists o,
        (executeAction host action s).1 = Ok o /\
        ledgerWrites evs = [action] /\
        wf_results w' = ledgerSet (a_id action) o (wf_results w) /\
        dispatched evs =
          action :: option_list (branchTarget action o ≫= fun t => Queue.find t actions))).
Proof.
  intros Hw H.
  destruct (shouldExecute host action s) as [[b|e] s0] eqn:C;
    pose proof (readonly_shouldExecute _ _ _ _ C) as ->.
  - destruct b.
    + destruct (executeAction_total action s)
        as (o & s1 & evs1 & E & E1 & E2 & E3 & E4 & E5 & E6).
      rewrite (iteration_run actions action s w o s1 Hw C E) in H.
      set (s2 := mkSt _ _ _ _ _) in H.
      assert (R : exists w2 evs2 bt,
                 (res, s') = (Ok tt, s') /\
                 currentWorkflow s' = Some w2 /\ executing s' = executing s /\
                 qst s' = qst s /\
                 events s' = events s ++ LogExecuting action :: evs1
                               ++ LedgerSet action o :: evs2 /\
                 wf_results w2 = ledgerSet (a_id action) o (wf_results w) /\
                 ledgerWrites evs2 = [] /\
                 dispatched evs2 = option_list bt /\
                 bt = branchTarget action o ≫= fun t => Queue.find t actions).
      { exists (mkWorkflow (wf_token w) (wf_actions w)
                  (ledgerSet (a_id action) o (wf_results w)) (wf_context w)).
        destruct (branchTarget action o) as [target|] eqn:B.
        - destruct (branchTo_spec actions target s2)
            as (s3 & evs & F & F1 & F2 & F3 & F4 & F5 & F6).
          rewrite F in H. injection H as <- <-.
          exists evs, (Queue.find target actions).
          split; [done|]. split; [by rewrite F2|]. split; [by rewrite F1|].
          split; [by rewrite F3|]. split; [|done].
          rewrite F4. unfold s2. simpl. rewrite E4.
          by rewrite <- !app_assoc.
        - injection H as <- <-.
          exists [], None.
          split; [done|]. split; [done|]. split; [done|]. split; [done|].
          split; [|done].
          unfold s2. simpl. rewrite E4. by rewrite <- !app_assoc. }
      destruct R as (w2 & evs2 & bt & R0 & R1 & R2 & R3 & R4 & R5 & R6 & R7 & R8).
      exists w2, (LogExecuting action :: evs1 ++ LedgerSet action o :: evs2).
      repeat split; try done.
      right. split; [congruence|]. split; [done|]. exists o.
      split; [by rewrite E|].
      rewrite ledgerWrites_exec, dispatched_exec, ledgerWrites_app, dispatched_app,
        ledgerWrites_set, dispatched_set, E5, E6, R6, R7, R8. done.
    + unfold iteration, bind in H. rewrite C in H. simpl in H.
      injection H as <- <-.
      exists w, [LogSkipping action]. repeat split; try done.
      left. by repeat split.
  - unfold iteration, bind in H. rewrite C in H. injection H as <- <-.
    exists w, []. repeat split; try done; [by rewrite app_nil_r|].
    left. by repeat split.
Qed.

(** The main loop over what is left of the list, during a run: the
    actions it records are some of the actions left, in their order; an
    action it dispatches is one of those or one of the whole list; the
    keys of the ledger are the old ones and the ids of the actions
    recorded. *)
Lemma mainLoop_spec actions rest : forall s w res s',
  currentWorkflow s = Some w ->
  mainLoop host actions rest s = (res, s') ->
  exists w' evs,
    currentWorkflow s' = Some w' /\ executing s' = executing s /\
    qst s' = qst s /\ events s' = events s ++ evs /\
    ledgerWrites evs `sublist_of` rest /\
    Forall (fun x => x ∈ rest \/ x ∈ actions) (dispatched evs) /\
    (forall k, k ∈ (wf_results w').*1 <->
               k ∈ (wf_results w).*1 \/ k ∈ a_id <$> ledgerWrites evs).
Proof.
  induction rest as [|a rest IH]; intros s w res s' Hw H; simpl in H.
  - injection H as <- <-. exists w, [].
    split; [done|]. split; [done|]. split; [done|].
    split; [by rewrite app_nil_r|]. split; [done|]. split; [constructor|].
    intros k. simpl. rewrite elem_of_nil. tauto.
  - unfold bind in H.
    destruct (iteration host actions a s) as [[[]|e] s1] eqn:I;
      destruct (iteration_spec _ _ _ _ _ _ Hw I)
        as (w1 & evs1 & I1 & I2 & I3 & I4 & I5).
    + destruct (IH _ _ _ _ I1 H) as (w2 & evs2 & J1 & J2 & J3 & J4 & J5 & J6 & J7).
      exists w2, (evs1 ++ evs2).
      split; [done|]. split; [congruence|]. split; [congruence|].
      split; [by rewrite J4, I4, app_assoc|].
      rewrite ledgerWrites_app, dispatched_app.
      destruct I5 as [(K1 & K2 & K3 & _) | (_ & _ & o & _ & K1 & K2 & K3)];
        rewrite K1, K2 in *.
      * simpl. split; [by apply sublist_cons|].
        split; [|intros k; rewrite J7, K3; done].
        eapply Forall_impl; [exact J6|]. simpl. intros x [?|?]; [left; by right | by right].
      * simpl. split; [by apply sublist_skip|].
        split.
        -- rewrite K3. apply Forall_app. split.
           ++ constructor; [left; by left|].
              destruct (branchTarget a o) as [t|]; simpl; [|constructor].
              destruct (Queue.find t actions) as [b|] eqn:F; simpl; [|constructor].
              constructor; [|constructor]. right. by apply find_Some in F as [? _].
           ++ eapply Forall_impl; [exact J6|]. simpl.
              intros x [?|?]; [left; by right | by right].
        -- intros k. rewrite J7, ledgerSet_keys. simpl.
           rewrite elem_of_cons. tauto.
    + injection H as <- <-. exists w1, evs1.
      destruct I5 as [(K1 & K2 & K3 & _) | (K0 & _)]; [|done].
      rewrite K1, K2, K3.
      split; [done|]. split; [done|]. split; [done|]. split; [done|].
      split; [apply sublist_nil_l|]. split; [constructor|].
      intros k. simpl. rewrite elem_of_nil. tauto.
Qed.

(** ** Whole runs *)

Lemma startRun_workflow token actions s :
  currentWorkflow (startRun host token actions s)
    = Some (mkWorkflow token actions []
              (mkContext (tok_actor token) token (gameCombat host))).
Proof. done. Qed.

(** [executeQueue] returns normally; what it records is part of the
    list it was given, in the order of the list, and what it dispatches
    is in that list. *)
Lemma executeQueue_events token actions s :
  exists evs,
    (executeQueue host token actions s).1 = Ok tt /\
    qst (executeQueue host token actions s).2 = qst s /\
    events (executeQueue host token actions s).2 = events s ++ evs /\
    ledgerWrites evs `sublist_of` actions /\
    Forall (fun x => x ∈ actions) (dispatched evs).
Proof.
  unfold executeQueue. destruct (executing s) eqn:G.
  - exists [LogAlreadyExecuting]. repeat split; [apply sublist_nil_l | constructor].
  - unfold tryCatch, runBody, bind.
    destruct (mainLoop host actions actions (startRun host token actions s))
      as [[[]|e] s1] eqn:L;
      destruct (mainLoop_spec _ _ _ _ _ _ (startRun_workflow token actions s) L)
        as (w1 & evs & L1 & L2 & L3 & L4 & L5 & L6 & _);
      simpl in L3, L4.
    + exists (evs ++ [NotifyInfo (tok_name token) (length actions)]).
      simpl. rewrite L4, ledgerWrites_app, dispatched_app, !app_nil_r, app_assoc.
      repeat split; try done.
      eapply Forall_impl; [exact L6|]. simpl. tauto.
    + exists (evs ++ [ConsoleError e; NotifyError]).
      simpl. rewrite L4, ledgerWrites_app, dispatched_app, !app_nil_r, <- !app_assoc.
      repeat split; try done.
      eapply Forall_impl; [exact L6|]. simpl. tauto.
Qed.

(** The turn trigger runs the enabled actions of the combatant's token,
    sorted by order, or nothing. *)
Lemma onCombatTurn_events combat turn s r s' :
  onCombatTurn randomID host combat turn s = (r, s') ->
  exists evs acts,
    r = Ok tt /\
    events s' = events s ++ evs /\
    ledgerWrites evs `sublist_of` acts /\
    Forall (fun x => x ∈ acts) (dispatched evs) /\
    StronglySorted orderLe acts /\
    Forall (fun a => a_enabled a = true) acts /\
    (forall token, combatant combat ≫= cb_token = Some token ->
       acts ⊆ (getEnabledActions randomID token (qst s)).1).
Proof.
  assert (Z0 : forall s0, events s0 = events s -> ret tt s0 = (r, s') ->
             exists evs acts,
             r = Ok tt /\ events s' = events s ++ evs /\
             ledgerWrites evs `sublist_of` acts /\
             Forall (fun x => x ∈ acts) (dispatched evs) /\
             StronglySorted orderLe acts /\
             Forall (fun a => a_enabled a = true) acts /\
             (forall token, combatant combat ≫= cb_token = Some token ->
                acts ⊆ (getEnabledActions randomID token (qst s)).1)).
  { intros s0 E0 [= <- <-]. exists [], []. rewrite app_nil_r.
    repeat split; try done; try constructor. intros token _ x Hx. by inversion Hx. }
  unfold onCombatTurn. intros H.
  destruct turn as [[|p|p]|]; try (by eapply Z0; [|exact H]);
  (destruct combat as [[[[token|]]|]]; try (by eapply Z0; [|exact H]);
   cbn [combatant cb_token] in *;
   destruct (negb (tok_isOwner token) && negb (userIsGM host));
     try (by eapply Z0; [|exact H]);
   destruct (negb (hasQueueManager host)); try (by eapply Z0; [|exact H]);
   unfold bind, liftQ, emit in H;
   destruct (isQueueEnabled token (qst s)) as [en q1] eqn:Q1;
   assert (q1 = qst s) as -> by (by injection Q1 as _ <-);
   destruct en; try (by eapply Z0; [|exact H]);
   cbn [negb qst] in H;
   pose proof (QueueFacts.getEnabledActions_spec randomID token (qst s))
         as (_ & _ & P1 & P2 & _);
   destruct (getEnabledActions randomID token (qst s)) as [acts q2] eqn:Q2;
   cbn [fst] in P1, P2;
   destruct (length acts =? 0)%nat; try (by eapply Z0; [|exact H]);
   match type of H with executeQueue host token acts ?s1 = _ =>
         destruct (executeQueue_events token acts s1) as (evs & X1 & _ & X3 & X4 & X5)
       end;
   rewrite H in X1, X3; cbn [events fst snd] in X1, X3;
   exists (LogTurn (length acts) (tok_name token) :: evs), acts;
   split; [exact X1|]; split; [by rewrite X3, <- app_assoc|];
   split; [exact X4|]; split; [exact X5|]; split; [exact P1|];
   split; [exact P2|];
   intros token' [= <-]; by rewrite Q2).
Qed.

(** C1 (amended): the branch target is looked up, by id, in the list
    that [executeQueue] was given, and neither its [enabled] flag nor its
    [order] nor its condition is consulted. When the main loop has
    dispatched [action] with outcome [o], and the id to branch to
    ([onSuccess] after a success, [onFailure] after a failure) is the id
    of an action of that list, the first such action [B] is dispatched
    right after the outcome of [action] is recorded; when the list has no
    action of that id, nothing more is dispatched. A run started by the
    turn trigger is given the enabled actions only, so it never
    dispatches a disabled action, as a branch target or otherwise. *)
Theorem branch_target_found_in_given_list actions action s w o s1 :
  currentWorkflow s = Some w ->
  shouldExecute host action s = (Ok true, s) ->
  executeAction host action s = (Ok o, s1) ->
  let s2 := mkSt (executing s1)
                 (Some (mkWorkflow (wf_token w) (wf_actions w)
                          (ledgerSet (a_id action) o (wf_results w))
                          (wf_context w)))
                 (qst s1) (world s1) (events s1 ++ [LedgerSet action o]) in
  (forall target B,
     branchTarget action o = Some target ->
     Queue.find target actions = Some B ->
     B ∈ actions /\ a_id B = target /\
     iteration host actions action s = (Ok tt, (executeAction host B s2).2) /\
     exists evs,
       events (executeAction host B s2).2
         = events s1 ++ LedgerSet action o :: LogExecuting B :: evs /\
       dispatched evs = []) /\
  (forall target,
     branchTarget action o = Some target ->
     Queue.find target actions = None ->
     iteration host actions action s = (Ok tt, s2)) /\
  (branchTarget action o = None ->
   iteration host actions action s = (Ok tt, s2)) /\
  (forall combat turn s0,
     exists evs,
       events (onCombatTurn randomID host combat turn s0).2 = events s0 ++ evs /\
       Forall (fun a => a_enabled a = true) (dispatched evs)).
Proof.
  intros Hw Hc He s2.
  pose proof (iteration_run actions action s w o s1 Hw Hc He) as I.
  fold s2 in I.
  split; [|split; [|split]].
  - intros target B Ht Hf. rewrite Ht in I. unfold branchTo in I. rewrite Hf in I.
    destruct (find_Some _ _ _ Hf) as [F1 F2].
    destruct (executeAction_total B s2) as (oB & s3 & evs & E & _ & _ & _ & E4 & _ & E6).
    split; [done|]. split; [done|]. split.
    + rewrite I. unfold bind. by rewrite E.
    + exists evs. rewrite E. simpl. rewrite E4. simpl.
      by rewrite <- app_assoc.
  - intros target Ht Hf. rewrite Ht in I. unfold branchTo in I. by rewrite Hf in I.
  - intros Ht. by rewrite Ht in I.
  - intros combat turn s0.
    destruct (onCombatTurn randomID host combat turn s0) as [r s'] eqn:T.
    destruct (onCombatTurn_events _ _ _ _ _ T)
      as (evs & acts & _ & E & _ & D1 & _ & En & _).
    exists evs. split; [done|].
    apply Forall_forall. intros x Hx.
    rewrite Forall_forall in D1, En. by apply En, D1.
Qed.

(** C7 (amended): the outcome of a branch target is dropped. An
    iteration that dispatches [action] leaves the ledger with the outcome
    of [action] under [action.id] and nothing else new, whether or not a
    branch target was dispatched after it: [branchTo] leaves the ledger,
    and with it [getStatus], as they were. *)
Theorem branch_outcome_not_recorded actions :
  (forall action s w res s',
     currentWorkflow s = Some w ->
     iteration host actions action s = (res, s') ->
     (shouldExecute host action s).1 = Ok true ->
     exists o evs,
       (executeAction host action s).1 = Ok o /\
       events s' = events s ++ evs /\
       dispatched evs =
         action :: option_list (branchTarget action o ≫= fun t => Queue.find t actions) /\
       ledgerWrites evs = [action] /\
       ledgerOf s' = ledgerSet (a_id action) o (wf_results w) /\
       st_actionsCompleted (getStatus s')
         = length (ledgerSet (a_id action) o (wf_results w))) /\
  (forall target s,
     (branchTo host actions target s).1 = Ok tt /\
     ledgerOf (branchTo host actions target s).2 = ledgerOf s /\
     getStatus (branchTo host actions target s).2 = getStatus s /\
     exists evs,
       events (branchTo host actions target s).2 = events s ++ evs /\
       dispatched evs = option_list (Queue.find target actions) /\
       ledgerWrites evs = []).
Proof.
  split.
  - intros action s w res s' Hw I C.
    destruct (iteration_spec _ _ _ _ _ _ Hw I)
      as (w' & evs & I1 & _ & _ & I4 & [(_ & _ & _ & N) | (_ & _ & o & O1 & O2 & O3 & O4)]);
      [done|].
    exists o, evs. unfold getStatus, ledgerOf. rewrite I1, O3.
    by repeat split.
  - intros target s.
    destruct (branchTo_spec actions target s) as (s' & evs & E & E1 & E2 & _ & E4 & E5 & E6).
    rewrite E. simpl. unfold getStatus, ledgerOf. rewrite E1, E2.
    split; [done|]. split; [done|]. split; [done|]. by exists evs.
Qed.

(** ** Dispatch failures do not end the run *)

Lemma shouldExecute_always action s :
  cond_type (a_conditions action) = ConditionType.ALWAYS ->
  shouldExecute host action s = (Ok true, s).
Proof. intros E. unfold shouldExecute. by rewrite E. Qed.

Lemma mainLoop_always actions rest : forall s w,
  currentWorkflow s = Some w ->
  Forall (fun a => cond_type (a_conditions a) = ConditionType.ALWAYS) rest ->
  exists s' evs,
    mainLoop host actions rest s = (Ok tt, s') /\
    events s' = events s ++ evs /\
    ledgerWrites evs = rest.
Proof.
  induction rest as [|a rest IH]; intros s w Hw Hall; simpl.
  - exists s, []. by rewrite app_nil_r.
  - apply Forall_cons in Hall as [Ha Hall].
    unfold bind.
    destruct (iteration host actions a s) as [res s1] eqn:I.
    destruct (iteration_spec _ _ _ _ _ _ Hw I)
      as (w1 & evs1 & I1 & _ & _ & I4 & [(_ & _ & _ & N) | (-> & _ & o & _ & O2 & _)]).
    { by rewrite (shouldExecute_always a s Ha) in N. }
    destruct (IH s1 w1 I1 Hall) as (s' & evs & L & L1 & L2).
    exists s', (evs1 ++ evs). split; [done|].
    rewrite ledgerWrites_app, O2, L2, L1, I4. by rewrite app_assoc.
Qed.


(** ** The order of a turn's run *)

Lemma handled_app evs1 evs2 : handled (evs1 ++ evs2) = handled evs1 ++ handled evs2.
Proof. apply omap_app. Qed.

(** What [executeAction] prints: its own line and, when the executor
    threw, the error. *)
Lemma executeAction_events action s :
  exists o s',
    executeAction host action s = (Ok o, s') /\
    executing s' = executing s /\ currentWorkflow s' = currentWorkflow s /\
    qst s' = qst s /\
    (events s' = events s ++ [LogExecuting action] \/
     exists e, events s' = events s ++ [LogExecuting action; ConsoleError e]).
Proof.
  rewrite executeAction_unfold.
  destruct (dispatch host action _) as [[o|e] s1] eqn:E;
    apply quiet_dispatch in E as (E1 & E2 & E3 & E4); simpl in *.
  - exists o, s1. repeat split; try done. by left.
  - exists (failed (exn_message e)), (logged s1 [ConsoleError e]).
    repeat split; try done. right. exists e. simpl. by rewrite E4, <- app_assoc.
Qed.

(** One iteration during a run: the action is handled, recorded after
    its dispatch or skipped, unless its condition throws. *)
Lemma iteration_handled actions action s w res s' :
  currentWorkflow s = Some w ->
  iteration host actions action s = (res, s') ->
  exists evs,
    events s' = events s ++ evs /\
    ledgerWrites evs `sublist_of` dispatched evs /\
    ((res = Ok tt /\ handled evs = [action]) \/
     (exists e, res = Throw e /\ evs = [] /\
                (shouldExecute host action s).1 = Throw e)).
Proof.
  intros Hw H.
  destruct (shouldExecute host action s) as [[b|e] s0] eqn:C;
    pose proof (readonly_shouldExecute _ _ _ _ C) as ->.
  - destruct b.
    + destruct (executeAction_events action s) as (o & s1 & E & E1 & E2 & E3 & E4).
      rewrite (iteration_run actions action s w o s1 Hw C E) in H.
      set (s2 := mkSt _ _ _ _ _) in H.
      assert (B : exists evs2,
                 (res, s') = (Ok tt, s') /\ events s' = events s2 ++ evs2 /\
                 handled evs2 = [] /\ ledgerWrites evs2 = []).
      { destruct (branchTarget action o) as [target|].
        - unfold branchTo in H. destruct (Queue.find target actions) as [b|].
          + destruct (executeAction_events b s2) as (o' & s3 & F & _ & _ & _ & F4).
            unfold bind in H. rewrite F in H. injection H as <- <-.
            destruct F4 as [F4 | [e F4]]; rewrite F4; eexists; by repeat split.
          + injection H as <- <-. exists []. by rewrite app_nil_r.
        - injection H as <- <-. exists []. by rewrite app_nil_r. }
      destruct B as (evs2 & B0 & B1 & B2 & B3). injection B0 as ->.
      unfold s2 in B1. simpl in B1.
      destruct E4 as [E4 | [e E4]]; rewrite E4, <- !app_assoc in B1; simpl in B1;
        eexists; (split; [exact B1|]);
        rewrite ?ledgerWrites_exec, ?dispatched_exec; simpl;
        rewrite ?handled_app, ?ledgerWrites_app, B2, B3; simpl;
        (split; [apply sublist_skip, sublist_nil_l | by left]).
    + unfold iteration, bind in H. rewrite C in H. simpl in H.
      injection H as <- <-. exists [LogSkipping action].
      split; [done|]. split; [done|]. by left.
  - unfold iteration, bind in H. rewrite C in H. injection H as <- <-.
    exists []. split; [by rewrite app_nil_r|]. split; [done|].
    right. by exists e.
Qed.

(** The main loop during a run goes through what is left of the list in
    its order, up to the action whose condition throws, if one does. *)
Lemma mainLoop_handled actions rest : forall s w res s',
  currentWorkflow s = Some w ->
  mainLoop host actions rest s = (res, s') ->
  exists evs,
    events s' = events s ++ evs /\
    ledgerWrites evs `sublist_of` dispatched evs /\
    ((res = Ok tt /\ handled evs = rest) \/
     (exists e pre a post, res = Throw e /\ rest = pre ++ a :: post /\
                           handled evs = pre)).
Proof.
  induction rest as [|a rest IH]; intros s w res s' Hw H; simpl in H.
  - injection H as <- <-. exists []. split; [by rewrite app_nil_r|].
    split; [done|]. by left.
  - unfold bind in H.
    destruct (iteration host actions a s) as [r s1] eqn:I.
    destruct (iteration_spec _ _ _ _ _ _ Hw I) as (w1 & _ & I1 & _).
    destruct (iteration_handled _ _ _ _ _ _ Hw I)
      as (evs1 & J1 & J2 & [(-> & J3) | (e & -> & -> & _)]).
    + destruct (IH _ _ _ _ I1 H)
        as (evs2 & K1 & K2 & [(-> & K3) | (e & pre & b & post & -> & -> & K3)]);
        exists (evs1 ++ evs2);
        (split; [by rewrite K1, J1, app_assoc|]);
        rewrite ledgerWrites_app, dispatched_app, handled_app, J3, K3;
        (split; [by apply sublist_app|]).
      * by left.
      * right. by exists e, (a :: pre), b, post.
    + injection H as <- <-. exists []. split; [done|]. split; [done|].
      right. by exists e, [], a, rest.
Qed.

(** The turn trigger with its gates open: the debug line, then
    [executeQueue] on the enabled actions in their sorted order. *)
Lemma onCombatTurn_run combat turn s token :
  newTurn turn = true ->
  combatant combat ≫= cb_token = Some token ->
  (tok_isOwner token || userIsGM host) = true ->
  hasQueueManager host = true ->
  (isQueueEnabled token (qst s)).1 = true ->
  (getEnabledActions randomID token (qst s)).1 <> [] ->
  let acts := (getEnabledActions randomID token (qst s)).1 in
  exists s1,
    events s1 = events s ++ [LogTurn (length acts) (tok_name token)] /\
    executing s1 = executing s /\
    onCombatTurn randomID host combat turn s = executeQueue host token acts s1.
Proof.
  intros T Ct Own Mgr En Acts acts.
  unfold onCombatTurn.
  destruct turn as [[|p|p]|]; try done;
    (destruct combat as [[[[token'|]]|]]; try done;
     cbn [combatant cb_token mbind option_bind] in *;
     injection Ct as ->;
     apply orb_true_iff in Own;
     assert (O : negb (tok_isOwner token) && negb (userIsGM host) = false)
       by (destruct Own as [-> | ->]; [done | by rewrite andb_false_r]);
     rewrite O, Mgr; cbn [negb];
     unfold bind, liftQ, emit;
     destruct (isQueueEnabled token (qst s)) as [en q1] eqn:Q1;
     assert (q1 = qst s) as -> by (by injection Q1 as _ <-);
     simpl in En; subst en; cbn [negb qst];
     subst acts;
     destruct (getEnabledActions randomID token (qst s)) as [acts q2] eqn:Q2;
     cbn [fst snd] in *;
     destruct acts as [|a0 acts]; [done|];
     cbn [length Nat.eqb];
     eexists; split; [|split; [|reflexivity]]; done).
Qed.

(** C3: a run started by the turn trigger goes through the enabled
    actions of the token in non-decreasing [order]: with the gates of the
    trigger open and no run active, what follows the debug line of the
    trigger is the handling of these actions, one after the other in
    their sorted order, each dispatched and then recorded or else
    skipped, up to the end of the list, where the summary is shown, or up
    to an action whose condition throws, where the error notification is
    shown; every outcome recorded is recorded after the dispatch of its
    action, and when every condition is [always] every action of the
    list is recorded. An action whose condition holds is dispatched and
    its outcome recorded under its id. Outcomes are recorded in
    non-decreasing [order] and for enabled actions only; no disabled
    action is even dispatched, and every key of the run's ledger is the
    id of an enabled action of the run. An action whose condition
    evaluates to [false] is skipped: the iteration only prints the skip
    notice, the ledger is as before, and the loop goes on with the rest
    of the list. *)
Theorem turn_run_in_order_enabled_only combat turn s :
  (exists evs,
     events (onCombatTurn randomID host combat turn s).2 = events s ++ evs /\
     StronglySorted orderLe (ledgerWrites evs) /\
     Forall (fun a => a_enabled a = true) (ledgerWrites evs) /\
     Forall (fun a => a_enabled a = true) (dispatched evs)) /\
  (forall token s0 res s1,
     let acts := (getEnabledActions randomID token (qst s0)).1 in
     mainLoop host acts acts (startRun host token acts s0) = (res, s1) ->
     forall k, k ∈ (ledgerOf s1).*1 ->
       exists a, a ∈ acts /\ a_enabled a = true /\ a_id a = k) /\
  (forall actions action rest s0,
     (shouldExecute host action s0).1 = Ok false ->
     iteration host actions action s0 = (Ok tt, logged s0 [LogSkipping action]) /\
     ledgerOf (logged s0 [LogSkipping action]) = ledgerOf s0 /\
     mainLoop host actions (action :: rest) s0
       = mainLoop host actions rest (logged s0 [LogSkipping action])) /\
  (forall actions action s0 w,
     currentWorkflow s0 = Some w ->
     (shouldExecute host action s0).1 = Ok true ->
     exists o evs s1,
       iteration host actions action s0 = (Ok tt, s1) /\
       (executeAction host action s0).1 = Ok o /\
       events s1 = events s0 ++ evs /\
       dispatched evs
         = action :: option_list (branchTarget action o ≫= fun t => Queue.find t actions) /\
       ledgerWrites evs = [action] /\
       ledgerOf s1 = ledgerSet (a_id action) o (ledgerOf s0)) /\
  (forall token,
     newTurn turn = true ->
     combatant combat ≫= cb_token = Some token ->
     (tok_isOwner token || userIsGM host) = true ->
     hasQueueManager host = true ->
     (isQueueEnabled token (qst s)).1 = true ->
     executing s = false ->
     let acts := (getEnabledActions randomID token (qst s)).1 in
     acts <> [] ->
     StronglySorted orderLe acts /\
     exists evs n,
       events (onCombatTurn randomID host combat turn s).2
         = events s ++ LogTurn (length acts) (tok_name token) :: evs ++ [n] /\
       ledgerWrites evs `sublist_of` dispatched evs /\
       ((n = NotifyInfo (tok_name token) (length acts) /\ handled evs = acts) \/
        (n = NotifyError /\
         exists pre a post, acts = pre ++ a :: post /\ handled evs = pre)) /\
       (Forall (fun a => cond_type (a_conditions a) = ConditionType.ALWAYS) acts ->
        ledgerWrites evs = acts /\ n = NotifyInfo (tok_name token) (length acts))).
Proof.
  split; [|split; [|split; [|split]]].
  - destruct (onCombatTurn randomID host combat turn s) as [r s'] eqn:T.
    destruct (onCombatTurn_events _ _ _ _ _ T)
      as (evs & acts & _ & E & S1 & D1 & S2 & En & _).
    exists evs. split; [done|]. split; [|split].
    + by eapply QueueFacts.StronglySorted_sublist.
    + by eapply QueueFacts.Forall_sublist.
    + apply Forall_forall. intros x Hx.
      rewrite Forall_forall in D1, En. by apply En, D1.
  - intros token s0 res s1 acts L k Hk.
    pose proof (QueueFacts.getEnabledActions_spec randomID token (qst s0))
      as (_ & _ & _ & P2 & _). fold acts in P2.
    destruct (mainLoop_spec _ _ _ _ _ _ (startRun_workflow token acts s0) L)
      as (w1 & evs & L1 & _ & _ & _ & L5 & _ & L7).
    unfold ledgerOf in Hk. rewrite L1 in Hk.
    apply L7 in Hk as [Hk|Hk]; [by inversion Hk|].
    apply list_elem_of_fmap in Hk as (a & -> & Ha).
    exists a. pose proof (elem_of_sublist _ _ _ Ha L5) as Ha'.
    rewrite Forall_forall in P2.
    split; [done|]. split; [by apply P2 | done].
  - intros actions action rest s0 C.
    destruct (shouldExecute host action s0) as [r s0'] eqn:C0.
    pose proof (readonly_shouldExecute _ _ _ _ C0) as ->.
    simpl in C. subst r.
    assert (I : iteration host actions action s0
                = (Ok tt, logged s0 [LogSkipping action])).
    { unfold iteration, bind. by rewrite C0. }
    split; [done|]. split; [done|].
    simpl. unfold bind at 1. by rewrite I.
  - intros actions action s0 w Hw C.
    destruct (iteration host actions action s0) as [res s1] eqn:I.
    destruct (iteration_spec _ _ _ _ _ _ Hw I)
      as (w1 & evs & I1 & _ & _ & I4 & [(_ & _ & _ & N) | (-> & _ & o & O1 & O2 & O3 & O4)]);
      [done|].
    exists o, evs, s1. repeat split; try done.
    unfold ledgerOf. by rewrite I1, Hw.
  - intros token T Ct Own Mgr En G acts Acts.
    pose proof (QueueFacts.getEnabledActions_spec randomID token (qst s))
      as (_ & _ & P1 & _). fold acts in P1. split; [exact P1|].
    destruct (onCombatTurn_run combat turn s token T Ct Own Mgr En Acts)
      as (s1 & R1 & R2 & R3).
    fold acts in R1, R3. rewrite R3.
    unfold executeQueue. rewrite R2, G. unfold tryCatch, runBody, bind.
    destruct (mainLoop host acts acts (startRun host token acts s1))
      as [[[]|e] s2] eqn:L;
      destruct (mainLoop_handled _ _ _ _ _ _ (startRun_workflow token acts s1) L)
        as (evs & L1 & L2 & L3);
      simpl in L1; rewrite R1 in L1.
    + destruct L3 as [(_ & L3) | (e & ? & ? & ? & [=] & _)].
      exists evs, (NotifyInfo (tok_name token) (length acts)).
      split; [simpl; by rewrite L1, <- !app_assoc|].
      split; [done|]. split; [by left|].
      intros Hall.
      destruct (mainLoop_always acts acts _ _ (startRun_workflow token acts s1) Hall)
        as (s3 & evs' & M & M1 & M2).
      rewrite L in M. injection M as <-. simpl in M1. rewrite R1, L1 in M1.
      apply app_inv_head in M1. by subst evs'.
    + destruct L3 as [([=] & _) | (e' & pre & a & post & [= <-] & L3 & L4)].
      exists (evs ++ [ConsoleError e]), NotifyError.
      split; [simpl; by rewrite L1, <- !app_assoc|].
      rewrite ledgerWrites_app, dispatched_app, handled_app, !app_nil_r.
      split; [done|]. split; [right; split; [done|]; by exists pre, a, post|].
      intros Hall.
      destruct (mainLoop_always acts acts _ _ (startRun_workflow token acts s1) Hall)
        as (s3 & evs' & M & _).
      by rewrite L in M.
Qed.

(** ** Attack conditions *)

Lemma scanResults_hit (l : Ledger) :
  scanResults ConditionType.ATTACK_HIT l
    = match firstAttack l with
      | Some r => bool_decide (hit r = Some true)
      | None => true
      end.
Proof.
  unfold firstAttack.
  induction l as [|[k r] l IH]; simpl; [done|].
  by destruct (bool_decide (o_type r = Some "attack")).
Qed.

Lemma scanResults_miss (l : Ledger) :
  scanResults ConditionType.ATTACK_MISS l
    = match firstAttack l with
      | Some r => bool_decide (hit r = Some false)
      | None => true
      end.
Proof.
  unfold firstAttack.
  induction l as [|[k r] l IH]; simpl; [done|].
  by destruct (bool_decide (o_type r = Some "attack")).
Qed.

(** C5: during a run, an [attackHit] ([attackMiss]) condition looks at
    the first entry of the ledger, in insertion order, whose outcome is
    tagged [attack], wherever it is in the ledger, and holds when that
    entry's [hit] is [true] ([false]); with no such entry it holds. On
    the first action of a run the ledger is empty, so the condition
    holds. *)
Theorem attack_condition_first_attack_entry action s w :
  currentWorkflow s = Some w ->
  (cond_type (a_conditions action) = ConditionType.ATTACK_HIT ->
   shouldExecute host action s
     = (Ok match firstAttack (wf_results w) with
           | Some r => bool_decide (hit r = Some true)
           | None => true
           end, s)) /\
  (cond_type (a_conditions action) = ConditionType.ATTACK_MISS ->
   shouldExecute host action s
     = (Ok match firstAttack (wf_results w) with
           | Some r => bool_decide (hit r = Some false)
           | None => true
           end, s)) /\
  (forall pre k r post,
     wf_results w = pre ++ (k, r) :: post ->
     Forall (fun e => o_type e.2 <> Some "attack") pre ->
     o_type r = Some "attack" ->
     firstAttack (wf_results w) = Some r) /\
  (Forall (fun e => o_type e.2 <> Some "attack") (wf_results w) ->
   firstAttack (wf_results w) = None) /\
  (forall token actions s0,
     cond_type (a_conditions action) = ConditionType.ATTACK_HIT \/
     cond_type (a_conditions action) = ConditionType.ATTACK_MISS ->
     shouldExecute host action (startRun host token actions s0)
       = (Ok true, startRun host token actions s0)).
Proof.
  intros Hw.
  assert (FA : forall pre (l : Ledger),
             Forall (fun e => o_type e.2 <> Some "attack") pre ->
             firstAttack (pre ++ l) = firstAttack l).
  { intros pre l. unfold firstAttack.
    induction 1 as [|[k r] pre Hn _ IH]; simpl; [done|].
    simpl in Hn. by rewrite bool_decide_eq_false_2. }
  split; [|split; [|split; [|split]]].
  - intros E. unfold shouldExecute. rewrite E. simpl.
    unfold checkPreviousAttackResult, bind, workflow. rewrite Hw, E.
    unfold ret. by rewrite scanResults_hit.
  - intros E. unfold shouldExecute. rewrite E. simpl.
    unfold checkPreviousAttackResult, bind, workflow. rewrite Hw, E.
    unfold ret. by rewrite scanResults_miss.
  - intros pre k r post -> Hpre Hr. rewrite FA by done.
    unfold firstAttack. simpl. by rewrite bool_decide_eq_true_2.
  - intros Hall. rewrite <- (app_nil_r (wf_results w)). by rewrite FA.
  - intros token actions s0 [E|E]; unfold shouldExecute; rewrite E; simpl;
      unfold checkPreviousAttackResult, bind, workflow; by rewrite E.
Qed.

(** During a run [this.currentWorkflow.actor] is [undefined], so
    [checkHPThreshold] with a value to compare against throws on
    [actor.system], before it reads the value. *)
Lemma checkHPThreshold_throws action s w value :
  currentWorkflow s = Some w ->
  truthy (cond_value (a_conditions action)) = Some value ->
  checkHPThreshold host action s
    = (Throw (TypeError "Cannot read properties of undefined"), s).
Proof.
  intros Hw Hv. unfold checkHPThreshold, bind, workflow. by rewrite Hv, Hw.
Qed.

End Facts.

Import Fixtures.

Lemma executeQueue_single_flight_witness :
  executing busy = true /\
  executeQueue testHost goblin [actC] busy = (Ok tt, logged busy [LogAlreadyExecuting]).
Proof.
  split; [reflexivity|].
  exact (proj1 (executeQueue_single_flight testHost goblin [actC] busy eq_refl)).
Defined.

Lemma turn_run_in_order_enabled_only_witness :
  (shouldExecute testHost healB afterHit).1 = Ok false /\
  iteration testHost [strike; healB] healB afterHit
    = (Ok tt, logged afterHit [LogSkipping healB]) /\
  (getEnabledActions testRandomID goblin (qst (idle [strike; healB]))).1
    = [strike; healB] /\
  exists evs n,
    events (onCombatTurn testRandomID testHost goblinsTurn (Some 1)
              (idle [strike; healB])).2
      = events (idle [strike; healB]) ++ LogTurn 2 "Goblin" :: evs ++ [n] /\
    ledgerWrites evs `sublist_of` dispatched evs /\
    ((n = NotifyInfo "Goblin" 2 /\ handled evs = [strike; healB]) \/
     (n = NotifyError /\
      exists pre a post, [strike; healB] = pre ++ a :: post /\ handled evs = pre)).
Proof.
  pose proof (turn_run_in_order_enabled_only testRandomID testHost goblinsTurn (Some 1)
                (idle [strike; healB])) as (_ & _ & H3 & _ & H5).
  split; [reflexivity|].
  split; [exact (proj1 (H3 [strike; healB] healB [] afterHit eq_refl))|].
  split; [reflexivity|].
  assert (N : (getEnabledActions testRandomID goblin (qst (idle [strike; healB]))).1
              <> []) by (vm_compute; discriminate).
  destruct (H5 goblin eq_refl eq_refl eq_refl eq_refl eq_refl eq_refl N)
    as (_ & evs & n & E1 & E2 & E3 & _).
  exists evs, n. split; [exact E1|]. split; [exact E2 | exact E3].
Defined.


Lemma attack_condition_first_attack_entry_witness :
  currentWorkflow afterHit
    = Some (mkWorkflow goblin [strike; healB] [("S", hitOutcome)]
              (mkContext (Some "actor1") goblin (Some "combat1"))) /\
  shouldExecute testHost healB afterHit = (Ok false, afterHit).
Proof.
  split; [reflexivity|].
  exact (proj1 (proj2 (attack_condition_first_attack_entry testHost healB afterHit _
                         eq_refl)) eq_refl).
Defined.

(** C1, as stated, fails on a turn: the stored queue holds [actA], whose
    [onSuccess] names [actB], and [actB], which is disabled; [actA] is
    dispatched and succeeds, and [actB] is never dispatched. *)
Lemma disabled_branch_target_not_dispatched_on_turn :
  let s' := (onCombatTurn testRandomID testHost goblinsTurn (Some 1)
               (idle [actA; actB; actC])).2 in
  (getQueue testRandomID goblin (stored [actA; actB; actC])).1 = [actA; actB; actC] /\
  a_onSuccess actA = Some (a_id actB) /\
  a_enabled actB = false /\
  success turnEnded = true /\
  events s' = [LogTurn 2 "Goblin";
               LogExecuting actA; LedgerSet actA turnEnded;
               LogExecuting actC; LedgerSet actC turnEnded;
               NotifyInfo "Goblin" 2] /\
  actB ∉ dispatched (events s').
Proof.
  vm_compute. repeat split.
  intros H. apply list_elem_of_In in H. simpl in H.
  destruct H as [H|[H|[]]]; discriminate H.
Qed.

Lemma branch_target_found_in_given_list_witness :
  shouldExecute testHost actA (started [actA; actB; actC])
    = (Ok true, started [actA; actB; actC]) /\
  a_enabled actB = false /\ (a_order actC < a_order actB)%Z /\
  exists s2,
    iteration testHost [actA; actB; actC] actA (started [actA; actB; actC])
      = (Ok tt, (executeAction testHost actB s2).2).
Proof.
  split; [reflexivity|]. split; [reflexivity|]. split; [reflexivity|].
  eexists.
  exact (proj1 (proj2 (proj2
    (proj1 (branch_target_found_in_given_list testRandomID testHost
              [actA; actB; actC] actA (started [actA; actB; actC]) _ turnEnded
              (logged (started [actA; actB; actC]) [LogExecuting actA])
              eq_refl eq_refl eq_refl)
       "B" actB eq_refl eq_refl)))).
Defined.

(** C7, as stated, fails: in a run of [strike; healB] the strike hits and
    branches to [healB], which is dispatched and whose outcome is
    dropped; the main loop then skips [healB], whose condition wants a
    miss. At the end of the loop the ledger has the strike's entry only. *)
Lemma branch_outcome_missing_from_ledger :
  let s' := (runBody testHost goblin [strike; healB] (started [strike; healB])).2 in
  a_onSuccess strike = Some (a_id healB) /\
  events s' = [LogExecuting strike; LedgerSet strike hitOutcome;
               LogExecuting healB; LogSkipping healB;
               NotifyInfo "Goblin" 2] /\
  ledgerOf s' = [("S", hitOutcome)] /\
  ledgerHas (a_id healB) (ledgerOf s') = false /\
  st_actionsCompleted (getStatus s') = 1%nat /\
  length (dispatched (events s')) = 2%nat.
Proof. vm_compute. repeat split. Qed.

Lemma branch_outcome_not_recorded_witness :
  currentWorkflow (started [strike; healB])
    = Some (mkWorkflow goblin [strike; healB] []
              (mkContext (Some "actor1") goblin (Some "combat1"))) /\
  (shouldExecute testHost strike (started [strike; healB])).1 = Ok true /\
  exists o evs,
    ledgerOf (iteration testHost [strike; healB] strike (started [strike; healB])).2
      = ledgerSet "S" o [] /\
    dispatched evs = [strike; healB].
Proof.
  split; [reflexivity|]. split; [reflexivity|].
  destruct (proj1 (branch_outcome_not_recorded testHost [strike; healB])
              strike (started [strike; healB]) _ _ _ eq_refl eq_refl eq_refl)
    as (o & evs & H1 & _ & H3 & _ & H5 & _).
  exists o, evs. split; [exact H5|].
  injection H1 as <-. exact H3.
Defined.

(** The comparator pattern is searched for anywhere in the value, and a
    blank between the operator's two characters breaks it. *)
Example regexMatch_examples :
  regexMatch "< 50" = Some ("<", "50") /\
  regexMatch ">=75" = Some (">=", "75") /\
  regexMatch "hp <= 50%" = Some ("<=", "50") /\
  regexMatch "<<5" = Some ("<", "5") /\
  regexMatch "< = 5" = None /\
  regexMatch "low" = None.
Proof. repeat split. Qed.

(** [bonusAction] and [reaction] are action types without a case in
    [executeAction]. *)
Example reaction_is_unknown :
  knownType ActionType.REACTION = false /\
  knownType ActionType.BONUS_ACTION = false /\
  (executeAction testHost
     (mkItem "R" ActionType.REACTION 0 true "Shield" "" always emptyPayload None None)
     busy).1 = Ok (failed "Unknown action type").
Proof. repeat split. Qed.

(** A run given a list by hand does not look at [enabled]: the disabled
    [actB] is dispatched as the branch target of [actA] and again by the
    main loop. *)
Example direct_run_ignores_enabled :
  dispatched (events (executeQueue testHost goblin [actA; actB; actC] (idle [])).2)
    = [actA; actB; actB; actC].
Proof. reflexivity. Qed.

(** C6: the quick start guide's potion, to be drunk when hit points are
    below 50 percent, on a token with 40 of 100 hit points. The comparison
    the condition means holds, so the potion should be used; the run
    instead ends on the [TypeError] of [actor.system], with the error
    notification and nothing dispatched. *)
Theorem hpThreshold_condition_throws_in_run :
  let s' := (onCombatTurn testRandomID testHost goblinsTurn (Some 1) (idle [potion])).2 in
  compareHP "<" (40 / 100 * 100)%float (floatOfZ 50) = true /\
  compareHP "<" (50 / 100 * 100)%float (floatOfZ 50) = false /\
  compareHP "<=" (50 / 100 * 100)%float (floatOfZ 50) = true /\
  regexMatch "< 50" = Some ("<", "50") /\
  shouldExecute testHost potion (started [potion])
    = (Throw (TypeError "Cannot read properties of undefined"), started [potion]) /\
  events s' = [LogTurn 1 "Goblin";
               ConsoleError (TypeError "Cannot read properties of undefined");
               NotifyError] /\
  dispatched (events s') = [].
Proof. repeat split; vm_compute; reflexivity. Qed.

End ExecutorFacts.

(** * More properties of the queue manager *)
Module QueueLaws.
Import Queue QueueShape QueueFacts.
Local Open Scope list_scope.
Local Open Scope qm_scope.

Lemma truthy_Some_ne s : s <> "" -> truthy (Some s) = Some s.
Proof.
  intros H. simpl. destruct (String.eqb s "") eqn:E; [|done].
  by apply String.eqb_eq in E.
Qed.

Lemma truthy_ne_empty o : o <> Some "" -> truthy o = o.
Proof.
  destruct o as [s|]; [|done]. intros H. apply truthy_Some_ne. congruence.
Qed.

Lemma or_default_Some_ne s d : s <> "" -> or_default (Some s) d = s.
Proof. intros H. unfold or_default. by rewrite truthy_Some_ne. Qed.

Lemma construct_wellFormed a :
  wellFormed a -> construct (a_id a) (toObject a) = a.
Proof.
  intros (H1 & H2 & H3 & H4 & H5). destruct a as [i ty o en n d c p os ofl].
  unfold construct, toObject; simpl in *.
  rewrite !or_default_Some_ne, !truthy_ne_empty by done.
  f_equal; [by destruct en|].
  unfold or_default. simpl. by destruct (String.eqb d "") eqn:E; [apply String.eqb_eq in E|].
Qed.

Lemma renumber_lookup l : forall base (k : nat) a,
  renumber base l !! k = Some a ->
  exists a0, l !! k = Some a0 /\ a = set_order (base + Z.of_nat k) a0.
Proof.
  induction l as [|x l IH]; intros base k a; simpl; [done|].
  destruct k as [|k]; simpl.
  - intros [= <-]. exists x. by rewrite Z.add_0_r.
  - intros H. destruct (IH _ _ _ H) as (a0 & H0 & ->).
    exists a0. split; [done|]. f_equal. lia.
Qed.

Lemma renumber_length l : forall base, length (renumber base l) = length l.
Proof. induction l as [|x l IH]; intros base; simpl; [done|]. by rewrite IH. Qed.

Lemma renumber_identity l : forall base,
  map identity (renumber base l) = map identity l.
Proof. induction l as [|x l IH]; intros base; simpl; [done|]. by rewrite IH. Qed.

Lemma renumber_dense l : forall base,
  denseFrom base l -> renumber base l = l.
Proof.
  induction l as [|x l IH]; intros base H; simpl; [done|].
  f_equal.
  - pose proof (H O x eq_refl) as E. simpl in E. rewrite Z.add_0_r in E.
    destruct x. simpl in *. by subst.
  - apply IH. intros k a Hk. rewrite (H (S k) a Hk). lia.
Qed.

Section Laws.

Variable randomID : nat -> string.
Variable JsonText : Type.
Variable stringify : ExportDoc -> JsonText.
Variable parse : JsonText -> option ImportData.

Abbreviation fromObject := (fromObject randomID).
Abbreviation getQueue := (getQueue randomID).
Abbreviation removeAction := (removeAction randomID).
Abbreviation addAction := (addAction randomID).
Abbreviation updateAction := (updateAction randomID).
Abbreviation reorderActions := (reorderActions randomID).
Abbreviation duplicateAction := (duplicateAction randomID).
Abbreviation getSortedActions := (getSortedActions randomID).
Abbreviation importQueue := (importQueue randomID JsonText parse).
Abbreviation exportQueue := (exportQueue randomID JsonText stringify).
Abbreviation runMutation := (runMutation randomID JsonText parse).

(** Reading well-formed stored items back draws no id and changes
    nothing. *)
Lemma mapQ_fromObject_wellFormed q : forall s,
  Forall wellFormed q ->
  mapQ fromObject (map toObject q) s = (q, s).
Proof.
  induction q as [|a q IH]; intros s H; simpl; [done|].
  apply Forall_cons in H as [Ha H].
  unfold qbind, Queue.fromObject at 1, qret.
  pose proof Ha as (Hid & _). simpl.
  destruct (String.eqb (a_id a) "") eqn:E; [by apply String.eqb_eq in E|].
  unfold qbind, qret. rewrite (IH s H).
  by rewrite (construct_wellFormed a Ha).
Qed.

(** X1: [getQueue] after [setQueue] gives back the items stored, when they
    are well formed, and draws no id. *)
Theorem getQueue_setQueue t q s :
  Forall wellFormed q ->
  getQueue t (setQueue t q s).2 = (q, (setQueue t q s).2).
Proof.
  intros H. rewrite setQueue_spec. unfold Queue.getQueue, qbind, getFlag. simpl.
  rewrite lookup_insert_eq. simpl. by apply mapQ_fromObject_wellFormed.
Qed.


(** ** removeAction *)

Lemma renumber_Forall (P : ActionQueueItem -> Prop) l : forall base,
  (forall o a, P a -> P (set_order o a)) ->
  Forall P l -> Forall P (renumber base l).
Proof.
  induction l as [|x l IH]; intros base HP H; simpl; [done|].
  apply Forall_cons in H as [Hx H]. constructor; [by apply HP | by apply IH].
Qed.

Lemma filter_all {A} (P : A -> Prop) `{!forall x, Decision (P x)} (l : list A) :
  Forall P l -> filter P l = l.
Proof.
  induction 1 as [|x l Hx _ IH]; [done|].
  by rewrite filter_cons_True, IH.
Qed.

(** X2: [removeAction] always stores (and returns [true]); the stored
    queue has no action of the given id, keeps the other actions, with
    their ids and contents, in their sequence, and numbers them 0, 1, ...;
    with an id no action has, nothing is removed. *)
Theorem removeAction_removes_and_renumbers t i s :
  let q := (getQueue t s).1 in
  exists Q,
    removeAction t i s
      = (true, mkQSt (<[tok_id t := mkEnvelope "1.0.0" true (map toObject Q)]> (flags s))
                     (drawn (getQueue t s).2)) /\
    Forall (fun a => a_id a <> i) Q /\
    denseFrom 0 Q /\
    map identity Q = map identity (filter (fun a => a_id a ≠ i) q) /\
    (Forall (fun a => a_id a <> i) q -> map identity Q = map identity q).
Proof.
  intros q. unfold Queue.removeAction, qbind.
  destruct (getQueue t s) as [q0 s1] eqn:E. simpl in q. subst q.
  apply getQueue_spec in E as (F & _ & _).
  exists (renumber 0 (filter (fun a => a_id a ≠ i) q0)).
  split; [by rewrite setQueue_spec, F|]. split; [|split; [|split]].
  - apply renumber_Forall; [done|].
    apply Forall_forall. by intros a [Ha _]%list_elem_of_filter.
  - intros k a Hk. by destruct (renumber_lookup _ _ _ _ Hk) as (a0 & _ & ->).
  - apply renumber_identity.
  - intros H. by rewrite renumber_identity, filter_all.
Qed.

(** ** addAction, then removeAction *)

Lemma wellFormed_set_order o a : wellFormed a -> wellFormed (set_order o a).
Proof. by intros (?&?&?&?&?). Qed.

(** X3: adding an action and removing it again gives back the queue,
    when the queue is well formed and numbered 0, 1, ... and the new
    action's id is not in it. The added action is stored last, with the
    queue's length as its order, whatever order it came with. *)
Theorem removeAction_addAction t a s :
  let q := (getQueue t s).1 in
  let s1 := (addAction t a s).2 in
  let s2 := (removeAction t (a_id a) s1).2 in
  Forall wellFormed q -> denseFrom 0 q -> wellFormed a ->
  Forall (fun b => a_id b <> a_id a) q ->
  (getQueue t s1).1 = q ++ [set_order (Z.of_nat (length q)) a] /\
  (getQueue t s2).1 = q /\
  flags s2 = <[tok_id t := mkEnvelope "1.0.0" true (map toObject q)]> (flags s).
Proof.
  intros q s1 s2 Hq Hd Ha Hn.
  assert (E1 : s1 = (setQueue t (q ++ [set_order (Z.of_nat (length q)) a])
                       (getQueue t s).2).2).
  { unfold s1, Queue.addAction, qbind, q. by destruct (getQueue t s). }
  assert (W1 : Forall wellFormed (q ++ [set_order (Z.of_nat (length q)) a])).
  { apply Forall_app. split; [done|]. constructor; [|done]. by apply wellFormed_set_order. }
  pose proof (getQueue_setQueue t _ (getQueue t s).2 W1) as G1.
  rewrite <- E1 in G1.
  assert (Ff : filter (fun b => a_id b ≠ a_id a)
                 (q ++ [set_order (Z.of_nat (length q)) a]) = q).
  { rewrite filter_app, filter_all by done.
    rewrite filter_cons_False; [by rewrite app_nil_r|]. simpl. by intros H. }
  assert (E2 : s2 = (setQueue t q s1).2).
  { unfold s2, Queue.removeAction, qbind. rewrite G1, Ff. by rewrite renumber_dense. }
  split; [by rewrite G1|]. split.
  - rewrite E2. by rewrite getQueue_setQueue.
  - rewrite E2, E1, !setQueue_spec. simpl. rewrite insert_insert_eq.
    destruct (getQueue t s) as [q0 s0] eqn:E0.
    apply getQueue_spec in E0 as (F & _ & _). simpl. by rewrite F.
Qed.

(** ** getSortedActions *)

(** X4: [getSortedActions] returns the actions of the queue, each once,
    in non-decreasing order, the actions of one order in their stored
    sequence; it reads the flag as [getQueue] does and stores nothing. *)
Theorem getSortedActions_stable_sort t s :
  let q := (getQueue t s).1 in
  let r := (getSortedActions t s).1 in
  r ≡ₚ q /\
  StronglySorted orderLe r /\
  (forall o, filter (fun x => a_order x = o) r = filter (fun x => a_order x = o) q) /\
  (getSortedActions t s).2 = (getQueue t s).2 /\
  flags (getSortedActions t s).2 = flags s.
Proof.
  intros q r. unfold r, q, Queue.getSortedActions, qbind, qret.
  destruct (getQueue t s) as [q0 s1] eqn:E. simpl.
  apply getQueue_spec in E as (F & _ & _).
  split; [apply sortByOrder_Permutation|].
  split; [apply sortByOrder_sorted|].
  split; [intros o; apply sortByOrder_stable | done].
Qed.


(** ** updateAction *)

Lemma findIndex_None i l :
  findIndex i l = None <-> Forall (fun a => a_id a <> i) l.
Proof.
  induction l as [|a l IH]; simpl; [by split; [constructor|]|].
  destruct (String.eqb (a_id a) i) eqn:E.
  - apply String.eqb_eq in E. split; [done|]. by intros [H _]%Forall_cons.
  - apply String.eqb_neq in E. rewrite Forall_cons, <- IH.
    destruct (findIndex i l); simpl; [split; [done | by intros [_ ?]] | tauto].
Qed.

(** [findIndex] gives the first position of the id. *)
Lemma findIndex_Some i l (k : nat) :
  findIndex i l = Some k <->
  (exists a, l !! k = Some a /\ a_id a = i) /\ Forall (fun a => a_id a <> i) (take k l).
Proof.
  revert k. induction l as [|a l IH]; intros k; simpl.
  - split; [done|]. by intros [(a & H & _) _].
  - destruct (String.eqb (a_id a) i) eqn:E.
    + apply String.eqb_eq in E. split.
      * intros [= <-]. split; [by exists a | constructor].
      * intros [_ H]. destruct k as [|k]; [done|].
        simpl in H. by apply Forall_cons in H as [H _].
    + apply String.eqb_neq in E. destruct k as [|k]; simpl.
      * split; [by destruct (findIndex i l)|]. intros [(a0 & [= <-] & H) _]. done.
      * rewrite Forall_cons. specialize (IH k).
        destruct (findIndex i l) as [k'|]; simpl.
        -- split.
           ++ intros [= ->]. destruct IH as [IH _].
              destruct (IH eq_refl) as [H1 H2]. by repeat split.
           ++ intros [H1 [_ H2]]. destruct IH as [_ IH].
              by injection (IH (conj H1 H2)) as ->.
        -- split; [done|]. intros [H1 [_ H2]]. destruct IH as [_ IH].
           by specialize (IH (conj H1 H2)).
Qed.

(** X5: [updateAction] with an id no action has returns [false] and
    stores nothing; otherwise it stores the queue with the updates
    assigned to the first action of that id, every other position as it
    was. *)
Theorem updateAction_first_match_only t i u s :
  let q := (getQueue t s).1 in
  let r := updateAction t i u s in
  (Forall (fun a => a_id a <> i) q -> r.1 = false /\ flags r.2 = flags s) /\
  (forall (k : nat) a,
     q !! k = Some a -> a_id a = i -> Forall (fun b => a_id b <> i) (take k q) ->
     exists Q,
       r.1 = true /\
       flags r.2 = <[tok_id t := mkEnvelope "1.0.0" true (map toObject Q)]> (flags s) /\
       length Q = length q /\
       Q !! k = Some (assign a u) /\
       (forall j : nat, j <> k -> Q !! j = q !! j)).
Proof.
  intros q r. unfold r, q, Queue.updateAction, qbind.
  destruct (getQueue t s) as [q0 s1] eqn:E. simpl.
  apply getQueue_spec in E as (F & _ & _).
  split.
  - intros H. apply findIndex_None in H. by rewrite H.
  - intros k a Hk Hi Hf.
    assert (FI : findIndex i q0 = Some k) by (apply findIndex_Some; eauto).
    rewrite FI, setQueue_spec. simpl.
    exists (alter (fun a => assign a u) k q0).
    split; [done|]. split; [by rewrite F|]. split; [apply length_alter|].
    split; [by rewrite list_lookup_alter_eq, Hk|].
    intros j Hj. by apply list_lookup_alter_ne.
Qed.

(** ** reorderActions *)

Lemma findIndex_ids i l l' :
  map a_id l = map a_id l' -> findIndex i l = findIndex i l'.
Proof.
  revert l'. induction l as [|a l IH]; intros [|a' l']; simpl; try done.
  intros [= E1 E2]. rewrite E1. by rewrite (IH l' E2).
Qed.

Lemma alter_set_order_ids o (k : nat) l :
  map a_id (alter (set_order o) k l) = map a_id l.
Proof.
  revert k. induction l as [|a l IH]; intros [|k]; simpl; try done.
  f_equal. apply IH.
Qed.

Lemma alter_set_order_identity o (k : nat) l :
  map identity (alter (set_order o) k l) = map identity l.
Proof.
  revert k. induction l as [|a l IH]; intros [|k]; simpl; try done.
  f_equal. apply IH.
Qed.

Lemma find_identity i l l' :
  map identity l = map identity l' ->
  identity <$> Queue.find i l = identity <$> Queue.find i l'.
Proof.
  intros H. unfold Queue.find.
  assert (Hi : map a_id l = map a_id l').
  { apply (f_equal (map fst)) in H. by rewrite !map_map in H. }
  rewrite (findIndex_ids i l l' Hi).
  destruct (findIndex i l') as [k|]; simpl; [|done].
  apply (f_equal (fun x => x !! k)) in H. by rewrite !list_lookup_fmap in H.
Qed.

Lemma omap_cons' {A B} (f : A -> option B) x l :
  omap f (x :: l) = match f x with Some y => y :: omap f l | None => omap f l end.
Proof. done. Qed.

(** The loop of [reorderActions] pushes, for every id it finds, the
    position of the first action of that id, and changes orders only. *)
Lemma reorderLoop_spec ids : forall idx queue refs queue' refs',
  reorderLoop ids idx queue refs = (queue', refs') ->
  map identity queue' = map identity queue /\
  exists new,
    refs' = refs ++ new /\
    omap (fun k => queue' !! k) new
      = omap (fun i => Queue.find i queue') ids.
Proof.
  induction ids as [|i ids IH]; intros idx queue refs queue' refs'; cbn [reorderLoop].
  - intros [= <- <-]. split; [done|]. exists []. by rewrite app_nil_r.
  - destruct (findIndex i queue) as [k|] eqn:F.
    + intros H. apply IH in H as (H1 & new & -> & H2).
      rewrite alter_set_order_identity in H1. split; [done|].
      exists (k :: new). split; [by rewrite <- app_assoc|].
      assert (Hi : map a_id queue' = map a_id queue).
      { apply (f_equal (map fst)) in H1. by rewrite !map_map in H1. }
      assert (Fq : Queue.find i queue' = queue' !! k).
      { unfold Queue.find. by rewrite (findIndex_ids i queue' queue Hi), F. }
      rewrite !omap_cons', Fq, H2. done.
    + intros H. apply IH in H as (H1 & new & -> & H2).
      split; [done|]. exists new. split; [done|].
      assert (Hi : map a_id queue' = map a_id queue).
      { apply (f_equal (map fst)) in H1. by rewrite !map_map in H1. }
      rewrite omap_cons'. unfold Queue.find at 1.
      by rewrite (findIndex_ids i queue' queue Hi), F.
Qed.

Lemma omap_fmap_identity (f g : string -> option ActionQueueItem) ids :
  (forall i, identity <$> f i = identity <$> g i) ->
  map identity (omap f ids) = map identity (omap g ids).
Proof.
  intros H. induction ids as [|i ids IH]; [done|].
  rewrite !omap_cons'. pose proof (H i) as Hi.
  destruct (f i) as [a|], (g i) as [b|]; try done.
  assert (E : identity a = identity b) by (simpl in Hi; congruence).
  cbn [map]. by rewrite E, IH.
Qed.

Lemma reorderLoop_frame ids : forall idx queue refs queue' refs',
  reorderLoop ids idx queue refs = (queue', refs') ->
  forall (k : nat) a, queue !! k = Some a -> a_id a ∉ ids -> queue' !! k = Some a.
Proof.
  induction ids as [|i ids IH]; intros idx queue refs queue' refs'; cbn [reorderLoop].
  - by intros [= <- <-].
  - intros H k a Hk Hn. apply not_elem_of_cons in Hn as [Hi Hn].
    destruct (findIndex i queue) as [k0|] eqn:F.
    + apply (IH _ _ _ _ _ H); [|done].
      apply findIndex_Some in F as [(a0 & Ha0 & Hid) _].
      rewrite list_lookup_alter_ne; [done|]. intros ->. congruence.
    + by apply (IH _ _ _ _ _ H).
Qed.

Lemma denseFrom_cons base x l :
  a_order x = base -> denseFrom (base + 1) l -> denseFrom base (x :: l).
Proof.
  intros Hx Hl [|k] a; simpl.
  - intros [= <-]. lia.
  - intros Hk. rewrite (Hl k a Hk). lia.
Qed.

(** With ids that are all found and all different, the orders stored are
    the places of the ids in the list given. *)
Lemma reorderLoop_orders ids : forall idx queue refs queue' refs',
  NoDup ids -> Forall (fun i => i ∈ map a_id queue) ids ->
  reorderLoop ids idx queue refs = (queue', refs') ->
  exists new, refs' = refs ++ new /\ denseFrom idx (omap (fun k => queue' !! k) new).
Proof.
  induction ids as [|i ids IH]; intros idx queue refs queue' refs' Hnd Hin;
    cbn [reorderLoop].
  - intros [= <- <-]. exists []. split; [by rewrite app_nil_r | by intros k a].
  - apply NoDup_cons in Hnd as [Hi Hnd]. apply Forall_cons in Hin as [Hi' Hin].
    destruct (findIndex i queue) as [k0|] eqn:F.
    + intros H. pose proof F as F'.
      apply findIndex_Some in F' as [(a0 & Ha0 & Hid) _].
      assert (Hin' : Forall (fun i => i ∈ map a_id (alter (set_order idx) k0 queue)) ids)
        by (by rewrite alter_set_order_ids).
      destruct (IH _ _ _ _ _ Hnd Hin' H) as (new & -> & Hd).
      exists (k0 :: new). split; [by rewrite <- app_assoc|].
      rewrite omap_cons'.
      rewrite (reorderLoop_frame _ _ _ _ _ _ H k0 (set_order idx a0)).
      * by apply denseFrom_cons.
      * by rewrite list_lookup_alter_eq, Ha0.
      * simpl. by rewrite Hid.
    + apply findIndex_None in F. rewrite Forall_forall in F.
      apply list_elem_of_fmap in Hi' as (b & -> & Hb). by destruct (F b Hb).
Qed.

Lemma omap_length_le {A B} (f : A -> option B) l :
  (length (omap f l) <= length l)%nat.
Proof.
  induction l as [|x l IH]; [done|].
  rewrite omap_cons'. destruct (f x); simpl; lia.
Qed.

Lemma omap_find_ids q ids :
  map a_id (omap (fun i => Queue.find i q) ids)
    = filter (fun i => i ∈ map a_id q) ids.
Proof.
  induction ids as [|i ids IH]; [done|].
  rewrite omap_cons', filter_cons.
  destruct (Queue.find i q) as [b|] eqn:Fb.
  - apply ExecutorFacts.find_Some in Fb as [Hb <-].
    rewrite decide_True; [cbn [map]; by rewrite IH|].
    apply list_elem_of_fmap. by exists b.
  - rewrite decide_False; [done|].
    intros (b & -> & Hb)%list_elem_of_fmap.
    unfold Queue.find in Fb.
    destruct (findIndex (a_id b) q) as [k|] eqn:Fk.
    + apply findIndex_Some in Fk as [(a0 & Ha0 & _) _]. simpl in Fb. congruence.
    + apply findIndex_None in Fk. rewrite Forall_forall in Fk. by apply (Fk b).
Qed.

(** X6: [reorderActions] stores, for each of the given ids in turn, the
    first action of the queue with that id (its id and content as they
    were); ids that no action has are passed over, and the actions whose
    id is not given are dropped from the queue. When the ids given are
    all different and all found, the orders stored are 0, 1, ... *)
Theorem reorderActions_keeps_listed_only t ids s :
  let q := (getQueue t s).1 in
  exists Q,
    reorderActions t ids s
      = (true, mkQSt (<[tok_id t := mkEnvelope "1.0.0" true (map toObject Q)]> (flags s))
                     (drawn (getQueue t s).2)) /\
    map identity Q = map identity (omap (fun i => Queue.find i q) ids) /\
    map a_id Q = filter (fun i => i ∈ map a_id q) ids /\
    (length Q <= length ids)%nat /\
    (NoDup ids -> Forall (fun i => i ∈ map a_id q) ids -> denseFrom 0 Q).
Proof.
  intros q. unfold Queue.reorderActions, qbind.
  destruct (getQueue t s) as [q0 s1] eqn:E. simpl in q. subst q.
  apply getQueue_spec in E as (F & _ & _).
  destruct (reorderLoop ids 0 q0 []) as [q' refs] eqn:R.
  pose proof R as R'.
  apply reorderLoop_spec in R as (H1 & new & -> & H2). simpl in H2.
  exists (omap (fun k => q' !! k) new).
  split; [by rewrite setQueue_spec, F|].
  assert (HI : map identity (omap (fun k => q' !! k) new)
               = map identity (omap (fun i => Queue.find i q0) ids)).
  { rewrite H2. apply omap_fmap_identity. intros i. by apply find_identity. }
  split; [done|]. split; [|split].
  - apply (f_equal (map fst)) in HI. rewrite !map_map in HI. simpl in HI.
    change (map (fun x => a_id x)) with (map a_id) in HI. rewrite HI.
    apply omap_find_ids.
  - rewrite <- (length_map identity), HI, length_map. apply omap_length_le.
  - intros Hnd Hin.
    destruct (reorderLoop_orders _ _ _ _ _ _ Hnd Hin R') as (new' & E & Hd).
    simpl in E. by subst new'.
Qed.


(** ** duplicateAction *)

Lemma find_None i l :
  Forall (fun a => a_id a <> i) l -> Queue.find i l = None.
Proof. intros H. apply findIndex_None in H. unfold Queue.find. by rewrite H. Qed.

(** X7: [duplicateAction] with an id no action has returns [false] and
    stores nothing; otherwise it stores the queue with one more action at
    its end: the first action of that id again, under an id drawn from
    [randomID] for it, with [" (Copy)"] added to the name and the old
    length of the queue as order. *)
Theorem duplicateAction_appends_copy t i s :
  let q := (getQueue t s).1 in
  let r := duplicateAction t i s in
  (Forall (fun a => a_id a <> i) q -> r.1 = false /\ flags r.2 = flags s) /\
  (forall a, Queue.find i q = Some a ->
     exists c,
       (drawn s <= c)%nat /\ r.1 = true /\
       flags r.2
         = <[tok_id t := mkEnvelope "1.0.0" true
               (map toObject
                  (q ++ [set_order (Z.of_nat (length q))
                           (set_name (a_name a ++ " (Copy)")%string
                              (set_id (randomID c) a))]))]> (flags s)).
Proof.
  intros q r. unfold r, q, Queue.duplicateAction, qbind.
  destruct (getQueue t s) as [q0 s1] eqn:E. simpl.
  apply getQueue_spec in E as (F & D & H2).
  split.
  - intros H. by rewrite (find_None _ _ H).
  - intros a Ha. rewrite Ha.
    assert (Hc : exists i0 d, a = construct i0 d).
    { apply ExecutorFacts.find_Some in Ha as [Ha _].
      apply list_elem_of_lookup in Ha as [k Hk].
      destruct (Forall2_lookup_r _ _ _ _ _ H2 Hk) as (d & _ & i0 & ->). eauto. }
    destruct Hc as (i0 & d & ->).
    destruct (Queue.fromObject randomID (toObject (construct i0 d)) s1) as [dup s2] eqn:E2.
    apply fromObject_spec in E2 as ((j & ->) & F2 & D2).
    unfold freshID. rewrite setQueue_spec. simpl.
    exists (drawn s2). split; [lia|]. split; [done|].
    rewrite F2, F. by rewrite construct_toObject.
Qed.

(** ** setQueueEnabled *)

Lemma fromObject_eq d s :
  fromObject d s
    = match truthy (raw_id d) with
      | Some x => (construct x d, s)
      | None => (construct (randomID (drawn s)) d, mkQSt (flags s) (S (drawn s)))
      end.
Proof. unfold Queue.fromObject, qbind, qret, freshID. by destruct (truthy (raw_id d)). Qed.

Lemma mapQ_fromObject_drawn l : forall s s',
  drawn s = drawn s' ->
  exists l' n,
    mapQ fromObject l s = (l', mkQSt (flags s) n) /\
    mapQ fromObject l s' = (l', mkQSt (flags s') n).
Proof.
  induction l as [|d l IH]; intros s s' H; simpl.
  - exists [], (drawn s). unfold qret. rewrite H at 2. by destruct s, s'.
  - unfold qbind, qret. rewrite !fromObject_eq.
    destruct (truthy (raw_id d)) as [x|]; simpl.
    + destruct (IH s s' H) as (l' & n & -> & ->). by exists (construct x d :: l'), n.
    + destruct (IH (mkQSt (flags s) (S (drawn s))) (mkQSt (flags s') (S (drawn s'))))
        as (l' & n & E1 & E2); [simpl; congruence|].
      rewrite E1, E2. simpl. rewrite H. by eexists _, _.
Qed.

(** X8: [setQueueEnabled] stores the flag it is given and nothing else:
    [isQueueEnabled] afterwards is that flag, the actions of the queue
    are as before (none for a token that had no queue), a second call
    overrides the first, and the flags of other tokens are untouched. *)
Theorem setQueueEnabled_keeps_actions t e s :
  let s' := (setQueueEnabled t e s).2 in
  (setQueueEnabled t e s).1 = true /\
  (isQueueEnabled t s').1 = e /\
  (getQueue t s').1 = (getQueue t s).1 /\
  (forall e', (setQueueEnabled t e' s').2 = (setQueueEnabled t e' s).2) /\
  (forall t', tok_id t' <> tok_id t -> flags s' !! tok_id t' = flags s !! tok_id t').
Proof.
  intros s'. unfold s', setQueueEnabled, isQueueEnabled, qbind, getFlag, setFlag, qret.
  simpl. split; [done|]. split; [by rewrite lookup_insert_eq|].
  split; [|split].
  - unfold Queue.getQueue, qbind, getFlag. simpl. rewrite lookup_insert_eq.
    destruct (flags s !! tok_id t) as [env|]; simpl; [|done].
    match goal with |- (mapQ _ _ ?s1).1 = _ =>
      destruct (mapQ_fromObject_drawn (env_actions env) s1 s eq_refl)
        as (l' & n & -> & ->)
    end. done.
  - intros e'. rewrite lookup_insert_eq. simpl. by rewrite insert_insert_eq.
  - intros t' H. by rewrite lookup_insert_ne.
Qed.

(** ** What a mutation may touch *)

Lemma runMutation_flags (m : Mutation JsonText) t s :
  exists r s',
    runMutation m t s = (r, s') /\
    (drawn s <= drawn s')%nat /\
    (flags s' = flags s \/
     exists q, flags s'
               = <[tok_id t := mkEnvelope "1.0.0" true (map toObject q)]> (flags s)).
Proof.
  destruct m as [a|i|i u|ids|i| |j b]; cbn [Queue.runMutation].
  - unfold Queue.addAction, qbind.
    destruct (getQueue t s) as [q s1] eqn:E.
    apply getQueue_spec in E as (F & D & _).
    rewrite setQueue_spec. eexists _, _. split; [done|]. simpl.
    split; [done|]. right. rewrite F. eauto.
  - unfold Queue.removeAction, qbind.
    destruct (getQueue t s) as [q s1] eqn:E.
    apply getQueue_spec in E as (F & D & _).
    rewrite setQueue_spec. eexists _, _. split; [done|]. simpl.
    split; [done|]. right. rewrite F. eauto.
  - unfold Queue.updateAction, qbind.
    destruct (getQueue t s) as [q s1] eqn:E.
    apply getQueue_spec in E as (F & D & _).
    destruct (findIndex i q).
    + rewrite setQueue_spec. eexists _, _. split; [done|]. simpl.
      split; [done|]. right. rewrite F. eauto.
    + eexists _, _. split; [done|]. split; [done|]. by left.
  - unfold Queue.reorderActions, qbind.
    destruct (getQueue t s) as [q s1] eqn:E.
    apply getQueue_spec in E as (F & D & _).
    destruct (reorderLoop _ _ _ _) as [q' refs].
    rewrite setQueue_spec. eexists _, _. split; [done|]. simpl.
    split; [done|]. right. rewrite F. eauto.
  - unfold Queue.duplicateAction, qbind.
    destruct (getQueue t s) as [q s1] eqn:E.
    apply getQueue_spec in E as (F & D & _).
    destruct (Queue.find i q) as [a|].
    + destruct (Queue.fromObject randomID (toObject a) s1) as [d s2] eqn:E2.
      apply fromObject_spec in E2 as (_ & F2 & D2).
      unfold freshID. rewrite setQueue_spec. eexists _, _. split; [done|]. simpl.
      split; [lia|]. right. rewrite F2, F. eauto.
    + eexists _, _. split; [done|]. split; [done|]. by left.
  - unfold clearQueue. rewrite setQueue_spec. eexists _, _. split; [done|]. simpl.
    split; [done|]. right. by exists [].
  - unfold Queue.importQueue.
    destruct (parse j) as [[[acts|]]|]; cbn [imp_actions];
      [| eexists _, _; (split; [done|]); (split; [done|]); by left ..].
    unfold qbind.
    destruct (mapQ (Queue.fromObject randomID) acts s) as [imp s1] eqn:E1.
    apply mapQ_fromObject_spec in E1 as (F1 & D1 & _).
    destruct b.
    + destruct (getQueue t s1) as [q s2] eqn:E0.
      apply getQueue_spec in E0 as (F0 & D0 & _).
      destruct (Queue.reassign randomID (Z.of_nat (length q)) imp s2) as [imp2 s3] eqn:E2.
      apply reassign_spec in E2 as (F2 & D2 & _).
      rewrite setQueue_spec. eexists _, _. split; [done|]. simpl.
      split; [lia|]. right. rewrite F2, F0, F1. eauto.
    + destruct (Queue.reassign randomID 0 imp s1) as [q s2] eqn:E2.
      apply reassign_spec in E2 as (F2 & D2 & _).
      rewrite setQueue_spec. eexists _, _. split; [done|]. simpl.
      split; [lia|]. right. rewrite F2, F1. eauto.
Qed.

(** X9: a mutation of one token's queue leaves the flag of every other
    token as it was, writes version [1.0.0] when it writes, and never
    takes back an id drawn from [randomID]. *)
Theorem mutation_touches_one_token (m : Mutation JsonText) t s :
  let s' := (runMutation m t s).2 in
  (forall t', tok_id t' <> tok_id t -> flags s' !! tok_id t' = flags s !! tok_id t') /\
  (flags s' !! tok_id t = flags s !! tok_id t \/
   exists acts, flags s' !! tok_id t = Some (mkEnvelope "1.0.0" true acts)) /\
  (drawn s <= drawn s')%nat.
Proof.
  intros s'. destruct (runMutation_flags m t s) as (r & s0 & E & D & [F | [q F]]);
    unfold s'; rewrite E; simpl.
  - split; [by rewrite F|]. split; [left; by rewrite F | done].
  - split; [|split; [right|done]].
    + intros t' H. by rewrite F, lookup_insert_ne.
    + rewrite F, lookup_insert_eq. eauto.
Qed.

End Laws.

(** ** importQueue, failing *)

Section Failing.

Variable randomID : nat -> string.
Variable JsonText : Type.
Variable parse : JsonText -> option Payloads.JsonData.

Abbreviation fromObjects := (Payloads.fromObjects randomID).

Lemma fromObjects_objects acts : forall s,
  fromObjects (Some <$> acts) s
    = (Some (mapQ (Queue.fromObject randomID) acts s).1,
       (mapQ (Queue.fromObject randomID) acts s).2).
Proof.
  induction acts as [|d l IH]; intros s; [done|].
  cbn [fmap list_fmap Payloads.fromObjects mapQ]. unfold qbind, qret.
  destruct (Queue.fromObject randomID d s) as [a s1].
  rewrite IH. by destruct (mapQ _ l s1).
Qed.

Lemma fromObjects_null pre post : forall s,
  fromObjects ((Some <$> pre) ++ None :: post) s
    = (None, mkQSt (flags s)
                   (drawn s + length (List.filter Payloads.needsId pre))).
Proof.
  induction pre as [|d l IH]; intros s.
  - simpl. unfold qret. destruct s. simpl. by rewrite Nat.add_0_r.
  - cbn [fmap list_fmap app Payloads.fromObjects]. unfold qbind.
    unfold Queue.fromObject at 1. unfold qbind, qret, freshID.
    cbn [List.filter]. unfold Payloads.needsId at 1.
    destruct (truthy (raw_id d)); rewrite IH; simpl; [done|].
    do 2 f_equal. lia.
Qed.

Lemma elements_cases (l : list (option RawAction)) :
  (exists acts, l = Some <$> acts) \/
  (exists pre post, l = (Some <$> pre) ++ None :: post).
Proof.
  induction l as [|[d|] l IH].
  - left. by exists [].
  - destruct IH as [(acts & ->) | (pre & post & ->)].
    + left. by exists (d :: acts).
    + right. by exists (d :: pre), post.
  - right. by exists [], l.
Qed.

Lemma objects_no_null (acts pre : list RawAction) post :
  Some <$> acts <> (Some <$> pre) ++ None :: post.
Proof.
  intros E.
  assert (H : None ∈ Some <$> acts).
  { rewrite E. apply elem_of_app. right. by left. }
  apply list_elem_of_fmap in H as (d & [=] & _).
Qed.

Lemma importQueue_objects (parse0 : JsonText -> option ImportData) t text b s :
  parse text = Payloads.objects <$> parse0 text ->
  Payloads.importQueue randomID JsonText parse t text b s
    = Queue.importQueue randomID JsonText parse0 t text b s.
Proof.
  unfold Payloads.importQueue, Queue.importQueue. intros ->.
  destruct (parse0 text) as [[[acts|]]|]; [|done|done].
  cbn [fmap option_fmap option_map Payloads.objects Payloads.json_actions imp_actions].
  unfold qbind at 1. rewrite fromObjects_objects.
  cbv beta iota. unfold qbind at 4. by destruct (mapQ _ acts s).
Qed.

(** X10: [importQueue] returns [true] exactly when the text parses to a
    document whose [actions] is an array without a [null] in it. When it
    returns [false] no flag is written: after a syntax error, or with
    [actions] missing or not an array, the state is as before; with a
    [null] in the array the ids of the elements in front of the first
    [null] that had none have been drawn, and that is all, in replace
    and in append mode. On a document whose array holds objects only it
    does what [Queue.importQueue] does. *)
Theorem importQueue_fails_without_storing t text b s :
  let r := Payloads.importQueue randomID JsonText parse t text b s in
  (r.1 = true <->
   exists acts, parse text = Some (Payloads.mkJson (Some (Some <$> acts)))) /\
  (r.1 = false -> flags r.2 = flags s /\ (drawn s <= drawn r.2)%nat) /\
  (parse text = None \/ parse text = Some (Payloads.mkJson None) -> r = (false, s)) /\
  (forall pre post,
     parse text = Some (Payloads.mkJson (Some ((Some <$> pre) ++ None :: post))) ->
     r = (false, mkQSt (flags s)
                       (drawn s + length (List.filter Payloads.needsId pre)))) /\
  (forall parse0 : JsonText -> option ImportData,
     parse text = Payloads.objects <$> parse0 text ->
     r = Queue.importQueue randomID JsonText parse0 t text b s).
Proof.
  intros r.
  assert (Null : forall pre post,
            parse text = Some (Payloads.mkJson (Some ((Some <$> pre) ++ None :: post))) ->
            r = (false, mkQSt (flags s)
                              (drawn s + length (List.filter Payloads.needsId pre)))).
  { intros pre post P. unfold r, Payloads.importQueue. rewrite P.
    cbn [Payloads.json_actions]. unfold qbind. by rewrite fromObjects_null. }
  assert (Objs : forall acts,
            parse text = Some (Payloads.mkJson (Some (Some <$> acts))) -> r.1 = true).
  { intros acts P. unfold r.
    rewrite (importQueue_objects (fun _ => Some (mkImport (Some acts))) t text b s)
      by done.
    unfold Queue.importQueue. cbn [imp_actions]. unfold qbind.
    destruct (mapQ _ acts s) as [imp s1].
    destruct b.
    - destruct (getQueue randomID t s1) as [q s2].
      destruct (Queue.reassign randomID (Z.of_nat (length q)) imp s2) as [imp' s3].
      by rewrite setQueue_spec.
    - destruct (Queue.reassign randomID 0 imp s1) as [q s2].
      by rewrite setQueue_spec. }
  assert (Bad : parse text = None \/ parse text = Some (Payloads.mkJson None) ->
                r = (false, s)).
  { unfold r, Payloads.importQueue. by intros [-> | ->]. }
  split; [|split; [|split; [exact Bad | split; [exact Null|]]]].
  - split; [|intros (acts & P); by apply (Objs acts)].
    destruct (parse text) as [[[l|]]|] eqn:P.
    + destruct (elements_cases l) as [(acts & ->) | (pre & post & ->)]; [by eauto|].
      rewrite (Null pre post eq_refl). done.
    + rewrite Bad by (by right). done.
    + rewrite Bad by (by left). done.
  - destruct (parse text) as [[[l|]]|] eqn:P.
    + destruct (elements_cases l) as [(acts & ->) | (pre & post & ->)].
      * rewrite (Objs acts eq_refl). done.
      * rewrite (Null pre post eq_refl). simpl. intros _. split; [done | lia].
    + rewrite Bad by (by right). done.
    + rewrite Bad by (by left). done.
  - intros parse0 P. by apply importQueue_objects.
Qed.

End Failing.

Import Fixtures MoreFixtures.

(** An import of [[{}, null]]: nothing is stored, and the one id drawn
    for the first element is gone. *)
Example importQueue_null_example :
  Payloads.importQueue testRandomID unit
    (fun _ => Some (Payloads.mkJson
                      (Some [Some (mkRaw None None None None None None None None None None);
                             None])))
    goblin tt false (stored [actA])
  = (false, mkQSt (flags (stored [actA])) (S (drawn (stored [actA])))).
Proof. reflexivity. Qed.

Lemma wellFormed_fixtures : Forall wellFormed [actA; actC] /\ wellFormed strike.
Proof. unfold wellFormed. repeat constructor; discriminate. Qed.

Lemma denseFrom_fixtures : denseFrom 0 [actA; actC].
Proof. intros [|[|k]] a; simpl; intros [= <-]; reflexivity. Qed.

Lemma getQueue_setQueue_witness :
  Forall wellFormed [actA; actC] /\
  getQueue testRandomID goblin (setQueue goblin [actA; actC] (stored [])).2
    = ([actA; actC], (setQueue goblin [actA; actC] (stored [])).2).
Proof.
  split; [exact (proj1 wellFormed_fixtures)|].
  exact (getQueue_setQueue testRandomID goblin [actA; actC] (stored [])
           (proj1 wellFormed_fixtures)).
Defined.

Lemma removeAction_addAction_witness :
  (getQueue testRandomID goblin (stored [actA; actC])).1 = [actA; actC] /\
  (getQueue testRandomID goblin
     (addAction testRandomID goblin strike (stored [actA; actC])).2).1
    = [actA; actC; set_order 2 strike] /\
  (getQueue testRandomID goblin
     (removeAction testRandomID goblin "S"
        (addAction testRandomID goblin strike (stored [actA; actC])).2).2).1
    = [actA; actC].
Proof.
  split; [reflexivity|].
  assert (F : Forall (fun b => a_id b <> a_id strike) [actA; actC])
    by (repeat constructor; discriminate).
  destruct (removeAction_addAction testRandomID goblin strike (stored [actA; actC])
              (proj1 wellFormed_fixtures) denseFrom_fixtures
              (proj2 wellFormed_fixtures) F) as (H1 & H2 & _).
  split; [exact H1 | exact H2].
Defined.

(** The queue manager on a stored queue: removing renumbers, reordering
    drops what is not listed, a copy goes to the end under a fresh id. *)
Example queue_manager_examples :
  let s := stored [actA; actB; actC] in
  map a_order (getQueue testRandomID goblin s).1 = [0; 5; 1] /\
  map a_id (getSortedActions testRandomID goblin s).1 = ["A"; "C"; "B"] /\
  map (fun a => (a_id a, a_order a))
      (getQueue testRandomID goblin (removeAction testRandomID goblin "A" s).2).1
    = [("B", 0); ("C", 1)] /\
  map (fun a => (a_id a, a_order a))
      (getQueue testRandomID goblin
         (reorderActions testRandomID goblin ["C"; "X"; "A"] s).2).1
    = [("C", 0); ("A", 2)] /\
  map (fun a => (a_id a, a_name a, a_order a))
      (getQueue testRandomID goblin (duplicateAction testRandomID goblin "C" s).2).1
    = [("A", "First", 0); ("B", "Second", 5); ("C", "Third", 1);
       ("r0", "Third (Copy)", 3)] /\
  (isQueueEnabled goblin (setQueueEnabled goblin false s).2).1 = false /\
  (isQueueEnabled goblin
     (clearQueue goblin (setQueueEnabled goblin false s).2).2).1 = true.
Proof. vm_compute. repeat split. Qed.
End QueueLaws.

(** * More properties of the action executor *)
Module RunFacts.
Import Queue Executor RunShape ExecutorFacts.
Local Open Scope list_scope.

Section Laws.

Variable randomID : nat -> string.
Context {World Item : Type}.
Variable host : Host World Item.

Implicit Types (s : St World) (a action : ActionQueueItem)
         (actions rest : list ActionQueueItem).

(** ** Conditions *)

Lemma systemOf_undefined s :
  systemOf host None s = (Throw (TypeError "Cannot read properties of undefined"), s).
Proof. done. Qed.

(** X11: during a run [checkResourceAvailable] never looks at a spell
    slot or a resource: [this.currentWorkflow.actor] is [undefined], so a
    value that names a spell slot or a resource ends in the [TypeError]
    of [actor.system], and every other value gives [true]. The answer
    [false] is not possible, whatever the actor has left. *)
Theorem checkResourceAvailable_in_run action s w :
  currentWorkflow s = Some w ->
  checkResourceAvailable host action s =
    match truthy (cond_value (a_conditions action)) with
    | Some value =>
        if String.prefix "spell-slot-" value || String.prefix "resource-" value
        then (Throw (TypeError "Cannot read properties of undefined"), s)
        else (Ok true, s)
    | None => (Ok true, s)
    end.
Proof.
  intros Hw. unfold checkResourceAvailable.
  destruct (truthy _) as [value|]; [|done].
  unfold bind, workflow. rewrite Hw.
  destruct (String.prefix "spell-slot-" value); [done|].
  by destruct (String.prefix "resource-" value).
Qed.

Lemma shouldExecute_readsActor action s w :
  currentWorkflow s = Some w ->
  readsActor action = true ->
  shouldExecute host action s
    = (Throw (TypeError "Cannot read properties of undefined"), s).
Proof.
  intros Hw. unfold readsActor, shouldExecute.
  destruct (truthy (cond_value (a_conditions action))) as [value|] eqn:V; [|done].
  destruct (String.eqb (cond_type _) ConditionType.HP_THRESHOLD) eqn:E1.
  - apply String.eqb_eq in E1. rewrite E1. simpl. intros _.
    by apply checkHPThreshold_throws with w value.
  - destruct (String.eqb (cond_type _) ConditionType.RESOURCE_AVAILABLE) eqn:E2; [|done].
    apply String.eqb_eq in E2. rewrite E2. simpl. intros P.
    unfold checkResourceAvailable, bind, workflow. rewrite V, Hw.
    destruct (String.prefix "spell-slot-" value); [done|].
    by destruct (String.prefix "resource-" value).
Qed.

Lemma shouldExecute_other action s w :
  currentWorkflow s = Some w ->
  readsActor action = false ->
  exists b,
    shouldExecute host action s = (Ok b, s) /\
    (b = false ->
     exists o,
       firstAttack (wf_results w) = Some o /\
       ((cond_type (a_conditions action) = ConditionType.ATTACK_HIT /\
         hit o <> Some true) \/
        (cond_type (a_conditions action) = ConditionType.ATTACK_MISS /\
         hit o <> Some false))).
Proof.
  intros Hw. unfold readsActor, shouldExecute.
  destruct (String.eqb (cond_type _) ConditionType.ALWAYS) eqn:E0;
    [intros _; by exists true|].
  destruct (String.eqb (cond_type _) ConditionType.TARGET_IN_RANGE) eqn:E1;
    [intros _; by exists true|].
  destruct (String.eqb (cond_type _) ConditionType.RESOURCE_AVAILABLE) eqn:E2.
  { apply String.eqb_eq in E2. rewrite E2. simpl.
    unfold checkResourceAvailable, bind, workflow.
    destruct (truthy _) as [value|]; [|intros _; by exists true].
    rewrite Hw. intros P. apply orb_false_elim in P as [-> ->].
    by exists true. }
  destruct (String.eqb (cond_type _) ConditionType.HP_THRESHOLD) eqn:E3.
  { unfold checkHPThreshold.
    destruct (truthy _) as [value|]; [done | intros _; by exists true]. }
  intros _.
  destruct (String.eqb (cond_type _) ConditionType.ATTACK_HIT) eqn:E4.
  { apply String.eqb_eq in E4. simpl.
    unfold checkPreviousAttackResult, bind, workflow, ret. rewrite Hw, E4.
    rewrite scanResults_hit. eexists. split; [done|].
    destruct (firstAttack _) as [o|]; [|done].
    intros B. exists o. split; [done|]. left. split; [done|].
    by apply bool_decide_eq_false in B. }
  destruct (String.eqb (cond_type _) ConditionType.ATTACK_MISS) eqn:E5.
  { apply String.eqb_eq in E5. simpl.
    unfold checkPreviousAttackResult, bind, workflow, ret. rewrite Hw, E5.
    rewrite scanResults_miss. eexists. split; [done|].
    destruct (firstAttack _) as [o|]; [|done].
    intros B. exists o. split; [done|]. right. split; [done|].
    by apply bool_decide_eq_false in B. }
  by exists true.
Qed.

(** X12: what a condition can do during a run. A condition that goes on
    to the actor throws; every other condition is evaluated and leaves the
    state alone. The answer [false], the only one that makes the main
    loop skip an action, comes from an [attackHit] or [attackMiss]
    condition alone, and only when the ledger holds an attack whose [hit]
    is not the wanted one: a condition of any other type, the four types
    without a case among them, never holds an action back. *)
Theorem shouldExecute_skips_on_attack_only action s w :
  currentWorkflow s = Some w ->
  (readsActor action = true ->
   shouldExecute host action s
     = (Throw (TypeError "Cannot read properties of undefined"), s)) /\
  (readsActor action = false ->
   exists b, shouldExecute host action s = (Ok b, s)) /\
  (forall s', shouldExecute host action s = (Ok false, s') ->
     exists o,
       firstAttack (wf_results w) = Some o /\
       ((cond_type (a_conditions action) = ConditionType.ATTACK_HIT /\
         hit o <> Some true) \/
        (cond_type (a_conditions action) = ConditionType.ATTACK_MISS /\
         hit o <> Some false))).
Proof.
  intros Hw. split; [|split].
  - by apply shouldExecute_readsActor with w.
  - intros R. destruct (shouldExecute_other action s w Hw R) as (b & E & _).
    by exists b.
  - intros s' E. destruct (readsActor action) eqn:R.
    + by rewrite (shouldExecute_readsActor action s w Hw R) in E.
    + destruct (shouldExecute_other action s w Hw R) as (b & E' & H).
      rewrite E' in E. injection E as -> _. by apply H.
Qed.

(** ** What a run shows *)

Lemma notifications_app evs1 evs2 :
  notifications (evs1 ++ evs2) = notifications evs1 ++ notifications evs2.
Proof. apply List.filter_app. Qed.

Lemma silent_quiet {A} (m : M World A) : quiet m -> silent m.
Proof.
  intros H s r s' E. apply H in E as (_ & _ & _ & E).
  exists []. by rewrite app_nil_r.
Qed.

Lemma silent_bind {A B} (m : M World A) (k : A -> M World B) :
  silent m -> (forall x, silent (k x)) -> silent (bind m k).
Proof.
  intros Hm Hk s r s'. unfold bind.
  destruct (m s) as [[x|e] s1] eqn:E; apply Hm in E as (evs1 & E1 & N1).
  - intros H. apply Hk in H as (evs2 & E2 & N2).
    exists (evs1 ++ evs2). rewrite E2, E1, notifications_app, N1, N2.
    by rewrite app_assoc.
  - intros [= _ <-]. by exists evs1.
Qed.

Lemma silent_tryCatch {A} (m : M World A) (h : Exn -> M World A) :
  silent m -> (forall e, silent (h e)) -> silent (tryCatch m h).
Proof.
  intros Hm Hh s r s'. unfold tryCatch.
  destruct (m s) as [[x|e] s1] eqn:E; apply Hm in E as (evs1 & E1 & N1).
  - intros [= _ <-]. by exists evs1.
  - intros H. apply Hh in H as (evs2 & E2 & N2).
    exists (evs1 ++ evs2). rewrite E2, E1, notifications_app, N1, N2.
    by rewrite app_assoc.
Qed.

Lemma silent_emit e :
  notifications [e] = [] -> silent (World := World) (emit e).
Proof. intros N s r s' [= _ <-]. by exists [e]. Qed.

Lemma silent_recordResult i o : silent (World := World) (recordResult i o).
Proof.
  intros s r s'. unfold recordResult.
  destruct (currentWorkflow s); intros [= _ <-]; exists []; by rewrite app_nil_r.
Qed.

Lemma silent_executeAction action : silent (executeAction host action).
Proof.
  unfold executeAction.
  apply silent_bind; [by apply silent_emit|]. intros _.
  apply silent_tryCatch; [apply silent_quiet, quiet_dispatch|].
  intros e. apply silent_bind; [by apply silent_emit|].
  intros _. apply silent_quiet, quiet_ret.
Qed.

Lemma silent_iteration actions action : silent (iteration host actions action).
Proof.
  unfold iteration.
  apply silent_bind; [apply silent_quiet, quiet_readonly, readonly_shouldExecute|].
  intros ok. destruct (negb ok); [by apply silent_emit|].
  apply silent_bind; [apply silent_executeAction|]. intros o.
  apply silent_bind; [apply silent_recordResult|]. intros _.
  apply silent_bind; [by apply silent_emit|]. intros _.
  assert (B : forall target, silent (branchTo host actions target)).
  { intros target. unfold branchTo. destruct (Queue.find target actions).
    - apply silent_bind; [apply silent_executeAction|].
      intros _. apply silent_quiet, quiet_ret.
    - apply silent_quiet, quiet_ret. }
  destruct (success o), (truthy (a_onSuccess action)), (truthy (a_onFailure action));
    try apply B; apply silent_quiet, quiet_ret.
Qed.

Lemma silent_mainLoop actions rest : silent (mainLoop host actions rest).
Proof.
  induction rest as [|a rest IH]; simpl.
  - apply silent_quiet, quiet_ret.
  - apply silent_bind; [apply silent_iteration | by intros _].
Qed.

(** X13: a call of [executeQueue] that finds the guard clear returns
    normally, shows exactly one notification, as the last thing it does,
    the summary with the length of the list it was given or the error
    notification, and leaves the executor idle: the guard clear, no run
    context, [getStatus] at its initial value, the flags untouched;
    whether the loop threw or not. *)
Theorem executeQueue_notifies_once_and_releases token actions s :
  executing s = false ->
  exists evs n,
    executeQueue host token actions s
      = (Ok tt, mkSt false None (qst s)
                     (world (executeQueue host token actions s).2)
                     (events s ++ evs ++ [n])) /\
    notifications evs = [] /\
    (n = NotifyInfo (tok_name token) (length actions) \/ n = NotifyError) /\
    getStatus (executeQueue host token actions s).2 = mkStatus false None 0.
Proof.
  intros G. unfold executeQueue. rewrite G.
  unfold tryCatch, runBody, bind.
  destruct (mainLoop host actions actions (startRun host token actions s))
    as [[[]|e] s1] eqn:L;
    destruct (mainLoop_spec _ _ _ _ _ _ _ (startRun_workflow host token actions s) L)
      as (w1 & evs0 & _ & _ & L3 & _);
    destruct (silent_mainLoop _ _ _ _ _ L) as (evs & L4 & N);
    simpl in L3, L4; simpl.
  - exists evs, (NotifyInfo (tok_name token) (length actions)).
    unfold endRun. simpl. rewrite L3, L4, app_assoc. eauto.
  - exists (evs ++ [ConsoleError e]), NotifyError.
    unfold endRun. simpl. rewrite L3, L4, notifications_app, N, <- !app_assoc. eauto.
Qed.

(** ** Runs that end, and runs that stop short *)

Lemma iteration_skip actions action s :
  shouldExecute host action s = (Ok false, s) ->
  iteration host actions action s = (Ok tt, logged s [LogSkipping action]).
Proof. intros C. unfold iteration, bind. by rewrite C. Qed.

Lemma iteration_throw actions action s e :
  shouldExecute host action s = (Throw e, s) ->
  iteration host actions action s = (Throw e, s).
Proof. intros C. unfold iteration, bind. by rewrite C. Qed.

Lemma mainLoop_app actions pre rest : forall s,
  mainLoop host actions (pre ++ rest) s
    = match mainLoop host actions pre s with
      | (Ok _, s1) => mainLoop host actions rest s1
      | (Throw e, s1) => (Throw e, s1)
      end.
Proof.
  induction pre as [|a pre IH]; intros s; simpl; [done|].
  unfold bind. destruct (iteration host actions a s) as [[[]|e] s1]; [apply IH | done].
Qed.

Lemma mainLoop_ends actions rest : forall s w,
  currentWorkflow s = Some w ->
  Forall (fun a => readsActor a = false) rest ->
  exists s', mainLoop host actions rest s = (Ok tt, s').
Proof.
  induction rest as [|a rest IH]; intros s w Hw Hall; simpl.
  - by exists s.
  - apply Forall_cons in Hall as [Ha Hall]. unfold bind.
    destruct (iteration host actions a s) as [res s1] eqn:I.
    destruct (iteration_spec _ _ _ _ _ _ _ Hw I)
      as (w1 & evs1 & I1 & _ & _ & _ & [(_ & _ & _ & N) | (-> & _)]).
    + destruct (shouldExecute_other a s w Hw Ha) as ([] & C & _).
      { by rewrite C in N. }
      rewrite (iteration_skip _ _ _ C) in I. injection I as <- <-.
      by apply IH with w1.
    + by apply IH with w1.
Qed.

(** X14: a run none of whose conditions goes on to the actor gets to the
    end of its list and shows the summary, which counts the actions of
    the list, skipped ones too, not the actions that were run; the number
    of outcomes recorded can be less. Nothing of it is an error
    notification. *)
Theorem run_completes_without_actor_conditions token actions s :
  executing s = false ->
  Forall (fun a => readsActor a = false) actions ->
  exists evs,
    events (executeQueue host token actions s).2
      = events s ++ evs ++ [NotifyInfo (tok_name token) (length actions)] /\
    notifications evs = [] /\
    ledgerWrites evs `sublist_of` actions /\
    (length (ledgerWrites evs) <= length actions)%nat.
Proof.
  intros G Hall. unfold executeQueue. rewrite G.
  unfold tryCatch, runBody, bind.
  destruct (mainLoop_ends actions actions _ _
              (startRun_workflow host token actions s) Hall) as (s1 & L).
  rewrite L.
  destruct (mainLoop_spec _ _ _ _ _ _ _ (startRun_workflow host token actions s) L)
    as (w1 & evs & _ & _ & _ & L4 & L5 & _).
  destruct (silent_mainLoop _ _ _ _ _ L) as (evs' & L4' & N).
  rewrite L4 in L4'. apply app_inv_head in L4'. subst evs'.
  exists evs. simpl in *. rewrite L4, app_assoc.
  split; [done|]. split; [done|]. split; [done|].
  by apply sublist_length.
Qed.

(** X15: a run stops at the first action whose condition goes on to the
    actor: the actions before it are handled as in any run, that action
    and the ones after it get no outcome, and the run ends with the
    [TypeError] on the console and the error notification in place of
    the summary. *)
Theorem run_stops_at_actor_condition token pre a post s :
  executing s = false ->
  Forall (fun a => readsActor a = false) pre ->
  readsActor a = true ->
  exists evs,
    events (executeQueue host token (pre ++ a :: post) s).2
      = events s ++ evs
          ++ [ConsoleError (TypeError "Cannot read properties of undefined");
              NotifyError] /\
    notifications evs = [] /\
    ledgerWrites evs `sublist_of` pre /\
    Forall (fun x => x ∈ pre ++ a :: post) (dispatched evs).
Proof.
  intros G Hpre Ha. unfold executeQueue. rewrite G.
  unfold tryCatch, runBody, bind.
  set (actions := pre ++ a :: post).
  set (s0 := startRun host token actions s).
  assert (Hw : currentWorkflow s0 = Some (mkWorkflow token actions []
                 (mkContext (tok_actor token) token (gameCombat host)))) by done.
  unfold actions at 2. rewrite mainLoop_app.
  destruct (mainLoop_ends actions pre _ _ Hw Hpre) as (s1 & L).
  rewrite L.
  destruct (mainLoop_spec _ _ _ _ _ _ _ Hw L)
    as (w1 & evs & L1 & _ & _ & L4 & L5 & L6 & _).
  destruct (silent_mainLoop _ _ _ _ _ L) as (evs' & L4' & N).
  rewrite L4 in L4'. apply app_inv_head in L4'. subst evs'.
  cbn [mainLoop]. unfold bind.
  rewrite (iteration_throw _ _ _ _ (shouldExecute_readsActor a s1 w1 L1 Ha)).
  exists evs. simpl. rewrite L4. simpl. rewrite <- !app_assoc.
  split; [done|]. split; [done|]. split; [done|].
  eapply Forall_impl; [exact L6|]. simpl. intros x [H|H]; [|done].
  apply elem_of_app. by left.
Qed.

(** ** The emergency stop *)

Lemma executeAction_frame action s :
  exists o s' evs,
    executeAction host action s = (Ok o, s') /\
    executing s' = executing s /\ currentWorkflow s' = currentWorkflow s /\
    qst s' = qst s /\
    events s' = events s ++ LogExecuting action :: evs /\
    ledgerWrites evs = [] /\ dispatched evs = [].
Proof. apply executeAction_total. Qed.

(** X16: [stopExecution] during a run clears the guard and drops the run
    context, and [getStatus] is back at its initial value; it does not
    stop the loop. The next iteration still evaluates its condition and,
    when that holds, dispatches its action; only the attempt to record
    the outcome fails, on the run context that is gone, and that
    [TypeError] is what ends the loop. No outcome is recorded. *)
Theorem stopExecution_does_not_stop_next_action actions action s :
  executing s = true ->
  let s0 := (stopExecution s).2 in
  (shouldExecute host action s0).1 = Ok true ->
  stopExecution s = (Ok tt, s0) /\
  getStatus s0 = mkStatus false None 0 /\
  stopExecution s0 = (Ok tt, s0) /\
  exists s1,
    iteration host actions action s0
      = (Throw (TypeError "Cannot read properties of null"), s1) /\
    s1 = (executeAction host action s0).2 /\
    dispatched (events s1) = dispatched (events s) ++ [action] /\
    ledgerWrites (events s1) = ledgerWrites (events s).
Proof.
  intros G s0 C.
  assert (E0 : s0 = mkSt false None (qst s) (world s) (events s ++ [LogStopping])).
  { unfold s0, stopExecution. by rewrite G. }
  split; [unfold s0, stopExecution; by rewrite G|].
  split; [by rewrite E0|]. split; [by rewrite E0|].
  destruct (shouldExecute host action s0) as [r s0'] eqn:C0.
  pose proof (readonly_shouldExecute _ _ _ _ _ C0) as ->.
  simpl in C. subst r.
  destruct (executeAction_frame action s0) as (o & s1 & evs & E & E1 & E2 & E3 & E4 & E5 & E6).
  exists s1. unfold iteration, bind. rewrite C0. simpl. rewrite E. simpl.
  unfold recordResult. rewrite E2, E0. simpl.
  split; [done|]. split; [done|].
  rewrite E4, E0. simpl.
  rewrite !dispatched_app, !ledgerWrites_app, dispatched_exec, ledgerWrites_exec, E5, E6.
  simpl. by rewrite !app_nil_r.
Qed.

(** ** The ledger *)

Lemma ledgerSet_NoDup i o (l : Ledger) : NoDup l.*1 -> NoDup (ledgerSet i o l).*1.
Proof.
  induction l as [|[k v] l IH]; simpl.
  - intros _. apply NoDup_singleton.
  - intros H. apply NoDup_cons in H as [H1 H2].
    destruct (String.eqb k i) eqn:E; simpl.
    + apply String.eqb_eq in E. subst k. by apply NoDup_cons.
    + apply NoDup_cons. split; [|by apply IH].
      rewrite ledgerSet_keys. intros [->|H]; [|done].
      by rewrite String.eqb_refl in E.
Qed.

Lemma ledgerSet_length i o (l : Ledger) :
  (length (ledgerSet i o l) <= S (length l))%nat.
Proof.
  induction l as [|[k v] l IH]; simpl; [lia|].
  destruct (String.eqb k i); simpl; lia.
Qed.

(** X17: the ledger of a run holds one entry for an id, however often an
    action of that id is run, and only ids of actions the main loop went
    through: [actionsCompleted], its size, goes up by at most one for an
    action of the list and never counts an id twice. *)
Theorem ledger_one_entry_per_id actions rest : forall s w res s',
  currentWorkflow s = Some w ->
  NoDup (wf_results w).*1 ->
  mainLoop host actions rest s = (res, s') ->
  NoDup (ledgerOf s').*1 /\
  (st_actionsCompleted (getStatus s')
     <= st_actionsCompleted (getStatus s) + length rest)%nat /\
  (forall k, k ∈ (ledgerOf s').*1 -> k ∈ (ledgerOf s).*1 \/ k ∈ a_id <$> rest).
Proof.
  induction rest as [|a rest IH]; intros s w res s' Hw ND H; simpl in H.
  - injection H as <- <-. unfold ledgerOf, getStatus. rewrite Hw. simpl.
    split; [done|]. split; [lia | by left].
  - unfold bind in H.
    destruct (iteration host actions a s) as [r s1] eqn:I.
    destruct (iteration_spec _ _ _ _ _ _ _ Hw I)
      as (w1 & evs1 & I1 & _ & _ & _ & I5).
    assert (K : NoDup (wf_results w1).*1 /\
                (length (wf_results w1) <= S (length (wf_results w)))%nat /\
                (forall k, k ∈ (wf_results w1).*1 ->
                           k ∈ (wf_results w).*1 \/ k = a_id a)).
    { destruct I5 as [(_ & _ & -> & _) | (_ & _ & o & _ & _ & -> & _)].
      - split; [done|]. split; [lia | by left].
      - split; [by apply ledgerSet_NoDup|]. split; [apply ledgerSet_length|].
        intros k. rewrite ledgerSet_keys. tauto. }
    destruct K as (K1 & K2 & K3).
    assert (R : NoDup (ledgerOf s').*1 /\
                (st_actionsCompleted (getStatus s')
                   <= st_actionsCompleted (getStatus s1) + length rest)%nat /\
                (forall k, k ∈ (ledgerOf s').*1 ->
                           k ∈ (ledgerOf s1).*1 \/ k ∈ a_id <$> rest)).
    { destruct r as [[]|e].
      - by apply IH with w1 res.
      - injection H as <- <-. split; [unfold ledgerOf; by rewrite I1|].
        split; [lia | by left]. }
    destruct R as (R1 & R2 & R3).
    split; [done|]. revert R2 R3. unfold getStatus, ledgerOf.
    rewrite I1, Hw. simpl. intros R2 R3. split; [lia|].
    intros k Hk. destruct (R3 k Hk) as [H1|H1].
    + destruct (K3 k H1) as [H2| ->]; [by left|]. right. left.
    + right. by right.
Qed.

(** ** The turn trigger *)

Lemma events_grow_neq {X} (l : list X) x evs : l <> l ++ x :: evs.
Proof.
  intros E. apply (f_equal length) in E. rewrite length_app in E. simpl in E. lia.
Qed.

(** X18: the turn trigger starts a run, announced by its debug line,
    exactly when [updateData.turn] is not falsy, the combatant has a
    token, the user owns that token or is the GM, a queue manager is
    registered, the token's queue is enabled and it has an enabled
    action; the run is then given the enabled actions in their sorted
    order. Otherwise it prints and dispatches nothing. The turn with
    index [0], the first of a round, never starts a run. *)
Theorem onCombatTurn_gates combat turn s :
  let s' := (onCombatTurn randomID host combat turn s).2 in
  ((exists n name evs, events s' = events s ++ LogTurn n name :: evs) <->
   exists token,
     newTurn turn = true /\
     combatant combat ≫= cb_token = Some token /\
     (tok_isOwner token || userIsGM host) = true /\
     hasQueueManager host = true /\
     (isQueueEnabled token (qst s)).1 = true /\
     (getEnabledActions randomID token (qst s)).1 <> []) /\
  (forall token,
     newTurn turn = true ->
     combatant combat ≫= cb_token = Some token ->
     (tok_isOwner token || userIsGM host) = true ->
     hasQueueManager host = true ->
     (isQueueEnabled token (qst s)).1 = true ->
     (getEnabledActions randomID token (qst s)).1 <> [] ->
     let acts := (getEnabledActions randomID token (qst s)).1 in
     exists s1,
       qst s1 = (getEnabledActions randomID token (qst s)).2 /\
       events s1 = events s ++ [LogTurn (length acts) (tok_name token)] /\
       executing s1 = executing s /\
       onCombatTurn randomID host combat turn s = executeQueue host token acts s1) /\
  ((forall n name evs, events s' <> events s ++ LogTurn n name :: evs) ->
   events s' = events s) /\
  onCombatTurn randomID host combat (Some 0) s = (Ok tt, s).
Proof.
  intros s'.
  assert (Run : forall token,
     newTurn turn = true ->
     combatant combat ≫= cb_token = Some token ->
     (tok_isOwner token || userIsGM host) = true ->
     hasQueueManager host = true ->
     (isQueueEnabled token (qst s)).1 = true ->
     (getEnabledActions randomID token (qst s)).1 <> [] ->
     let acts := (getEnabledActions randomID token (qst s)).1 in
     exists s1,
       qst s1 = (getEnabledActions randomID token (qst s)).2 /\
       events s1 = events s ++ [LogTurn (length acts) (tok_name token)] /\
       executing s1 = executing s /\
       onCombatTurn randomID host combat turn s = executeQueue host token acts s1).
  { intros token T Ct Own Mgr En Acts acts.
    unfold onCombatTurn.
    destruct turn as [[|p|p]|]; try done;
      (destruct combat as [[[[token'|]]|]]; try done;
       cbn [combatant cb_token mbind option_bind] in *;
       injection Ct as ->;
       apply orb_true_iff in Own;
       assert (O : negb (tok_isOwner token) && negb (userIsGM host) = false)
         by (destruct Own as [-> | ->]; [done | by rewrite andb_false_r]);
       rewrite O, Mgr; cbn [negb];
       unfold bind, liftQ, emit;
       destruct (isQueueEnabled token (qst s)) as [en q1] eqn:Q1;
       assert (q1 = qst s) as -> by (by injection Q1 as _ <-);
       simpl in En; subst en; cbn [negb qst];
       subst acts;
       destruct (getEnabledActions randomID token (qst s)) as [acts q2] eqn:Q2;
       cbn [fst snd] in *;
       destruct acts as [|a0 acts]; [done|];
       cbn [length Nat.eqb];
       eexists; split; [|split; [|split; [|reflexivity]]]; done). }
  assert (Quiet : (forall token,
     newTurn turn = true ->
     combatant combat ≫= cb_token = Some token ->
     (tok_isOwner token || userIsGM host) = true ->
     hasQueueManager host = true ->
     (isQueueEnabled token (qst s)).1 = true ->
     (getEnabledActions randomID token (qst s)).1 <> [] -> False) ->
     events s' = events s).
  { intros No. unfold s', onCombatTurn.
    destruct turn as [[|p|p]|]; try done;
      (destruct combat as [[[[token|]]|]]; try done;
       cbn [combatant cb_token];
       destruct (tok_isOwner token) eqn:Ow, (userIsGM host) eqn:Gm; cbn [negb andb];
         try done;
       (destruct (hasQueueManager host) eqn:Mgr; cbn [negb]; [|done];
        unfold bind, liftQ, emit;
        destruct (isQueueEnabled token (qst s)) as [en q1] eqn:Q1;
        assert (q1 = qst s) as -> by (by injection Q1 as _ <-);
        destruct en; cbn [negb qst]; [|done];
        destruct (getEnabledActions randomID token (qst s)) as [acts q2] eqn:Q2;
        destruct acts as [|a0 acts]; [done|];
        exfalso; apply (No token);
          first [done | by rewrite ?Ow, ?Gm | by rewrite Q1 | by rewrite Q2])). }
  assert (Dec : (exists token,
     newTurn turn = true /\
     combatant combat ≫= cb_token = Some token /\
     (tok_isOwner token || userIsGM host) = true /\
     hasQueueManager host = true /\
     (isQueueEnabled token (qst s)).1 = true /\
     (getEnabledActions randomID token (qst s)).1 <> []) \/
     (forall token,
     newTurn turn = true ->
     combatant combat ≫= cb_token = Some token ->
     (tok_isOwner token || userIsGM host) = true ->
     hasQueueManager host = true ->
     (isQueueEnabled token (qst s)).1 = true ->
     (getEnabledActions randomID token (qst s)).1 <> [] -> False)).
  { destruct (newTurn turn) eqn:T; [|right; by intros].
    destruct (combatant combat ≫= cb_token) as [token|] eqn:Ct; [|right; by intros].
    destruct (tok_isOwner token || userIsGM host) eqn:Own;
      [|right; intros token' _ [= <-]; congruence].
    destruct (hasQueueManager host) eqn:Mgr; [|right; by intros].
    destruct ((isQueueEnabled token (qst s)).1) eqn:En;
      [|right; intros token' _ [= <-]; congruence].
    destruct ((getEnabledActions randomID token (qst s)).1) as [|a0 acts] eqn:Acts;
      [right; intros token' _ [= <-]; congruence|].
    left. exists token. by rewrite Acts. }
  split; [|split; [exact Run|split]].
  - split.
    + intros (n & name & evs & E).
      destruct Dec as [Y|N]; [done|].
      exfalso. rewrite Quiet in E.
      * by apply events_grow_neq in E.
      * exact N.
    + intros (token & T & Ct & Own & Mgr & En & Acts).
      destruct (Run token T Ct Own Mgr En Acts) as (s1 & R1 & R2 & R3 & R4).
      unfold s'. rewrite R4.
      destruct (executeQueue_events host token
                  (getEnabledActions randomID token (qst s)).1 s1)
        as (evs & _ & _ & X & _).
      rewrite X, R2, <- app_assoc. simpl. eauto.
  - intros No. apply Quiet. intros token T Ct Own Mgr En Acts.
    destruct (Run token T Ct Own Mgr En Acts) as (s1 & R1 & R2 & R3 & R4).
    destruct (executeQueue_events host token
                (getEnabledActions randomID token (qst s)).1 s1) as (evs & _ & _ & X & _).
    apply (No (length (getEnabledActions randomID token (qst s)).1) (tok_name token) evs).
    unfold s'. rewrite R4, X, R2, <- app_assoc. done.
  - done.
Qed.

End Laws.

Import Fixtures MoreFixtures.

Lemma checkResourceAvailable_in_run_witness :
  currentWorkflow (started [missile])
    = Some (mkWorkflow goblin [missile] []
              (mkContext (Some "actor1") goblin (Some "combat1"))) /\
  checkResourceAvailable testHost missile (started [missile])
    = (Throw (TypeError "Cannot read properties of undefined"), started [missile]).
Proof.
  split; [reflexivity|].
  exact (checkResourceAvailable_in_run testHost missile (started [missile]) _ eq_refl).
Defined.

Lemma shouldExecute_skips_on_attack_only_witness :
  shouldExecute testHost healB afterHit = (Ok false, afterHit) /\
  exists o,
    firstAttack [("S", hitOutcome)] = Some o /\
    ((cond_type (a_conditions healB) = ConditionType.ATTACK_HIT /\ hit o <> Some true) \/
     (cond_type (a_conditions healB) = ConditionType.ATTACK_MISS /\ hit o <> Some false)).
Proof.
  split; [reflexivity|].
  exact (proj2 (proj2 (shouldExecute_skips_on_attack_only testHost healB afterHit _ eq_refl))
           afterHit eq_refl).
Defined.

Lemma executeQueue_notifies_once_and_releases_witness :
  executing (idle [potion]) = false /\
  exists evs n,
    executeQueue testHost goblin [potion] (idle [potion])
      = (Ok tt, mkSt false None (qst (idle [potion]))
                     (world (executeQueue testHost goblin [potion] (idle [potion])).2)
                     (events (idle [potion]) ++ evs ++ [n])) /\
    notifications evs = [] /\
    (n = NotifyInfo (tok_name goblin) (length [potion]) \/ n = NotifyError) /\
    getStatus (executeQueue testHost goblin [potion] (idle [potion])).2
      = mkStatus false None 0.
Proof.
  split; [reflexivity|].
  exact (executeQueue_notifies_once_and_releases testHost goblin [potion]
           (idle [potion]) eq_refl).
Defined.

Lemma run_completes_without_actor_conditions_witness :
  Forall (fun a => readsActor a = false) [strike; healB; onSave] /\
  exists evs,
    events (executeQueue testHost goblin [strike; healB; onSave] (idle [])).2
      = events (idle []) ++ evs ++ [NotifyInfo "Goblin" 3] /\
    notifications evs = [] /\
    ledgerWrites evs `sublist_of` [strike; healB; onSave] /\
    (length (ledgerWrites evs) <= 3)%nat.
Proof.
  assert (F : Forall (fun a => readsActor a = false) [strike; healB; onSave])
    by (repeat constructor).
  split; [exact F|].
  exact (run_completes_without_actor_conditions testHost goblin
           [strike; healB; onSave] (idle []) eq_refl F).
Defined.

Lemma run_stops_at_actor_condition_witness :
  readsActor missile = true /\
  exists evs,
    events (executeQueue testHost goblin ([actA] ++ missile :: [actC]) (idle [])).2
      = events (idle []) ++ evs
          ++ [ConsoleError (TypeError "Cannot read properties of undefined");
              NotifyError] /\
    notifications evs = [] /\
    ledgerWrites evs `sublist_of` [actA] /\
    Forall (fun x => x ∈ [actA] ++ missile :: [actC]) (dispatched evs).
Proof.
  split; [reflexivity|].
  assert (F : Forall (fun a => readsActor a = false) [actA]) by (repeat constructor).
  exact (run_stops_at_actor_condition testHost goblin [actA] missile [actC] (idle [])
           eq_refl F eq_refl).
Defined.

Lemma stopExecution_does_not_stop_next_action_witness :
  executing busy = true /\
  (shouldExecute testHost actC (stopExecution busy).2).1 = Ok true /\
  exists s1,
    iteration testHost [actA; actC] actC (stopExecution busy).2
      = (Throw (TypeError "Cannot read properties of null"), s1) /\
    s1 = (executeAction testHost actC (stopExecution busy).2).2 /\
    dispatched (events s1) = dispatched (events busy) ++ [actC] /\
    ledgerWrites (events s1) = ledgerWrites (events busy).
Proof.
  split; [reflexivity|]. split; [reflexivity|].
  exact (proj2 (proj2 (proj2
    (stopExecution_does_not_stop_next_action testHost [actA; actC] actC busy
       eq_refl eq_refl)))).
Defined.

Lemma ledger_one_entry_per_id_witness :
  let s' := (mainLoop testHost [actC; actC] [actC; actC] (started [actC; actC])).2 in
  length (ledgerWrites (events s')) = 2%nat /\
  NoDup (ledgerOf s').*1 /\
  (st_actionsCompleted (getStatus s') <= 0 + 2)%nat.
Proof.
  split; [reflexivity|].
  destruct (ledger_one_entry_per_id testHost [actC; actC] [actC; actC]
              (started [actC; actC]) _ _ _ eq_refl (NoDup_nil_2 : NoDup [].*1)
              (surjective_pairing _)) as (H1 & H2 & _).
  split; [exact H1 | exact H2].
Defined.

(** Runs of the fixtures: a resource condition ends the run before
    anything is dispatched; a condition type without a case does not hold
    the action back; the first turn of a round, index [0], starts
    nothing; an action that occurs twice is recorded once. *)
Example run_examples :
  events (executeQueue testHost goblin [missile; actC] (idle [])).2
    = [ConsoleError (TypeError "Cannot read properties of undefined"); NotifyError] /\
  events (executeQueue testHost goblin [onSave] (idle [])).2
    = [LogExecuting onSave; LedgerSet onSave turnEnded; NotifyInfo "Goblin" 1] /\
  events (onCombatTurn testRandomID testHost goblinsTurn (Some 0) (idle [actC])).2 = [] /\
  ledgerOf (mainLoop testHost [actC; actC] [actC; actC] (started [actC; actC])).2
    = [("C", turnEnded)] /\
  getStatus (stopExecution busy).2 = mkStatus false None 0 /\
  getStatus busy = mkStatus true (Some "Goblin") 1.
Proof. vm_compute. repeat split. Qed.
End RunFacts.

(** * Properties of target selection *)
Module AttackFacts.
Import Queue Executor Canvas Attack.
Local Open Scope list_scope.

(** ** The order of doubles *)

Lemma SFcompare_Lt_trans a b c :
  SFcompare a b = Some Lt -> SFcompare b c = Some Lt -> SFcompare a c = Some Lt.
Proof.
  destruct a as [sa|sa| |sa ma ea], b as [sb|sb| |sb mb eb], c as [sc|sc| |sc mc ec];
    try destruct sa; try destruct sb; try destruct sc; simpl; try done.
  all: change (Pos.compare_cont Eq ?x ?y) with (Pos.compare x y).
  all: destruct (Z.compare_spec ea eb), (Z.compare_spec eb ec), (Z.compare_spec ea ec);
    try done; try lia; subst;
    destruct (Pos.compare_spec ma mb), (Pos.compare_spec mb mc), (Pos.compare_spec ma mc);
    simpl; try done; try lia.
Qed.

Lemma SFcompare_Lt_irrefl a : SFcompare a a <> Some Lt.
Proof.
  destruct a as [sa|sa| |sa ma ea]; try destruct sa; simpl; try done.
  all: change (Pos.compare_cont Eq ?x ?y) with (Pos.compare x y).
  all: rewrite Z.compare_refl, Pos.compare_refl; done.
Qed.

Lemma ltb_trans (x y z : float) :
  (x <? y)%float = true -> (y <? z)%float = true -> (x <? z)%float = true.
Proof.
  rewrite !ltb_spec. unfold SFltb.
  destruct (SFcompare (Prim2SF x) (Prim2SF y)) as [[]|] eqn:E1; try done.
  destruct (SFcompare (Prim2SF y) (Prim2SF z)) as [[]|] eqn:E2; try done.
  by rewrite (SFcompare_Lt_trans _ _ _ E1 E2).
Qed.

Lemma ltb_irrefl (x : float) : (x <? x)%float = false.
Proof.
  rewrite ltb_spec. unfold SFltb.
  destruct (SFcompare (Prim2SF x) (Prim2SF x)) as [[]|] eqn:E; try done.
  by apply SFcompare_Lt_irrefl in E.
Qed.

(** ** Searching for the best target *)

Lemma fold_pick_member better key targets : forall best0,
  fold_left (pick better key) targets best0 = best0 \/
  exists t, fold_left (pick better key) targets best0 = Some t /\ t ∈ targets.
Proof.
  induction targets as [|t l IH]; intros best0; simpl; [by left|].
  destruct (IH (pick better key best0 t)) as [E | (t' & E & H)].
  - rewrite E. unfold pick. destruct (better _ _); [|by left].
    right. exists t. split; [done | left].
  - right. exists t'. split; [done | by right].
Qed.

Section Best.

Variable better : float -> float -> bool.
Variable key : option Placeable -> float.
Hypothesis better_irrefl : forall x, better x x = false.
Hypothesis better_trans : forall x y z,
  better x y = true -> better y z = true -> better x z = true.

Lemma fold_pick_best targets : forall best0,
  let r := fold_left (pick better key) targets best0 in
  (r = best0 \/
   exists t, r = Some t /\ t ∈ targets /\ better (key r) (key best0) = true) /\
  (forall t, t ∈ targets -> better (key (Some t)) (key r) = false).
Proof.
  induction targets as [|t l IH]; intros best0; simpl.
  - split; [by left|]. intros t H. by apply elem_of_nil in H.
  - destruct (IH (pick better key best0 t)) as [H1 H2].
    set (r := fold_left (pick better key) l (pick better key best0 t)) in *.
    unfold pick in H1.
    destruct (better (key (Some t)) (key best0)) eqn:B.
    + assert (R : (r = Some t \/ better (key r) (key (Some t)) = true) /\
                  exists t', r = Some t' /\ t' ∈ t :: l /\
                             better (key r) (key best0) = true).
      { destruct H1 as [E | (t' & E & Ht' & Hb)].
        - split; [by left|]. exists t. rewrite E. split; [done|]. split; [left | done].
        - split; [by right|]. exists t'. split; [done|]. split; [by right|].
          by apply better_trans with (key (Some t)). }
      destruct R as [R1 R2]. split; [by right|].
      intros t' Ht'. apply elem_of_cons in Ht' as [-> | Ht']; [|by apply H2].
      destruct R1 as [-> | R1]; [apply better_irrefl|].
      destruct (better (key (Some t)) (key r)) eqn:C; [|done].
      pose proof (better_trans _ _ _ C R1) as X. by rewrite better_irrefl in X.
    + split.
      * destruct H1 as [E | (t' & E & Ht' & Hb)]; [by left|].
        right. exists t'. split; [done|]. split; [by right | done].
      * intros t' Ht'. apply elem_of_cons in Ht' as [-> | Ht']; [|by apply H2].
        destruct H1 as [-> | (t' & E & Ht' & Hb)]; [done|].
        destruct (better (key (Some t)) (key r)) eqn:C; [|done].
        by rewrite (better_trans _ _ _ C Hb) in B.
Qed.

(** From no target at all: the result is a target of the list that is
    better than none, and no target of the list is better than it; it is
    none exactly when no target is better than none. *)
Lemma fold_pick_from_none targets :
  let r := fold_left (pick better key) targets None in
  (forall t, r = Some t ->
     t ∈ targets /\ better (key (Some t)) (key None) = true /\
     forall t', t' ∈ targets -> better (key (Some t')) (key (Some t)) = false) /\
  (r = None <-> forall t', t' ∈ targets -> better (key (Some t')) (key None) = false).
Proof.
  intros r. destruct (fold_pick_best targets None) as [H1 H2]. fold r in H1, H2.
  split.
  - intros t E. rewrite E in H1, H2.
    destruct H1 as [? | (t' & [= <-] & Ht & Hb)]; done.
  - split.
    + intros E. by rewrite E in H2.
    + intros H. destruct H1 as [? | (t' & E & Ht & Hb)]; [done|].
      rewrite E in Hb. by rewrite (H t' Ht) in Hb.
Qed.

End Best.

Section Facts.

Variable measureDistance : Placeable -> Placeable -> float.
Variable placeables : list Placeable.
Variable isGM : bool.

Abbreviation getValidTargets := (getValidTargets placeables isGM).
Abbreviation getNearestTarget := (getNearestTarget measureDistance).
Abbreviation getFurthestTarget := (getFurthestTarget measureDistance).
Abbreviation selectByPriority := (selectByPriority measureDistance).
Abbreviation selectTarget := (selectTarget measureDistance placeables isGM).
Abbreviation chooseTarget := (chooseTarget measureDistance placeables isGM).

Lemma nearestFrom_fold token targets : forall nearest,
  nearestFrom measureDistance token targets nearest
              (distanceOr measureDistance token infinity nearest)
    = fold_left (pick PrimFloat.ltb (distanceOr measureDistance token infinity))
                targets nearest.
Proof.
  induction targets as [|t l IH]; intros nearest; simpl; [done|].
  unfold pick at 2. simpl.
  destruct (measureDistance token t <? _)%float; [|apply IH].
  apply (IH (Some t)).
Qed.

Lemma furthestFrom_fold token targets : forall furthest,
  furthestFrom measureDistance token targets furthest
               (distanceOr measureDistance token 0%float furthest)
    = fold_left (pick (fun x y => PrimFloat.ltb y x)
                      (distanceOr measureDistance token 0%float))
                targets furthest.
Proof.
  induction targets as [|t l IH]; intros furthest; simpl; [done|].
  unfold pick at 2. simpl.
  destruct (_ <? measureDistance token t)%float; [|apply IH].
  apply (IH (Some t)).
Qed.

Lemma gtb_irrefl (x : float) : (fun x y => PrimFloat.ltb y x) x x = false.
Proof. apply ltb_irrefl. Qed.

Lemma gtb_trans (x y z : float) :
  (fun x y => PrimFloat.ltb y x) x y = true ->
  (fun x y => PrimFloat.ltb y x) y z = true ->
  (fun x y => PrimFloat.ltb y x) x z = true.
Proof. simpl. intros H1 H2. by apply ltb_trans with y. Qed.

(** X19: [getNearestTarget] returns a target of the list that is less
    than [Infinity] away and than which no target of the list is nearer,
    and [null] exactly when no target is less than [Infinity] away;
    [getFurthestTarget] returns a target that is more than [0] away and
    than which none is further, and [null] exactly when no target is more
    than [0] away: a target on the token's own spot is never the
    furthest. *)
Theorem nearest_and_furthest_are_extremal token targets :
  let d := measureDistance token in
  (forall t, getNearestTarget token targets = Some t ->
     t ∈ targets /\ (d t <? infinity)%float = true /\
     forall t', t' ∈ targets -> (d t' <? d t)%float = false) /\
  (getNearestTarget token targets = None <->
   forall t', t' ∈ targets -> (d t' <? infinity)%float = false) /\
  (forall t, getFurthestTarget token targets = Some t ->
     t ∈ targets /\ (0 <? d t)%float = true /\
     forall t', t' ∈ targets -> (d t <? d t')%float = false) /\
  (getFurthestTarget token targets = None <->
   forall t', t' ∈ targets -> (0 <? d t')%float = false).
Proof.
  intros d.
  pose proof (fold_pick_from_none PrimFloat.ltb
                (distanceOr measureDistance token infinity)
                ltb_irrefl ltb_trans targets) as [N1 N2].
  pose proof (fold_pick_from_none (fun x y => PrimFloat.ltb y x)
                (distanceOr measureDistance token 0%float)
                gtb_irrefl gtb_trans targets) as [F1 F2].
  rewrite <- (nearestFrom_fold token targets None) in N1, N2.
  rewrite <- (furthestFrom_fold token targets None) in F1, F2.
  done.
Qed.

(** X20: the four getters by hit points and armour class. The number
    compared is the target's [hp.value] (or [ac.value]) with [Infinity],
    for the lowest, or [0], for the highest, in place of a missing, zero
    or [NaN] one. The getter returns a target of the list whose number is
    below [Infinity] (above [0]) and than which no target of the list has
    a lower (higher) one, so never a target without an actor; it returns
    [null] exactly when no target has a number below [Infinity] (above
    [0]). *)
Theorem hp_and_ac_getters_are_extremal targets :
  let lowHP := fun t => num_or (hpOf (Some t)) infinity in
  let highHP := fun t => num_or (hpOf (Some t)) 0%float in
  let lowAC := fun t => num_or (acOf (Some t)) infinity in
  let highAC := fun t => num_or (acOf (Some t)) 0%float in
  ((forall t, getLowestHPTarget targets = Some t ->
      t ∈ targets /\ (lowHP t <? infinity)%float = true /\
      forall t', t' ∈ targets -> (lowHP t' <? lowHP t)%float = false) /\
   (getLowestHPTarget targets = None <->
    forall t', t' ∈ targets -> (lowHP t' <? infinity)%float = false)) /\
  ((forall t, getHighestHPTarget targets = Some t ->
      t ∈ targets /\ (0 <? highHP t)%float = true /\
      forall t', t' ∈ targets -> (highHP t <? highHP t')%float = false) /\
   (getHighestHPTarget targets = None <->
    forall t', t' ∈ targets -> (0 <? highHP t')%float = false)) /\
  ((forall t, getLowestACTarget targets = Some t ->
      t ∈ targets /\ (lowAC t <? infinity)%float = true /\
      forall t', t' ∈ targets -> (lowAC t' <? lowAC t)%float = false) /\
   (getLowestACTarget targets = None <->
    forall t', t' ∈ targets -> (lowAC t' <? infinity)%float = false)) /\
  ((forall t, getHighestACTarget targets = Some t ->
      t ∈ targets /\ (0 <? highAC t)%float = true /\
      forall t', t' ∈ targets -> (highAC t <? highAC t')%float = false) /\
   (getHighestACTarget targets = None <->
    forall t', t' ∈ targets -> (0 <? highAC t')%float = false)) /\
  (forall t,
     getLowestHPTarget targets = Some t \/ getHighestHPTarget targets = Some t \/
     getLowestACTarget targets = Some t \/ getHighestACTarget targets = Some t ->
     p_actor t <> None).
Proof.
  intros lowHP highHP lowAC highAC.
  pose proof (fold_pick_from_none PrimFloat.ltb
                (fun t => num_or (hpOf t) infinity) ltb_irrefl ltb_trans targets) as A.
  pose proof (fold_pick_from_none (fun x y => PrimFloat.ltb y x)
                (fun t => num_or (hpOf t) 0%float) gtb_irrefl gtb_trans targets) as B.
  pose proof (fold_pick_from_none PrimFloat.ltb
                (fun t => num_or (acOf t) infinity) ltb_irrefl ltb_trans targets) as C.
  pose proof (fold_pick_from_none (fun x y => PrimFloat.ltb y x)
                (fun t => num_or (acOf t) 0%float) gtb_irrefl gtb_trans targets) as D.
  split; [exact A|]. split; [exact B|]. split; [exact C|]. split; [exact D|].
  intros t H Na.
  assert (Ehp : hpOf (Some t) = None) by (unfold hpOf; simpl; by rewrite Na).
  assert (Eac : acOf (Some t) = None) by (unfold acOf; simpl; by rewrite Na).
  destruct H as [H|[H|[H|H]]].
  - apply A in H as (_ & H & _). simpl in H. rewrite Ehp in H. simpl in H.
    by rewrite ?ltb_irrefl in H.
  - apply B in H as (_ & H & _). simpl in H. rewrite Ehp in H. simpl in H.
    by rewrite ?ltb_irrefl in H.
  - apply C in H as (_ & H & _). simpl in H. rewrite Eac in H. simpl in H.
    by rewrite ?ltb_irrefl in H.
  - apply D in H as (_ & H & _). simpl in H. rewrite Eac in H. simpl in H.
    by rewrite ?ltb_irrefl in H.
Qed.

(** ** Valid targets *)

Lemma getValidTargets_spec token t :
  t ∈ getValidTargets token <->
  t ∈ placeables /\ same t token = false /\
  disposition t = - disposition token /\
  dead t = false /\ (hidden t = true -> isGM = true).
Proof.
  unfold Attack.getValidTargets.
  rewrite list_elem_of_In, filter_In, <- list_elem_of_In.
  destruct (same t token).
  { split; [by intros [_ [=]] | by intros (_ & [=] & _)]. }
  destruct (Z.eqb_spec (disposition t) (disposition token * -1)) as [E|E]; simpl.
  2: { split; [by intros [_ [=]] | intros (_ & _ & H & _); lia]. }
  assert (D : disposition t = - disposition token) by lia.
  destruct (dead t).
  { split; [by intros [_ [=]] | by intros (_ & _ & _ & [=] & _)]. }
  destruct (hidden t), isGM; simpl.
  - split; [intros [H _] | intros (H & _)]; by repeat split.
  - split; [by intros [_ [=]] | intros (_ & _ & _ & _ & H); by specialize (H eq_refl)].
  - split; [intros [H _] | intros (H & _)]; by repeat split.
  - split; [intros [H _] | intros (H & _)]; by repeat split.
Qed.

Lemma selectByPriority_member token targets priority :
  selectByPriority token targets priority = None \/
  exists t, selectByPriority token targets priority = Some t /\ t ∈ targets.
Proof.
  unfold Attack.selectByPriority.
  repeat (match goal with |- context [if ?b then _ else _] => destruct b end);
    try (by left).
  - unfold Attack.getNearestTarget.
    pose proof (nearestFrom_fold token targets None) as E.
    cbn [distanceOr] in E. rewrite E. apply fold_pick_member.
  - unfold Attack.getFurthestTarget.
    pose proof (furthestFrom_fold token targets None) as E.
    cbn [distanceOr] in E. rewrite E. apply fold_pick_member.
  - apply (fold_pick_member PrimFloat.ltb (fun t => num_or (hpOf t) infinity)).
  - apply (fold_pick_member (fun x y => PrimFloat.ltb y x)
             (fun t => num_or (hpOf t) 0%float)).
  - apply (fold_pick_member PrimFloat.ltb (fun t => num_or (acOf t) infinity)).
  - apply (fold_pick_member (fun x y => PrimFloat.ltb y x)
             (fun t => num_or (acOf t) 0%float)).
Qed.

Lemma firstByPriority_member token targets targetPriority :
  firstByPriority measureDistance token targets targetPriority = None \/
  exists t, firstByPriority measureDistance token targets targetPriority = Some t /\
            t ∈ targets.
Proof.
  induction targetPriority as [|p l IH]; simpl; [by left|].
  destruct (selectByPriority_member token targets p) as [-> | (t & -> & H)]; [done|].
  right. by exists t.
Qed.

Lemma firstByPriority_none token targets targetPriority :
  Forall (fun p => selectByPriority token targets p = None) targetPriority ->
  firstByPriority measureDistance token targets targetPriority = None.
Proof. induction 1 as [|p l H _ IH]; simpl; [done|]. by rewrite H. Qed.

Lemma selectTarget_member token targetPriority t :
  selectTarget token targetPriority = Some t -> t ∈ getValidTargets token.
Proof.
  unfold Attack.selectTarget.
  destruct (getValidTargets token) as [|v l] eqn:V; simpl; [done|].
  destruct (firstByPriority_member token (v :: l) targetPriority) as [-> | (t' & -> & H)].
  - intros [= <-]. left.
  - by intros [= <-].
Qed.

Lemma selectTarget_none_iff token targetPriority :
  selectTarget token targetPriority = None <-> getValidTargets token = [].
Proof.
  unfold Attack.selectTarget.
  destruct (getValidTargets token) as [|v l] eqn:V; simpl; [done|].
  by destruct (firstByPriority _ _ _ _).
Qed.

(** X21: [selectTarget] returns [null] exactly when the token has no
    valid target, whatever the priorities are. What it returns is a valid
    target: a token of the canvas other than the token itself, of the
    opposite disposition, whose hit points, if it has an actor, are not
    [<= 0], and which is not hidden from a user who is not the GM. When
    no priority of the list gives a target, unknown priorities among
    them, it is the first valid target in canvas order. *)
Theorem selectTarget_returns_valid_target token targetPriority :
  (selectTarget token targetPriority = None <-> getValidTargets token = []) /\
  (forall t, selectTarget token targetPriority = Some t ->
     t ∈ placeables /\ p_id t <> p_id token /\
     disposition t = - disposition token /\
     dead t = false /\ (hidden t = true -> isGM = true)) /\
  (Forall (fun p => selectByPriority token (getValidTargets token) p = None)
          targetPriority ->
   selectTarget token targetPriority = head (getValidTargets token)).
Proof.
  split; [|split].
  - apply selectTarget_none_iff.
  - intros t H. apply selectTarget_member, getValidTargets_spec in H
      as (H1 & H2 & H3 & H4 & H5).
    repeat split; try done.
    intros E. unfold same in H2. by rewrite E, String.eqb_refl in H2.
  - intros H. unfold Attack.selectTarget.
    rewrite (firstByPriority_none _ _ _ H).
    by destruct (getValidTargets token).
Qed.

Lemma tokensGet_spec i t :
  tokensGet placeables i = Some t -> t ∈ placeables /\ p_id t = i.
Proof.
  unfold tokensGet. intros H. apply find_some in H as [H1 H2].
  split; [by apply list_elem_of_In | by apply String.eqb_eq].
Qed.

Lemma firstByPriority_first token targets pre p post t :
  Forall (fun q => selectByPriority token targets q = None) pre ->
  selectByPriority token targets p = Some t ->
  firstByPriority measureDistance token targets (pre ++ p :: post) = Some t.
Proof.
  induction 1 as [|q l H _ IH]; simpl; intros Hp; [by rewrite Hp|].
  rewrite H. by apply IH.
Qed.

(** X22: the target of an attack. With a [targetId] the target is the
    token of that id, if the canvas has one, and nothing else is looked
    at: the priorities are not used, no other target is tried when there
    is no such token, and the token is not checked for being a valid
    target, so the attacker itself can be the target. Without a
    [targetId] the target is the choice of [selectTarget] for the
    priorities given, when there are any: the target of the first
    priority of the list that gives one, and the first valid target when
    none does; it is a valid target, and there is none exactly when there
    are no priorities or no valid targets. *)
Theorem chooseTarget_by_id_is_unchecked token attackData :
  (forall i, truthy (targetId attackData) = Some i ->
     chooseTarget token attackData = tokensGet placeables i /\
     (forall t, chooseTarget token attackData = Some t ->
        t ∈ placeables /\ p_id t = i) /\
     (i = p_id token -> token ∈ placeables ->
      exists t, chooseTarget token attackData = Some t /\
                p_id t = p_id token /\ t ∉ getValidTargets token)) /\
  (truthy (targetId attackData) = None ->
   (chooseTarget token attackData = None <->
    targetPriority attackData = [] \/ getValidTargets token = []) /\
   (forall t, chooseTarget token attackData = Some t ->
      t ∈ getValidTargets token) /\
   (targetPriority attackData <> [] ->
    chooseTarget token attackData = selectTarget token (targetPriority attackData)) /\
   (forall pre p post t,
      targetPriority attackData = pre ++ p :: post ->
      Forall (fun q => selectByPriority token (getValidTargets token) q = None) pre ->
      selectByPriority token (getValidTargets token) p = Some t ->
      chooseTarget token attackData = Some t) /\
   (targetPriority attackData <> [] ->
    Forall (fun q => selectByPriority token (getValidTargets token) q = None)
           (targetPriority attackData) ->
    chooseTarget token attackData = head (getValidTargets token))).
Proof.
  unfold Attack.chooseTarget. split.
  - intros i ->. split; [done|]. split; [apply tokensGet_spec|].
    intros -> Hin.
    destruct (tokensGet placeables (p_id token)) as [t|] eqn:G.
    + exists t. split; [done|]. apply tokensGet_spec in G as [G1 G2].
      split; [done|]. rewrite getValidTargets_spec. intros (_ & S & _).
      unfold same in S. by rewrite G2, String.eqb_refl in S.
    + unfold tokensGet in G. apply list_elem_of_In in Hin.
      apply (find_none _ _ G) in Hin. by rewrite String.eqb_refl in Hin.
  - intros ->.
    assert (E : targetPriority attackData <> [] ->
                (if (0 <? length (targetPriority attackData))%nat
                 then selectTarget token (targetPriority attackData)
                 else None)
                = selectTarget token (targetPriority attackData)).
    { by destruct (targetPriority attackData). }
    split; [|split; [|split; [exact E|split]]].
    + destruct (targetPriority attackData) as [|p l] eqn:P; simpl.
      * split; [by left | done].
      * fold (selectTarget token (p :: l)).
        rewrite (selectTarget_none_iff token (p :: l)).
        split; [by right | by intros [?|?]].
    + destruct (targetPriority attackData) as [|p l] eqn:P; simpl; [done|].
      apply selectTarget_member.
    + intros pre p post t P Hpre Hp. rewrite E by (rewrite P; by destruct pre).
      rewrite P. unfold Attack.selectTarget.
      destruct (selectByPriority_member token (getValidTargets token) p)
        as [N | (t' & _ & Ht')]; [by rewrite N in Hp|].
      destruct (getValidTargets token) as [|v l] eqn:V; [by apply elem_of_nil in Ht'|].
      simpl. by rewrite (firstByPriority_first _ _ _ _ _ _ Hpre Hp).
    + intros N Hall. rewrite E by done. unfold Attack.selectTarget.
      rewrite (firstByPriority_none _ _ _ Hall).
      by destruct (getValidTargets token).
Qed.

End Facts.

(** ** The attack roll *)

Section Rolls.

Context {World Item : Type}.
Variable hasAttack : Item -> bool.
Variable hasDamage : Item -> bool.
Variable nameOf : Item -> string.
Variable rollAttack : Item -> World -> Res float * World.
Variable rollDamage : Item -> World -> Res float * World.
Variable use : Item -> World -> Res unit * World.
Variable showNumber : float -> string.

Abbreviation executeStandardAttack :=
  (executeStandardAttack World Item hasAttack hasDamage nameOf
     rollAttack rollDamage use showNumber).

Local Ltac outcome_facts :=
  simpl; unfold failed; repeat split; intros;
  repeat match goal with
         | H : exists _, _ |- _ => destruct H
         | H : _ && _ = true |- _ => apply andb_true_iff in H as [? ?]
         | H : _ && _ = false |- _ => apply andb_false_iff in H as [?|?]
         end;
  simplify_eq/=; try done; try (by eauto); try congruence.

(** X23: [executeStandardAttack] never throws: an error of a roll or of
    the use becomes a failed outcome with the error's message, and every
    other outcome is a success, a miss too, so that an action whose
    attack misses takes its [onSuccess] branch. The outcome is tagged
    [attack], with a [hit], exactly when the item has an attack. A hit is
    reported only when the attack roll is at least the target's armour
    class (10 when it has none) and the item has damage: the attack of an
    item without damage is reported as a miss whatever was rolled. Case
    by case: an attack roll that throws gives the failed outcome; one
    that is below the armour class, or of an item without damage, gives
    the miss, with no damage rolled; otherwise the damage roll decides
    between the hit and the failed outcome; and an item without an attack
    is used, which gives the outcome tagged [item] or the failed one. *)
Theorem executeStandardAttack_outcome item target w :
  exists o w',
    executeStandardAttack item target w = (Ok o, w') /\
    (success o = false <-> exists msg, o = failed msg) /\
    (success o = true ->
     (o_type o = Some "attack" <-> hasAttack item = true) /\
     (hasAttack item = true -> hit o <> None) /\
     (hasAttack item = false -> o_type o = Some "item" /\ hit o = None) /\
     forall action, branchTarget action o = truthy (a_onSuccess action)) /\
    (hit o = Some true ->
     hasAttack item = true /\ hasDamage item = true /\
     exists total w1,
       rollAttack item w = (Ok total, w1) /\
       (num_or (acOf (Some target)) 10 <=? total)%float = true) /\
    (hasAttack item = true -> hasDamage item = false -> success o = true ->
     hit o = Some false /\ message o = Some ("Missed " ++ p_name target)%string) /\
    (hasAttack item = true ->
     (forall e w1, rollAttack item w = (Throw e, w1) ->
        o = failed (exn_message e) /\ w' = w1) /\
     (forall total w1, rollAttack item w = (Ok total, w1) ->
        ((num_or (acOf (Some target)) 10 <=? total)%float && hasDamage item = false ->
         o = mkOutcome true (Some "attack") (Some false)
               (Some ("Missed " ++ p_name target)%string) None /\
         w' = w1) /\
        ((num_or (acOf (Some target)) 10 <=? total)%float && hasDamage item = true ->
         (forall damage w2, rollDamage item w1 = (Ok damage, w2) ->
            o = mkOutcome true (Some "attack") (Some true)
                  (Some ("Hit " ++ p_name target ++ " for "
                           ++ showNumber damage ++ " damage")%string) None /\
            w' = w2) /\
         (forall e w2, rollDamage item w1 = (Throw e, w2) ->
            o = failed (exn_message e) /\ w' = w2)))) /\
    (hasAttack item = false ->
     (forall u w1, use item w = (Ok u, w1) ->
        o = mkOutcome true (Some "item") None
              (Some ("Used " ++ nameOf item)%string) None /\
        w' = w1) /\
     (forall e w1, use item w = (Throw e, w1) ->
        o = failed (exn_message e) /\ w' = w1)).
Proof.
  unfold Attack.executeStandardAttack.
  destruct (hasAttack item) eqn:A.
  - destruct (rollAttack item w) as [[total|e] w1] eqn:R.
    + destruct (num_or (acOf (Some target)) 10 <=? total)%float eqn:H; simpl.
      * destruct (hasDamage item) eqn:D.
        -- destruct (rollDamage item w1) as [[damage|e] w2] eqn:R2; eexists _, _;
             (split; [reflexivity|]); outcome_facts.
        -- eexists _, _. split; [reflexivity|]. outcome_facts.
      * eexists _, _. split; [reflexivity|]. outcome_facts.
    + eexists _, _. split; [reflexivity|]. outcome_facts.
  - destruct (use item w) as [[[]|e] w1] eqn:U; eexists _, _;
      (split; [reflexivity|]); outcome_facts.
Qed.

End Rolls.

Import Fixtures MoreFixtures.

(** Target selection on the canvas of the fixtures, for the hero: the
    corpse is never a target and the hidden wolf is one for the GM only;
    the crate, which has no actor, is a valid target, the nearest one,
    and never the one with the lowest hit points; an unknown priority
    gives the first valid target; a [targetId] is taken as it is. *)
Example target_selection_examples :
  let select := selectTarget testDistance testCanvas false hero in
  getValidTargets testCanvas false hero = [crate; orc] /\
  getValidTargets testCanvas true hero = [wolf; crate; orc] /\
  select ["nearest"] = Some crate /\
  select ["furthest"] = Some orc /\
  select ["lowestHP"] = Some orc /\
  select ["highestAC"] = Some orc /\
  select ["weakest"] = Some crate /\
  select [] = Some crate /\
  getLowestHPTarget [crate] = None /\
  getFurthestTarget testDistance hero [hero] = None /\
  chooseTarget testDistance testCanvas false hero
    (mkPayload None [] None (Some "hero") None ["nearest"] None None None)
    = Some hero /\
  chooseTarget testDistance testCanvas false hero
    (mkPayload None [] None (Some "nobody") None ["nearest"] None None None)
    = None /\
  chooseTarget testDistance testCanvas false hero
    (mkPayload None [] None None None [] None None None)
    = None.
Proof. vm_compute. repeat split. Qed.
End AttackFacts.

(** * Properties of the movement system *)
Module MovementFacts.
Import Queue Executor Canvas Movement.
Local Open Scope list_scope.

(** ** Recording *)

Lemma click_while_recording snap pos r :
  recordingPath r = true -> recordedWaypoints r <> [] ->
  onCanvasClick snap pos r
    = mkRecorder true (recordedWaypoints r ++ [snap pos]) (recordingToken r)
                 (Some (recordedWaypoints r ++ [snap pos])) (clickListeners r).
Proof.
  intros R W. unfold onCanvasClick, drawPreview, clearPreview. rewrite R. simpl.
  destruct (recordedWaypoints r) as [|a l]; [done|].
  destruct (previewGraphics r); simpl; by destruct l.
Qed.

Lemma listeners_while_recording snap pos r k :
  recordingPath r = true -> recordedWaypoints r <> [] ->
  Nat.iter (S k) (onCanvasClick snap pos) r
    = mkRecorder true (recordedWaypoints r ++ replicate (S k) (snap pos))
                 (recordingToken r)
                 (Some (recordedWaypoints r ++ replicate (S k) (snap pos)))
                 (clickListeners r).
Proof.
  intros R W. induction k as [|k IH].
  - simpl. by apply click_while_recording.
  - change (Nat.iter (S (S k)) (onCanvasClick snap pos) r)
      with (onCanvasClick snap pos (Nat.iter (S k) (onCanvasClick snap pos) r)).
    rewrite IH, click_while_recording; [|done|by destruct (recordedWaypoints r)].
    cbn [recordedWaypoints recordingToken clickListeners].
    rewrite <- !app_assoc.
    assert (E : replicate (S k) (snap pos) ++ [snap pos]
                = replicate (S (S k)) (snap pos)).
    { clear. induction k as [|k IH]; [done|].
      change (replicate (S (S k)) (snap pos))
        with (snap pos :: replicate (S k) (snap pos)).
      rewrite <- app_comm_cons, IH. done. }
    by rewrite E.
Qed.

Lemma clicks_while_recording snap n clicks : forall r,
  recordingPath r = true -> recordedWaypoints r <> [] -> clickListeners r = S n ->
  let r1 := fold_left (fun r pos => canvasClick snap pos r) clicks r in
  let path := recordedWaypoints r
                ++ flat_map (fun pos => replicate (S n) (snap pos)) clicks in
  recordingPath r1 = true /\
  recordedWaypoints r1 = path /\
  recordingToken r1 = recordingToken r /\
  clickListeners r1 = S n /\
  previewGraphics r1 = match clicks with
                       | [] => previewGraphics r
                       | _ => Some path
                       end.
Proof.
  induction clicks as [|c l IH]; intros r R W N; simpl.
  - by rewrite app_nil_r.
  - unfold canvasClick at 2 4 6 8 10. rewrite N.
    rewrite (listeners_while_recording snap c r n R W).
    edestruct (IH (mkRecorder true (recordedWaypoints r ++ replicate (S n) (snap c))
                     (recordingToken r)
                     (Some (recordedWaypoints r ++ replicate (S n) (snap c)))
                     (clickListeners r)))
      as (H1 & H2 & H3 & H4 & H5); [done | by destruct (recordedWaypoints r) | done |].
    cbn [recordedWaypoints recordingToken previewGraphics] in H2, H3, H5.
    rewrite H1, H2, H3, H4, H5, <- !app_assoc.
    repeat split. destruct l; [|done]. by rewrite !app_nil_r.
Qed.

Lemma clicks_while_idle snap clicks : forall r,
  recordingPath r = false ->
  fold_left (fun r pos => canvasClick snap pos r) clicks r = r.
Proof.
  assert (I : forall pos r k, recordingPath r = false ->
            Nat.iter k (onCanvasClick snap pos) r = r).
  { intros pos r k R. induction k as [|k IH]; [done|].
    simpl. rewrite IH. unfold onCanvasClick. by rewrite R. }
  induction clicks as [|c l IH]; intros r R; simpl; [done|].
  unfold canvasClick at 2. rewrite (I c r _ R). by apply IH.
Qed.

(** X24: recording a path. [startRecording] registers one more click
    listener and [stopRecording] removes none, so that in a recording
    started when [k] listeners are left over from earlier ones every
    click is recorded [k + 1] times. From any state, [startRecording]
    followed by clicks and [stopRecording] returns the token's place
    followed by the snapped position of each click, that many times, in
    the order of the clicks, and leaves the system idle, with no
    waypoints, no token and no preview, and with the listeners still
    registered; while the recording goes on the preview, once there has
    been a click, is the path recorded so far. In the first recording of
    a new system each click is recorded once; in the recording that
    follows it each click is recorded twice. A second [stopRecording]
    returns [null]. Clicks that arrive while no recording goes on change
    nothing. *)
Theorem recording_round_trip snap token clicks r :
  let click := fun r pos => canvasClick snap pos r in
  let n := S (clickListeners r) in
  let r1 := fold_left click clicks (startRecording token r) in
  let path := (p_x token, p_y token)
                :: flat_map (fun pos => replicate n (snap pos)) clicks in
  isRecording r1 = true /\
  recordedWaypoints r1 = path /\
  recordingToken r1 = Some token /\
  clickListeners r1 = n /\
  (clicks <> [] -> previewGraphics r1 = Some path) /\
  stopRecording r1 = (Some path, mkRecorder false [] None None n) /\
  stopRecording (stopRecording r1).2 = (None, mkRecorder false [] None None n) /\
  (clickListeners r = 0%nat -> path = (p_x token, p_y token) :: map snap clicks) /\
  (forall token' clicks',
     clickListeners r = 0%nat ->
     (stopRecording
        (fold_left click clicks' (startRecording token' (stopRecording r1).2))).1
       = Some ((p_x token', p_y token')
                 :: flat_map (fun pos => [snap pos; snap pos]) clicks')) /\
  (forall r0, isRecording r0 = false ->
     fold_left click clicks r0 = r0 /\ stopRecording r0 = (None, r0)).
Proof.
  intros click n r1 path.
  assert (Round : forall token clicks r,
            let r1 := fold_left click clicks (startRecording token r) in
            let path := (p_x token, p_y token)
                          :: flat_map (fun pos => replicate (S (clickListeners r)) (snap pos))
                               clicks in
            recordingPath r1 = true /\ recordedWaypoints r1 = path /\
            recordingToken r1 = Some token /\
            clickListeners r1 = S (clickListeners r) /\
            (clicks <> [] -> previewGraphics r1 = Some path) /\
            stopRecording r1
              = (Some path, mkRecorder false [] None None (S (clickListeners r)))).
  { clear. intros token clicks r r1 path.
    destruct (clicks_while_recording snap (clickListeners r) clicks
                (startRecording token r)) as (H1 & H2 & H3 & H4 & H5);
      [done | done | done |].
    fold click in H1, H2, H3, H4, H5. fold r1 in H1, H2, H3, H4, H5.
    cbn [startRecording recordedWaypoints recordingToken app] in H2, H3.
    fold path in H2.
    split; [done|]. split; [done|]. split; [done|]. split; [done|]. split.
    - intros N. rewrite H5. by destruct clicks.
    - unfold stopRecording, clearPreview. rewrite H1, H4. simpl.
      rewrite H2. by destruct (previewGraphics r1). }
  destruct (Round token clicks r) as (H1 & H2 & H3 & H4 & H5 & H6).
  fold r1 in H1, H2, H3, H4, H5, H6. fold n in H2, H4, H5, H6. fold path in H2, H5, H6.
  split; [done|]. split; [done|]. split; [done|]. split; [done|]. split; [done|].
  split; [done|]. split; [by rewrite H6|]. split; [|split].
  - intros Hz. unfold path, n. rewrite Hz.
    assert (E : forall l : list Point,
              flat_map (fun pos => replicate 1 (snap pos)) l = map snap l).
    { induction l as [|c l IH]; [done|]. simpl in *. congruence. }
    by rewrite E.
  - intros token' clicks' Hz. rewrite H6. cbn [snd].
    destruct (Round token' clicks' (mkRecorder false [] None None n))
      as (_ & _ & _ & _ & _ & R6).
    rewrite R6. cbn [fst clickListeners]. unfold n. by rewrite Hz.
  - intros r0 R. split; [by apply clicks_while_idle|].
    unfold stopRecording. unfold isRecording in R. by rewrite R.
Qed.

(** ** Moving *)

Section Facts.

Variable placeables : list Placeable.
Variable measureDistance : Placeable -> Placeable -> float.
Variable gridSize : float.
Variable gridDistance : float.
Variable walk : Placeable -> option float.
Context {World : Type}.
Variable update : Placeable -> Point -> World -> Res unit * World.

Abbreviation executeMovement :=
  (executeMovement placeables measureDistance gridSize gridDistance walk World update).
Abbreviation destinationOf := (destinationOf placeables measureDistance).
Abbreviation findNearestEnemy := (findNearestEnemy placeables measureDistance).
Abbreviation moveEach := (moveEach World update).
Abbreviation calculateDistance := (calculateDistance gridSize gridDistance).

(** X25: the walking speed of the token has no part in
    [executeMovement]: the range that is checked is [maxDistance] alone,
    and only when one is given. Without a [maxDistance] no distance is
    computed, so the grid has no part in it either. *)
Theorem executeMovement_ignores_walking_speed token movementData s :
  (forall walk',
     executeMovement token movementData s
       = Movement.executeMovement placeables measureDistance gridSize gridDistance
           walk' World update token movementData s) /\
  (maxDistance movementData = None \/ maxDistance movementData = Some 0 ->
   forall gridSize' gridDistance' walk',
     executeMovement token movementData s
       = Movement.executeMovement placeables measureDistance gridSize' gridDistance'
           walk' World update token movementData s).
Proof.
  unfold Movement.executeMovement. split.
  - intros walk'. by destruct (maxDistance movementData) as [[|p|p]|].
  - by intros [-> | ->].
Qed.

Lemma moveEach_moves token wps : forall s,
  exists moves,
    (moveEach token wps s).2.2 = s.2 ++ moves /\
    moves `prefix_of` wps /\
    ((moveEach token wps s).1 = Ok tt -> moves = wps).
Proof.
  induction wps as [|wp l IH]; intros s; simpl.
  - exists []. rewrite app_nil_r. done.
  - unfold animateMovement.
    destruct (update token wp s.1) as [[[]|e] w]; simpl.
    + destruct (IH (w, s.2 ++ [wp])) as (moves & H1 & H2 & H3).
      exists (wp :: moves). simpl in H1. rewrite H1, <- app_assoc.
      split; [done|]. split; [by apply prefix_cons|].
      intros E. by rewrite (H3 E).
    + exists [wp]. split; [done|]. split; [|done].
      apply prefix_cons, prefix_nil.
Qed.

Lemma moveEach_app token pre : forall post s,
  moveEach token (pre ++ post) s
    = match moveEach token pre s with
      | (Ok _, s1) => moveEach token post s1
      | (Throw e, s1) => (Throw e, s1)
      end.
Proof.
  induction pre as [|p l IH]; intros post s; simpl; [done|].
  destruct (animateMovement World update token p s) as [[[]|e] s1]; [apply IH | done].
Qed.

Lemma moveEach_all_ok token wps : forall s,
  (forall p w, p ∈ wps -> exists w', update token p w = (Ok tt, w')) ->
  moveEach token wps s
    = (Ok tt, (fold_left (fun w p => (update token p w).2) wps s.1, s.2 ++ wps)).
Proof.
  induction wps as [|p l IH]; intros s H; simpl.
  - rewrite app_nil_r. by destruct s.
  - unfold animateMovement.
    destruct (H p s.1) as (w' & E); [by left|]. rewrite E.
    rewrite IH by (intros; apply H; by right). simpl.
    by rewrite <- app_assoc.
Qed.

(** X26: [executeMovement] never throws, and where the token goes is
    settled by the waypoints when there are two or more of them: it is
    moved to each waypoint but the first, in order, so that it ends on
    the last waypoint, whatever the destination was; the destination
    counts only for the range check and the message. With fewer than
    two waypoints the token is moved to the destination. When a move
    fails the token has been sent along the route up to that move, no
    further, and the error becomes a failed outcome with its message;
    when every move goes through the outcome is the success of type
    [movement]. Without a destination, or with one that is further away
    than a [maxDistance] given, nothing is moved and the outcome is the
    failure that says so. *)
Theorem executeMovement_follows_waypoints token movementData s :
  exists o s',
    executeMovement token movementData s = (Ok o, s') /\
    (destinationOf token movementData = None ->
     o = failed "No valid destination" /\ s' = s) /\
    (forall destination,
       destinationOf token movementData = Some destination ->
       let route := if (1 <? length (waypoints movementData))%nat
                    then tail (waypoints movementData)
                    else [destination] in
       exists moves,
         s'.2 = s.2 ++ moves /\ moves `prefix_of` route /\
         (success o = true ->
          moves = route /\ o_type o = Some "movement" /\
          last moves = (if (1 <? length (waypoints movementData))%nat
                        then last (waypoints movementData)
                        else Some destination) /\
          message o = Some ("Moved to " ++ numberText (Some destination.1) ++ ", "
                              ++ numberText (Some destination.2))%string)) /\
    (forall destination,
       destinationOf token movementData = Some destination ->
       let tooFar := match maxDistance movementData with
                     | Some 0 | None => false
                     | Some z => (floatOfZ z <? calculateDistance token destination)%float
                     end in
       let moved := mkOutcome true (Some "movement") None
                      (Some ("Moved to " ++ numberText (Some destination.1) ++ ", "
                               ++ numberText (Some destination.2))%string) None in
       let route := if (1 <? length (waypoints movementData))%nat
                    then tail (waypoints movementData)
                    else [destination] in
       (tooFar = true ->
        o = failed "Destination exceeds movement range" /\ s' = s) /\
       (tooFar = false ->
        (forall pre p post s1 e w,
           route = pre ++ p :: post ->
           moveEach token pre s = (Ok tt, s1) ->
           update token p s1.1 = (Throw e, w) ->
           o = failed (exn_message e) /\ s' = (w, s.2 ++ pre ++ [p])) /\
        (forall s1, moveEach token route s = (Ok tt, s1) ->
           o = moved /\ s' = s1 /\ s1.2 = s.2 ++ route) /\
        ((forall p w, p ∈ route -> exists w', update token p w = (Ok tt, w')) ->
         o = moved /\
         s' = (fold_left (fun w p => (update token p w).2) route s.1, s.2 ++ route)))).
Proof.
  assert (Stop : forall pre p post s1 e w,
            moveEach token pre s = (Ok tt, s1) ->
            update token p s1.1 = (Throw e, w) ->
            moveEach token (pre ++ p :: post) s = (Throw e, (w, s.2 ++ pre ++ [p]))).
  { intros pre p post s1 e w H1 H2. rewrite moveEach_app, H1. simpl.
    unfold animateMovement. rewrite H2.
    destruct (moveEach_moves token pre s) as (moves & M1 & _ & M3).
    rewrite H1 in M1, M3. simpl in M1. rewrite M1, (M3 eq_refl).
    by rewrite app_assoc. }
  assert (Go : forall route s1, moveEach token route s = (Ok tt, s1) ->
            s1.2 = s.2 ++ route).
  { intros route s1 H. destruct (moveEach_moves token route s) as (moves & M1 & _ & M3).
    rewrite H in M1, M3. simpl in M1. by rewrite M1, (M3 eq_refl). }
  assert (One : forall d, moveEach token [d] s = moveToDestination World update token d s).
  { intros d. simpl. unfold moveToDestination.
    by destruct (animateMovement World update token d s) as [[[]|e] s1]. }
  unfold Movement.executeMovement.
  destruct (destinationOf token movementData) as [d|]; [|by eexists _, _].
  assert (T : match maxDistance movementData with
              | Some 0 | None => false
              | Some _ =>
                  (rangeOf (maxDistance movementData) (num_or (walk token) 30)
                     <? calculateDistance token d)%float
              end
              = match maxDistance movementData with
                | Some 0 | None => false
                | Some z => (floatOfZ z <? calculateDistance token d)%float
                end).
  { by destruct (maxDistance movementData) as [[|p|p]|]. }
  cbv zeta. rewrite T. clear T.
  destruct (match maxDistance movementData with
            | Some 0 | None => false
            | Some z => (floatOfZ z <? calculateDistance token d)%float
            end) eqn:TF.
  { eexists _, _. split; [done|]. split; [done|]. split.
    - intros ? [= <-].
      exists []. rewrite app_nil_r. split; [done|]. split; [apply prefix_nil | done].
    - intros ? [= <-]. rewrite TF. split; [done|]. done. }
  assert (R : (if (1 <? length (waypoints movementData))%nat
               then moveAlongPath World update token (waypoints movementData) s
               else moveToDestination World update token d s)
              = moveEach token (if (1 <? length (waypoints movementData))%nat
                                then tail (waypoints movementData)
                                else [d]) s).
  { destruct (1 <? length (waypoints movementData))%nat; [done | by rewrite One]. }
  rewrite R. clear R.
  assert (L : last (if (1 <? length (waypoints movementData))%nat
                    then tail (waypoints movementData) else [d])
              = if (1 <? length (waypoints movementData))%nat
                then last (waypoints movementData) else Some d).
  { by destruct (waypoints movementData) as [|a [|b l]]. }
  unfold Point in *.
  remember (if (1 <? length (waypoints movementData))%nat
            then tail (waypoints movementData) else [d]) as route eqn:Er.
  destruct (moveEach_moves token route s) as (moves & H1 & H2 & H3).
  destruct (moveEach token route s) as [[[]|e] s1] eqn:M; simpl in H1, H3.
  - eexists _, _. split; [done|]. split; [done|]. split.
    + intros ? [= <-]. rewrite <- Er. exists moves. split; [done|]. split; [done|].
      intros _. by rewrite (H3 eq_refl).
    + intros ? [= <-]. rewrite TF, <- Er. split; [done|]. intros _. split; [|split].
      * intros pre p post s2 e w -> P U.
        rewrite (Stop pre p post s2 e w P U) in M. done.
      * intros s2 E. rewrite M in E. injection E as <-.
        split; [done|]. split; [done|]. by apply Go.
      * intros A. rewrite (moveEach_all_ok token route s A) in M.
        by injection M as <-.
  - eexists _, _. split; [done|]. split; [done|]. split.
    + intros ? [= <-]. rewrite <- Er. exists moves. done.
    + intros ? [= <-]. rewrite TF, <- Er. split; [done|]. intros _. split; [|split].
      * intros pre p post s2 e' w -> P U.
        rewrite (Stop pre p post s2 e' w P U) in M. by injection M as <- <-.
      * intros s2 E. by rewrite M in E.
      * intros A. rewrite (moveEach_all_ok token route s A) in M. done.
Qed.

(** ** The nearest enemy *)

Lemma nearestEnemyFrom_filter token tokens : forall nearest m,
  nearestEnemyFrom measureDistance token tokens nearest m
    = Attack.nearestFrom measureDistance token
        (Attack.getValidTargets tokens true token) nearest m.
Proof.
  unfold Attack.getValidTargets.
  induction tokens as [|t l IH]; intros nearest m; simpl; [done|].
  destruct (same t token); [apply IH|].
  destruct (negb (disposition t =? disposition token * -1)); [apply IH|].
  destruct (dead t); [apply IH|].
  rewrite andb_false_r. simpl.
  destruct (measureDistance token t <? m)%float; apply IH.
Qed.

(** X27: [findNearestEnemy] gives the place of the token that
    [getNearestTarget] of the attack system picks among the valid targets
    as the GM has them: hidden tokens are not left out. So it is the
    place of a token of the canvas, other than the token itself, of the
    opposite disposition, whose hit points are not [<= 0], that is less
    than [Infinity] away and than which no such token is nearer; and it
    is [null] exactly when no such token is less than [Infinity] away. *)
Theorem findNearestEnemy_is_nearest_enemy token :
  let d := measureDistance token in
  let enemy := fun t =>
    t ∈ placeables /\ same t token = false /\
    disposition t = - disposition token /\ dead t = false in
  findNearestEnemy token
    = (fun t => (p_x t, p_y t))
        <$> Attack.getNearestTarget measureDistance token
              (Attack.getValidTargets placeables true token) /\
  (forall pt, findNearestEnemy token = Some pt ->
     exists t, pt = (p_x t, p_y t) /\ enemy t /\ (d t <? infinity)%float = true /\
               forall t', enemy t' -> (d t' <? d t)%float = false) /\
  (findNearestEnemy token = None <->
   forall t', enemy t' -> (d t' <? infinity)%float = false).
Proof.
  intros d enemy.
  assert (V : forall t, enemy t <-> t ∈ Attack.getValidTargets placeables true token).
  { intros t. rewrite AttackFacts.getValidTargets_spec. unfold enemy.
    split; [intros (? & ? & ? & ?) | intros (? & ? & ? & ? & _)]; by repeat split. }
  assert (E : findNearestEnemy token
              = (fun t => (p_x t, p_y t))
                  <$> Attack.getNearestTarget measureDistance token
                        (Attack.getValidTargets placeables true token)).
  { unfold Movement.findNearestEnemy, Attack.getNearestTarget.
    rewrite nearestEnemyFrom_filter. by destruct (Attack.nearestFrom _ _ _ _ _). }
  split; [exact E|].
  pose proof (AttackFacts.fold_pick_from_none PrimFloat.ltb
                (Attack.distanceOr measureDistance token infinity)
                AttackFacts.ltb_irrefl AttackFacts.ltb_trans
                (Attack.getValidTargets placeables true token)) as [N1 N2].
  rewrite <- (AttackFacts.nearestFrom_fold measureDistance token _ None) in N1, N2.
  cbn [Attack.distanceOr] in N1, N2.
  fold (Attack.getNearestTarget measureDistance token
          (Attack.getValidTargets placeables true token)) in N1, N2.
  rewrite E.
  destruct (Attack.getNearestTarget measureDistance token
              (Attack.getValidTargets placeables true token)) as [t|]; simpl.
  - destruct (N1 t eq_refl) as (H1 & H2 & H3). split.
    + intros pt [= <-]. exists t. split; [done|]. split; [by apply V|].
      split; [done|]. intros t' Ht'. apply H3. by apply V.
    + split; [done|]. intros H. apply V in H1.
      pose proof (H t H1) as H4. unfold d in H4. congruence.
  - split; [done|]. split; [|done]. intros _ t' Ht'.
    apply N2; [done | by apply V].
Qed.

End Facts.

Import Fixtures MoreFixtures.

(** Movement on the canvas of the fixtures: the nearest enemy of the
    hero is the hidden wolf; a path is followed from its second waypoint
    on, also when the destination is the nearest enemy; a failing update
    ends the move where it fails; [maxDistance] is in the units of the
    grid. *)
Example movement_examples :
  let run := executeMovement testCanvas testDistance 100 5 (fun _ => Some 30%float)
               unit testUpdate hero in
  let path := [(0, 0); (100, 0); (100, 100)] in
  findNearestEnemy testCanvas testDistance hero = Some (100, 0) /\
  run (mkPayload None path (Some "nearestEnemy") None None [] None None None) (tt, [])
    = (Ok (mkOutcome true (Some "movement") None (Some "Moved to 100, 0") None),
       (tt, [(100, 0); (100, 100)])) /\
  run (mkPayload None path (Some "waypoint") None None [] None None None) (tt, [])
    = (Ok (mkOutcome true (Some "movement") None (Some "Moved to 100, 100") None),
       (tt, [(100, 0); (100, 100)])) /\
  run (mkPayload None [(0, 0); (666, 0); (5, 5)] (Some "waypoint") None None []
         None None None) (tt, [])
    = (Ok (failed "blocked"), (tt, [(666, 0)])) /\
  run (mkPayload None [] (Some "token") (Some "orc") (Some 10) [] None None None) (tt, [])
    = (Ok (failed "Destination exceeds movement range"), (tt, [])) /\
  run (mkPayload None [] (Some "token") (Some "orc") (Some 15) [] None None None) (tt, [])
    = (Ok (mkOutcome true (Some "movement") None (Some "Moved to 300, 0") None),
       (tt, [(300, 0)])) /\
  run (mkPayload None [] (Some "waypoint") None None [] None None None) (tt, [])
    = (Ok (failed "No valid destination"), (tt, [])).
Proof. vm_compute. repeat split. Qed.
(** Two recordings with a new system: the clicks of the first are
    recorded once, those of the second twice. *)
Example recording_examples :
  let click := fun r pos => canvasClick (fun p => p) pos r in
  let first := fold_left click [(100, 0); (100, 100)]
                 (startRecording hero newMovementSystem) in
  let second := fold_left click [(200, 0)]
                  (startRecording hero (stopRecording first).2) in
  (stopRecording first).1 = Some [(0, 0); (100, 0); (100, 100)] /\
  clickListeners (stopRecording first).2 = 1%nat /\
  (stopRecording second).1 = Some [(0, 0); (200, 0); (200, 0)] /\
  clickListeners (stopRecording second).2 = 2%nat.
Proof. vm_compute. repeat split. Qed.

End MovementFacts.

(** * Properties of the initiative roller *)
Module InitiativeFacts.
Import Executor Initiative.
Local Open Scope list_scope.

Section Facts.

Context {World Roll : Type}.
Variable getInitiativeRoll : Combatant -> World -> Res (option Roll) * World.
Variable evaluate : Roll -> World -> Res float * World.
Variable updateEmbeddedDocuments : list (string * float) -> World -> Res unit * World.
Variable enableSound : bool.
Variable tokenManager : option (string -> bool).
Variable isGM : bool.

Abbreviation rollForCombatant := (rollForCombatant World Roll getInitiativeRoll evaluate).
Abbreviation rollEach := (rollEach World Roll getInitiativeRoll evaluate).
Abbreviation rollForMultipleCombatants :=
  (rollForMultipleCombatants World Roll getInitiativeRoll evaluate
     updateEmbeddedDocuments enableSound).
Abbreviation getAutoRollCombatants := (getAutoRollCombatants tokenManager isGM).

(** The combatants that have no initiative yet. *)
Abbreviation pending :=
  (List.filter (fun c => match initiative c with Some _ => false | None => true end)).

Lemma batches_app evs1 evs2 : batches (evs1 ++ evs2) = batches evs1 ++ batches evs2.
Proof. apply omap_app. Qed.

Lemma rollEach_spec combatants : forall updates w,
  exists new,
    (rollEach combatants updates w).1 = updates ++ new /\
    new.*1 `sublist_of` c_id <$> pending combatants.
Proof.
  induction combatants as [|c l IH]; intros updates w; simpl.
  - exists []. by rewrite app_nil_r.
  - destruct (initiative c) as [i|] eqn:I; [apply IH|].
    unfold Initiative.rollForCombatant. rewrite ?I.
    assert (Skip : forall w1, exists new,
              (rollEach l updates w1).1 = updates ++ new /\
              new.*1 `sublist_of` c_id <$> c :: pending l).
    { intros w1. destruct (IH updates w1) as (new & E & S).
      exists new. split; [done|]. by apply sublist_cons. }
    destruct (getInitiativeRoll c w) as [[[roll|]|e] w1]; try apply Skip.
    destruct (evaluate roll w1) as [[total|e] w2]; try apply Skip.
    destruct (IH (updates ++ [(c_id c, total)]) w2) as (new & E & S).
    exists ((c_id c, total) :: new). rewrite E, <- app_assoc. split; [done|].
    simpl. by apply sublist_skip.
Qed.

Lemma rollForMultipleCombatants_one_batch_aux combatants s :
  rolling s = false ->
  exists updates evs,
    revents (rollForMultipleCombatants combatants s) = revents s ++ evs /\
    updates.*1 `sublist_of` c_id <$> pending combatants /\
    ((updates = [] /\ batches evs = []) \/ batches evs = [updates]).
Proof.
  unfold Initiative.rollForMultipleCombatants. intros ->.
  destruct (rollEach_spec combatants [] (rworld s)) as (updates & E & S).
  destruct (rollEach combatants [] (rworld s)) as [u w1]. simpl in E. subst u.
  exists updates. destruct updates as [|u0 updates]; simpl.
  - exists []. rewrite app_nil_r. split; [done|]. split; [done|]. by left.
  - destruct (updateEmbeddedDocuments (u0 :: updates) w1) as [[[]|e] w2]; simpl;
      eexists; (split; [reflexivity|]); (split; [exact S|]); right;
      [by destruct enableSound | done].
Qed.

Lemma rollEach_sound combatants : forall updates w id i,
  (id, i) ∈ (rollEach combatants updates w).1 ->
  (id, i) ∈ updates \/
  exists c w0 w1, c ∈ combatants /\ c_id c = id /\ initiative c = None /\
                  rollForCombatant (Some c) w0 = (Some i, w1).
Proof.
  induction combatants as [|c l IH]; intros updates w id i;
    cbn [Initiative.rollEach]; [by left|].
  assert (Later : forall u w1, (id, i) ∈ (rollEach l u w1).1 ->
            (id, i) ∈ u \/
            exists c' w0 w2, c' ∈ c :: l /\ c_id c' = id /\ initiative c' = None /\
                             rollForCombatant (Some c') w0 = (Some i, w2)).
  { intros u w1 H. destruct (IH u w1 id i H) as [?|(c' & w0 & w2 & Hc & R)]; [by left|].
    right. exists c', w0, w2. split; [by right | done]. }
  destruct (initiative c) as [i0|] eqn:I; [apply Later|].
  destruct (rollForCombatant (Some c) w) as [[total|] w1] eqn:R; [|apply Later].
  intros H. destruct (Later _ _ H) as [H1 | H1]; [|by right].
  apply elem_of_app in H1 as [H1 | H1]; [by left|].
  apply list_elem_of_singleton in H1. injection H1 as -> ->.
  right. exists c, w, w1. split; [by left | done].
Qed.

Lemma rollEach_pure (roll : Combatant -> option float) combatants : forall updates w,
  (forall c w, c ∈ combatants -> initiative c = None ->
               rollForCombatant (Some c) w = (roll c, w)) ->
  rollEach combatants updates w
    = (updates ++ omap (fun c => match initiative c with
                                 | Some _ => None
                                 | None => (fun i => (c_id c, i)) <$> roll c
                                 end) combatants, w).
Proof.
  induction combatants as [|c l IH]; intros updates w H; cbn [Initiative.rollEach omap list_omap].
  - by rewrite app_nil_r.
  - assert (H' : forall c w, c ∈ l -> initiative c = None ->
                   rollForCombatant (Some c) w = (roll c, w)).
    { intros c' w' Hc. apply H. by right. }
    destruct (initiative c) as [i0|] eqn:I; [by apply IH|].
    rewrite (H c w) by (done || by left).
    destruct (roll c) as [i|]; simpl; rewrite IH by done; [|done].
    by rewrite <- app_assoc.
Qed.

(** X28: [rollForMultipleCombatants] does nothing while a batch is
    rolling. Otherwise it asks for at most one update, which holds, in
    the order of the list, only combatants of the list that had no
    initiative, each at most as often as it is in the list, and it asks
    for none when nothing was rolled; the notification, shown only after
    an update that did not fail, counts the entries of that update; and
    the [rolling] guard is clear at the end whether the update failed or
    not. The update holds what the loop collected: every entry is the
    result of a roll for a combatant of the list without initiative, and
    when the rolls do not depend on the world it holds, for each such
    combatant whose roll gives a number, its id with that number. The
    result of the update decides what follows it: after an update that
    went through the sound is played, when the setting asks for it, and
    then the notification is shown; after one that threw only the error
    is printed, with no sound and no notification. A roll for a
    combatant gives the initiative it has, when it has one, and else the
    total of its initiative roll, or [null] when there is no roll or
    the rolling throws. *)
Theorem rollForMultipleCombatants_one_batch combatants s :
  let s' := rollForMultipleCombatants combatants s in
  (rolling s = true ->
   s' = mkRSt true (rworld s) (revents s ++ [LogAlreadyRolling])) /\
  (rolling s = false ->
   rolling s' = false /\
   exists updates evs,
     revents s' = revents s ++ evs /\
     updates.*1 `sublist_of` c_id <$> pending combatants /\
     (updates = [] -> evs = []) /\
     (updates <> [] ->
      batches evs = [updates] /\
      (NotifyRolled (length updates) ∈ evs \/
       exists e, evs = [Update updates; ConsoleError e]) /\
      forall n, NotifyRolled n ∈ evs -> n = length updates) /\
     updates = (rollEach combatants [] (rworld s)).1 /\
     (updates = [] -> rworld s' = (rollEach combatants [] (rworld s)).2) /\
     (updates <> [] ->
      forall res w2,
        updateEmbeddedDocuments updates (rollEach combatants [] (rworld s)).2
          = (res, w2) ->
        rworld s' = w2 /\
        evs = match res with
              | Ok _ => [Update updates] ++ (if enableSound then [PlaySound] else [])
                          ++ [NotifyRolled (length updates)]
              | Throw e => [Update updates; ConsoleError e]
              end) /\
     (forall id i, (id, i) ∈ updates ->
        exists c w0 w1, c ∈ combatants /\ c_id c = id /\ initiative c = None /\
                        rollForCombatant (Some c) w0 = (Some i, w1)) /\
     (forall roll : Combatant -> option float,
        (forall c w, c ∈ combatants -> initiative c = None ->
                     rollForCombatant (Some c) w = (roll c, w)) ->
        updates = omap (fun c => match initiative c with
                                 | Some _ => None
                                 | None => (fun i => (c_id c, i)) <$> roll c
                                 end) combatants)) /\
  (forall w, rollForCombatant None w = (None, w)) /\
  (forall c w i, initiative c = Some i -> rollForCombatant (Some c) w = (Some i, w)) /\
  (forall c w r w1,
     initiative c = None -> getInitiativeRoll c w = (r, w1) ->
     match r with
     | Ok (Some roll) =>
         forall r' w2, evaluate roll w1 = (r', w2) ->
           rollForCombatant (Some c) w
             = (match r' with Ok total => Some total | Throw _ => None end, w2)
     | _ => rollForCombatant (Some c) w = (None, w1)
     end).
Proof.
  intros s'.
  assert (One : (forall w, rollForCombatant None w = (None, w)) /\
    (forall c w i, initiative c = Some i -> rollForCombatant (Some c) w = (Some i, w)) /\
    (forall c w r w1,
       initiative c = None -> getInitiativeRoll c w = (r, w1) ->
       match r with
       | Ok (Some roll) =>
           forall r' w2, evaluate roll w1 = (r', w2) ->
             rollForCombatant (Some c) w
               = (match r' with Ok total => Some total | Throw _ => None end, w2)
       | _ => rollForCombatant (Some c) w = (None, w1)
       end)).
  { unfold Initiative.rollForCombatant. split; [done|]. split; [by intros c w i ->|].
    intros c w r w1 -> ->. destruct r as [[roll|]|e]; [|done|done].
    intros r' w2 ->. by destruct r'. }
  unfold s', Initiative.rollForMultipleCombatants.
  split; [|split; [|exact One]]; clear One.
  - by intros ->.
  - intros ->.
    destruct (rollEach_spec combatants [] (rworld s)) as (updates & E & S).
    pose proof (rollEach_sound combatants [] (rworld s)) as Snd.
    pose proof (fun roll => rollEach_pure roll combatants [] (rworld s)) as Pure.
    destruct (rollEach combatants [] (rworld s)) as [u w1]. simpl in E. subst u.
    assert (Snd' : forall id i, (id, i) ∈ updates ->
              exists c w0 w1, c ∈ combatants /\ c_id c = id /\ initiative c = None /\
                              rollForCombatant (Some c) w0 = (Some i, w1)).
    { intros id i H. destruct (Snd id i H) as [H1 | H1]; [by apply elem_of_nil in H1 | done]. }
    assert (Pure' : forall roll : Combatant -> option float,
              (forall c w, c ∈ combatants -> initiative c = None ->
                           rollForCombatant (Some c) w = (roll c, w)) ->
              updates = omap (fun c => match initiative c with
                                       | Some _ => None
                                       | None => (fun i => (c_id c, i)) <$> roll c
                                       end) combatants).
    { intros roll H. by injection (Pure roll H) as ->. }
    clear Snd Pure.
    destruct updates as [|u0 updates]; simpl.
    + split; [done|]. exists [], []. rewrite app_nil_r. by repeat split.
    + destruct (updateEmbeddedDocuments (u0 :: updates) w1) as [[[]|e] w2] eqn:U; simpl;
        (split; [done|]); exists (u0 :: updates); eexists;
        (split; [reflexivity|]); (split; [exact S|]); (split; [done|]);
        (split; [intros _ | split; [done | split; [done | split; [|by split]]]]).
      * split; [by destruct enableSound|].
        split; [left; destruct enableSound; apply list_elem_of_In; simpl; tauto|].
        intros n H. apply list_elem_of_In in H.
        destruct enableSound; simpl in H; decompose [or] H; try discriminate;
          try done;
          match goal with E : NotifyRolled _ = NotifyRolled _ |- _ =>
            by injection E as <- end.
      * intros _ res w2' E. rewrite U in E. by injection E as <- <-.
      * split; [done|]. split; [right; by exists e|].
        intros n H. apply list_elem_of_In in H.
        simpl in H; decompose [or] H; try discriminate; done.
      * intros _ res w2' E. rewrite U in E. by injection E as <- <-.
Qed.

Lemma getAutoRollCombatants_spec combatants c :
  c ∈ getAutoRollCombatants (Some combatants) <->
  c ∈ combatants /\ initiative c = None /\
  exists isAutoInitEnabled token,
    tokenManager = Some isAutoInitEnabled /\ c_token c = Some token /\
    isAutoInitEnabled token = true /\ (c_isOwner c || isGM) = true.
Proof.
  unfold Initiative.getAutoRollCombatants.
  destruct tokenManager as [f|].
  - rewrite list_elem_of_In, filter_In, <- list_elem_of_In.
    destruct (initiative c) as [i|].
    { split; [by intros [_ [=]] | by intros (_ & [=] & _)]. }
    destruct (c_token c) as [token|].
    + simpl. rewrite andb_true_iff. split.
      * intros (H & H1 & H2). split; [done|]. split; [done|]. by exists f, token.
      * intros (H & _ & f' & token' & [= <-] & [= <-] & H1 & H2). done.
    + split; [by intros [_ [=]] | by intros (_ & _ & f' & token' & _ & [=] & _)].
  - split; [by intros H%elem_of_nil | by intros (_ & _ & f' & token' & [=] & _)].
Qed.

(** X29: [getAutoRollCombatants] gives, in the order of the combat, the
    combatants that have no initiative, have a token on the canvas with
    auto-initiative enabled, and are owned by the user or seen by the
    GM; none without a combat or a token manager. It gives the same when
    it is asked again for its own answer, and a batch rolled for its
    answer updates combatants of that answer only. *)
Theorem getAutoRollCombatants_are_rolled combat s :
  let auto := getAutoRollCombatants combat in
  (forall combatants c, combat = Some combatants ->
     (c ∈ auto <->
      c ∈ combatants /\ initiative c = None /\
      exists isAutoInitEnabled token,
        tokenManager = Some isAutoInitEnabled /\ c_token c = Some token /\
        isAutoInitEnabled token = true /\ (c_isOwner c || isGM) = true)) /\
  (forall combatants, combat = Some combatants -> auto `sublist_of` combatants) /\
  (combat = None \/ tokenManager = None -> auto = []) /\
  getAutoRollCombatants (Some auto) = auto /\
  (rolling s = false ->
   forall u, u ∈ batches (revents (rollForMultipleCombatants auto s)) ->
             u ∈ batches (revents s) \/ u.*1 `sublist_of` c_id <$> auto).
Proof.
  intros auto. split; [|split; [|split; [|split]]].
  - intros combatants c ->. apply getAutoRollCombatants_spec.
  - intros combatants ->. unfold auto, Initiative.getAutoRollCombatants.
    destruct tokenManager; [|apply sublist_nil_l].
    induction combatants as [|c l IH]; simpl; [done|].
    destruct (match initiative c with Some _ => false | None => _ end);
      [by apply sublist_skip | by apply sublist_cons].
  - unfold auto, Initiative.getAutoRollCombatants.
    intros [-> | ->]; [done | by destruct combat].
  - unfold auto, Initiative.getAutoRollCombatants.
    destruct combat as [combatants|]; [|by destruct tokenManager].
    destruct tokenManager as [f|]; [|done].
    induction combatants as [|c l IH]; simpl; [done|].
    destruct (match initiative c with Some _ => false | None => _ end) eqn:E; [|done].
    simpl. rewrite E. by f_equal.
  - intros R u.
    destruct (rollForMultipleCombatants_one_batch_aux auto s R) as (updates & evs & E & S & B).
    rewrite E, batches_app, elem_of_app.
    intros [H | H]; [by left|]. right.
    destruct B as [(_ & B) | B]; rewrite B in H; [by apply elem_of_nil in H|].
    apply list_elem_of_singleton in H. subst u.
    assert (P : pending auto = auto); [|by rewrite P in S].
    apply forallb_filter_id. apply forallb_forall. intros c Hc.
    apply list_elem_of_In in Hc.
    destruct combat as [combatants|]; [|by apply elem_of_nil in Hc].
    apply getAutoRollCombatants_spec in Hc as (_ & -> & _). done.
Qed.

End Facts.

Import MoreFixtures.

(** A batch for the combatants of the fixtures: the orc is left alone,
    the rolls that fail are left out, and the two that are made go into
    one update. *)
Example initiative_examples :
  let evaluate := fun (r : float) (w : unit) => (Ok r, w) in
  let update := fun (u : list (string * float)) (w : unit) => (Ok tt, w) in
  Initiative.rollForMultipleCombatants unit float testRoll evaluate update true
    fighters (mkRSt false tt [])
    = mkRSt false tt [Update [("c1", 12%float); ("c3", 12%float)];
                      PlaySound; NotifyRolled 2] /\
  Initiative.rollForMultipleCombatants unit float testRoll evaluate update true
    fighters (mkRSt true tt [])
    = mkRSt true tt [LogAlreadyRolling] /\
  c_id <$> Initiative.getAutoRollCombatants (Some (fun _ => true)) false (Some fighters)
    = ["c1"; "c5"] /\
  c_id <$> Initiative.getAutoRollCombatants (Some (fun _ => true)) true (Some fighters)
    = ["c1"; "c4"; "c5"] /\
  Initiative.getAutoRollCombatants None true (Some fighters) = [].
Proof. vm_compute. repeat split. Qed.
End InitiativeFacts.
